(** * Page rendering and asynchronous job pipeline of pdfeditor

    A shallow embedding of [src/core/src/renderer.cpp] (with the parts of
    [core.h], [renderer.h] and [document.cpp] it relies on) and the
    properties of the rendering subsystem stated over it.

    Numbers.  The C++ code computes with [float] (IEEE-754 binary32) and
    [int] (32-bit two's complement).  Every function that touches a
    [float] is written once, over an abstract arithmetic [FloatOps F],
    and is then read at two instances:
    - [binary32]: the bit-exact arithmetic of the machine (round to
      nearest even, overflow to infinity), built from the Standard
      Library's [SpecFloat] with 24 bits of precision;
    - [exactQ]: rational numbers, the arithmetic without rounding, in
      which algebraic laws hold and general statements are proved.
    Where a statement about [binary32] has to hold for all inputs of a
    range, it is proved from a bound on the error of one rounding
    (section "Binary32: the error of one operation"). *)

From Stdlib Require Import ZArith QArith Qround Qabs Qpower Lia Lqa.
From Stdlib Require Import Strings.Byte String.
From Stdlib Require Import Floats.SpecFloat.
From stdpp Require Import base list gmap pretty.

#[local] Open Scope Z_scope.

(* ===================================================================== *)
(** ** Machine integers *)
(* ===================================================================== *)

Module Int32.

Definition INT_MIN : Z := - 2 ^ 31.
Definition INT_MAX : Z := 2 ^ 31 - 1.

Definition in_range (z : Z) : bool := (INT_MIN <=? z) && (z <=? INT_MAX).

(** Two's complement wrap-around of an [int] result. *)
Definition wrap (z : Z) : Z := (z + 2 ^ 31) mod 2 ^ 32 - 2 ^ 31.

Definition add (a b : Z) : Z := wrap (a + b).
Definition mul (a b : Z) : Z := wrap (a * b).

(** [static_cast<int>] of a floating-point value whose integral part is
    [z].  Outside the range of [int] the conversion is undefined in C++;
    the x86-64 conversion instruction yields [INT_MIN] there. *)
Definition of_trunc (z : Z) : Z := if in_range z then z else INT_MIN.

End Int32.

(* ===================================================================== *)
(** ** Floating-point arithmetic, abstractly *)
(* ===================================================================== *)

(** The operations the renderer applies to [float] values. *)
Class FloatOps (F : Type) := {
  of_int : Z -> F;            (* implicit int -> float conversion, literals *)
  fadd : F -> F -> F;
  fsub : F -> F -> F;
  fmul : F -> F -> F;
  fdiv : F -> F -> F;
  fltb : F -> F -> bool;      (* operator< *)
  fceil : F -> F;             (* std::ceil *)
  to_int : F -> Z             (* static_cast<int>: truncation toward zero *)
}.

(** [std::min(a, b)] is [(b < a) ? b : a]. *)
Definition fmin {F} `{FloatOps F} (a b : F) : F := if fltb b a then b else a.

(** *** Exact arithmetic: the rationals *)

Definition Qtrunc (q : Q) : Z := Z.quot (Qnum q) (Zpos (Qden q)).

Definition Qltb (a b : Q) : bool :=
  match Qcompare a b with Lt => true | _ => false end.

#[export] Instance exactQ : FloatOps Q := {|
  of_int := inject_Z;
  fadd := Qplus;
  fsub := Qminus;
  fmul := Qmult;
  fdiv := Qdiv;
  fltb := Qltb;
  fceil := fun q => inject_Z (Qceiling q);
  to_int := fun q => Int32.of_trunc (Qtrunc q)
|}.

(** *** IEEE-754 binary32 *)

Module B32.

Definition prec : Z := 24.
Definition emax : Z := 128.

Definition t : Type := spec_float.

(** The float nearest to [m * 2^e]. *)
Definition of_scaled (m e : Z) : t := binary_normalize prec emax m e false.

Definition of_Z (z : Z) : t := of_scaled z 0.

(** Integral part of the magnitude of a finite float. *)
Definition magnitude_floor (m : positive) (e : Z) : Z := Z.shiftl (Zpos m) e.

Definition trunc (x : t) : Z :=
  match x with
  | S754_zero _ => 0
  | S754_finite s m e => Int32.of_trunc (cond_Zopp s (magnitude_floor m e))
  | S754_infinity _ | S754_nan => Int32.INT_MIN
  end.

Definition ceil (x : t) : t :=
  match x with
  | S754_finite s m e =>
      if 0 <=? e then x
      else
        let q := magnitude_floor m e in
        let exact := Zpos m =? Z.shiftl q (- e) in
        if s then binary_normalize prec emax (- q) 0 true
        else binary_normalize prec emax (if exact then q else q + 1) 0 false
  | _ => x
  end.

Definition is_finite (x : t) : bool :=
  match x with
  | S754_zero _ | S754_finite _ _ _ => true
  | _ => false
  end.

(** The rational value of a finite float (0 for infinities and NaN). *)
Definition to_Q (x : t) : Q :=
  match x with
  | S754_finite s m e =>
      let v := if 0 <=? e then inject_Z (Zpos m * 2 ^ e)
               else Qmake (Zpos m) (Z.to_pos (2 ^ (- e))) in
      if s then Qopp v else v
  | _ => 0%Q
  end.

End B32.

#[export] Instance binary32 : FloatOps B32.t := {|
  of_int := B32.of_Z;
  fadd := SFadd B32.prec B32.emax;
  fsub := SFsub B32.prec B32.emax;
  fmul := SFmul B32.prec B32.emax;
  fdiv := SFdiv B32.prec B32.emax;
  fltb := SFltb;
  fceil := B32.ceil;
  to_int := B32.trunc
|}.

(* ===================================================================== *)
(** ** core.h: geometry, error codes, results *)
(* ===================================================================== *)

Inductive ErrorCode :=
  | Success | FileNotFound | InvalidPDF | PasswordRequired | PermissionDenied
  | OutOfMemory | NotImplemented | InvalidArgument | IOError
  | EncryptionError | SignatureError | OCRError | RenderError | UnknownError.

#[export] Instance ErrorCode_eq_dec : EqDecision ErrorCode.
Proof. solve_decision. Defined.

Inductive PageRotation := RotNone | Clockwise90 | Clockwise180 | Clockwise270.

Record Rect (F : Type) := mkRect { x0 : F; y0 : F; x1 : F; y1 : F }.
Arguments mkRect {F}.
Arguments x0 {F}.
Arguments y0 {F}.
Arguments x1 {F}.
Arguments y1 {F}.

Record Point (F : Type) := mkPoint { px : F; py : F }.
Arguments mkPoint {F}.
Arguments px {F}.
Arguments py {F}.

Record Color (F : Type) := mkColor { cr : F; cg : F; cb : F; ca : F }.
Arguments mkColor {F}.
Arguments cr {F}.
Arguments cg {F}.
Arguments cb {F}.
Arguments ca {F}.

(** [Result<T>]: a value, an error code and a message; [is_ok] looks at the
    code only. *)
Record Result (T : Type) := mkResult {
  value_ : T;
  error_ : ErrorCode;
  error_message_ : string
}.
Arguments mkResult {T}.
Arguments value_ {T}.
Arguments error_ {T}.
Arguments error_message_ {T}.

Definition is_ok {T} (r : Result T) : bool := bool_decide (error_ r = Success).

(** The two [Result] constructors the renderer uses: a value (no error) and
    an error with a message (the value is a default-constructed, null
    [unique_ptr]). *)
Definition result_ok {T} (v : T) : Result T := mkResult v Success "".
Definition result_err {T} (null : T) (e : ErrorCode) (msg : string) : Result T :=
  mkResult null e msg.

(* ===================================================================== *)
(** ** renderer.h: options, image buffers *)
(* ===================================================================== *)

(** The resolution presets; the enumerators carry the dpi value. *)
Inductive RenderQuality := Draft | Low | Medium | High | VeryHigh.

Definition quality_dpi (q : RenderQuality) : Z :=
  match q with
  | Draft => 72
  | Low => 96
  | Medium => 150
  | High => 300
  | VeryHigh => 600
  end.

Inductive AntiAliasing := AA_None | AA_Text | AA_Graphics | AA_All.
Inductive ColorMode := CM_RGB | CM_CMYK | CM_Grayscale | CM_Monochrome.
Inductive ImageFormat := RGB24 | RGBA32 | BGR24 | BGRA32 | Gray8 | Mono1.

Record RenderOptions (F : Type) := mkRenderOptions {
  dpi : F;
  anti_aliasing : AntiAliasing;
  color_mode : ColorMode;
  image_format : ImageFormat;
  render_annotations : bool;
  render_forms : bool;
  render_xfa_forms : bool;
  render_transparent : bool;
  background_color : Color F;
  clip_rect : Rect F;
  use_clip_rect : bool;
  rotation : PageRotation;
  override_rotation : bool
}.
Arguments mkRenderOptions {F}.
Arguments dpi {F}.
Arguments anti_aliasing {F}.
Arguments color_mode {F}.
Arguments image_format {F}.
Arguments render_annotations {F}.
Arguments render_forms {F}.
Arguments render_xfa_forms {F}.
Arguments render_transparent {F}.
Arguments background_color {F}.
Arguments clip_rect {F}.
Arguments use_clip_rect {F}.
Arguments rotation {F}.
Arguments override_rotation {F}.

Definition set_dpi {F} (o : RenderOptions F) (d : F) : RenderOptions F :=
  mkRenderOptions d (anti_aliasing o) (color_mode o) (image_format o)
    (render_annotations o) (render_forms o) (render_xfa_forms o)
    (render_transparent o) (background_color o) (clip_rect o)
    (use_clip_rect o) (rotation o) (override_rotation o).

Definition set_anti_aliasing {F} (o : RenderOptions F) (a : AntiAliasing)
  : RenderOptions F :=
  mkRenderOptions (dpi o) a (color_mode o) (image_format o)
    (render_annotations o) (render_forms o) (render_xfa_forms o)
    (render_transparent o) (background_color o) (clip_rect o)
    (use_clip_rect o) (rotation o) (override_rotation o).

Definition set_clip {F} (o : RenderOptions F) (r : Rect F) : RenderOptions F :=
  mkRenderOptions (dpi o) (anti_aliasing o) (color_mode o) (image_format o)
    (render_annotations o) (render_forms o) (render_xfa_forms o)
    (render_transparent o) (background_color o) r
    true (rotation o) (override_rotation o).

(** [RenderOptions()]: the member initialisers of the struct. *)
Definition default_options {F} `{FloatOps F} : RenderOptions F :=
  let z := of_int 0 in
  let one := of_int 1 in
  mkRenderOptions (of_int 150) AA_All CM_RGB RGB24 true true false false
    (mkColor one one one one) (mkRect z z z z) false RotNone false.

(** [ImageBuffer::Impl]. *)
Record ImageBuffer := mkImageBuffer {
  ib_data : list byte;
  ib_width : Z;
  ib_height : Z;
  ib_stride : Z;
  ib_format : ImageFormat
}.

Definition ImageBuffer_size (b : ImageBuffer) : nat := length (ib_data b).

Definition bytes_per_pixel (b : ImageBuffer) : Z :=
  match ib_format b with
  | RGB24 | BGR24 => 3
  | RGBA32 | BGRA32 => 4
  | Gray8 => 1
  | Mono1 => 1
  end.

(** A [std::unique_ptr<ImageBuffer>]: null or owning one buffer. *)
Abbreviation ImagePtr := (option ImageBuffer).

Abbreviation RenderResult := (Result ImagePtr).

Definition render_error (e : ErrorCode) (msg : string) : RenderResult :=
  result_err None e msg.

(* ===================================================================== *)
(** ** document.cpp: pages and documents *)
(* ===================================================================== *)

(** An engine handle ([fz_page*], the [void*] key of the cache); a null
    pointer is [None]. *)
Abbreviation Handle := positive.

(** [Page::Impl]: the engine page handle and the page index. *)
Record Page := mkPage {
  page_ : option Handle;
  page_index_ : Z
}.

(** A document, as far as the renderer sees it: its pages, in order.
    [Document::get_page] creates the [Page] objects lazily and hands out
    the same object on every call; here they are the elements of the
    list. *)
Record Document := mkDocument { pages_ : list Page }.

Definition page_count (doc : Document) : Z := Z.of_nat (length (pages_ doc)).

(** [Document::get_page]: null when the index is out of range. *)
Definition get_page (doc : Document) (index : Z) : option Page :=
  if (index <? 0) || (index >=? page_count doc) then None
  else pages_ doc !! Z.to_nat index.

(* ===================================================================== *)
(** ** The rasterization engine (MuPDF), as the renderer uses it *)
(* ===================================================================== *)

Inductive Colorspace := device_rgb | device_gray | device_cmyk.

(** What the renderer reads back from an [fz_pixmap]. *)
Record Pixmap := mkPixmap {
  pixmap_width : Z;
  pixmap_height : Z;
  pixmap_stride : Z;
  pixmap_components : Z;
  pixmap_samples : list byte
}.

(** The engine calls of [renderer.cpp] and [document.cpp].
    - [fz_new_context]: whether the per-thread context could be created;
    - [fz_bound_page]: the bounds of a page;
    - [fz_draw]: lines 145-200 of [render_page] from the transform to the
      finished pixmap: page handle, scale factor, colorspace, alpha flag
      and the clear value of an opaque background; [inl msg] is an engine
      error caught by [fz_catch] with message [msg]. *)
Record Engine (F : Type) := mkEngine {
  fz_new_context : bool;
  fz_bound_page : Handle -> Rect F;
  fz_draw : Handle -> F -> Colorspace -> bool -> option Z -> string + Pixmap
}.
Arguments mkEngine {F}.
Arguments fz_new_context {F}.
Arguments fz_bound_page {F}.
Arguments fz_draw {F}.

(** [ProgressCallback]; [None] is an empty [std::function]. *)
Abbreviation ProgressCallback := (option (Z -> Z -> string -> bool)).

(* ===================================================================== *)
(** ** renderer.cpp: the Renderer *)
(* ===================================================================== *)

(** [Renderer::Impl]. *)
Record RendererImpl := mkRendererImpl {
  cache_enabled_ : bool;
  cache_size_mb_ : N;
  thread_count_ : Z;
  cache_ : gmap Handle ImageBuffer
}.

(** A renderer together with the trace of the pages it has handed to the
    engine for drawing ([fz_run_page]), oldest first. *)
Record Renderer := mkRenderer {
  impl_ : RendererImpl;
  fz_runs : list Handle
}.

(** [Renderer::Renderer()]. *)
Definition new_Renderer : Renderer :=
  mkRenderer (mkRendererImpl true 100 0 ∅) [].

Definition with_impl (r : Renderer) (i : RendererImpl) : Renderer :=
  mkRenderer i (fz_runs r).

(** Member functions that read or change the object they are called on:
    state passing over the object's state [S]. *)
Definition ST (S A : Type) : Type := S -> A * S.

Definition ret {S A} (a : A) : ST S A := fun s => (a, s).

Definition bind {S A B} (m : ST S A) (k : A -> ST S B) : ST S B :=
  fun s => let '(a, s') := m s in k a s'.

(** Member functions of [Renderer]. *)
Abbreviation M := (ST Renderer).

Notation "'let*' x ':=' m 'in' k" := (bind m (fun x => k))
  (at level 10, x name, m at level 100, k at level 200).

Definition log_run (h : Handle) : M unit :=
  fun r => (tt, mkRenderer (impl_ r) (fz_runs r ++ [h])).

Section Renderer.

Context {F : Type} `{FloatOps F}.

(** The build: [Some engine] when compiled with [USE_MUPDF], [None]
    otherwise. *)
Variable backend : option (Engine F).

(** [Page::width] and [Page::height]. *)
Definition Page_width (page : Page) : F :=
  match backend with
  | Some e =>
      match page_ page with
      | None => of_int 0
      | Some h => let bounds := fz_bound_page e h in fsub (x1 bounds) (x0 bounds)
      end
  | None => of_int 595
  end.

Definition Page_height (page : Page) : F :=
  match backend with
  | Some e =>
      match page_ page with
      | None => of_int 0
      | Some h => let bounds := fz_bound_page e h in fsub (y1 bounds) (y0 bounds)
      end
  | None => of_int 842
  end.

(** The pixmap of lines 155-183: colorspace and alpha from the options. *)
Definition colorspace_of (m : ColorMode) : Colorspace :=
  match m with
  | CM_RGB => device_rgb
  | CM_Grayscale => device_gray
  | CM_CMYK => device_cmyk
  | CM_Monochrome => device_rgb
  end.

(** Lines 202-222: the [ImageBuffer] copied out of the pixmap. *)
Definition buffer_of_pixmap (alpha : bool) (pix : Pixmap) : ImageBuffer :=
  let n := pixmap_components pix in
  let format :=
    if alpha then (if n =? 4 then RGBA32 else BGRA32)
    else (if n =? 3 then RGB24 else BGR24) in
  let data_size := Z.to_nat (Int32.mul (pixmap_stride pix) (pixmap_height pix)) in
  mkImageBuffer (resize data_size "000"%byte (pixmap_samples pix))
    (pixmap_width pix) (pixmap_height pix) (pixmap_stride pix) format.

(** [Renderer::render_page]. *)
Definition render_page (page : option Page) (options : RenderOptions F)
  : M RenderResult :=
  match page with
  | None => ret (render_error InvalidArgument "Invalid page")
  | Some pg =>
      match backend with
      | Some e =>
          if negb (fz_new_context e) then
            ret (render_error RenderError "Failed to get rendering context")
          else
            match page_ pg with
            | None => ret (render_error RenderError "Invalid page handle")
            | Some fz_pg =>
                let transform := fdiv (dpi options) (of_int 72) in
                let alpha := render_transparent options in
                let clear :=
                  if negb (render_transparent options)
                  then Some (to_int (fmul (cr (background_color options)) (of_int 255)))
                  else None in
                let* _ := log_run fz_pg in
                match fz_draw e fz_pg transform
                        (colorspace_of (color_mode options)) alpha clear with
                | inr pix => ret (result_ok (Some (buffer_of_pixmap alpha pix)))
                | inl msg => ret (render_error RenderError msg)
                end
            end
      | None =>
          ret (render_error NotImplemented
                 "Rendering not implemented for this backend")
      end
  end.

(** [std::memcpy(dst, src, n)] on the caller's memory, seen as the list of
    the bytes from [dst] on. *)
Definition memcpy (dst src : list byte) (n : nat) : list byte :=
  take n src ++ drop n dst.

(** [Renderer::render_page_to_buffer]: the returned pair is the return
    value and the caller's buffer afterwards.  An ok result of
    [render_page] always owns a buffer ([render_page_ok_owns]); the null
    case is there to make the function total. *)
Definition render_page_to_buffer (page : option Page) (buffer : list byte)
    (buffer_size : nat) (options : RenderOptions F) : M (bool * list byte) :=
  let* result := render_page page options in
  if negb (is_ok result) then ret (false, buffer)
  else
    match value_ result with
    | None => ret (false, buffer)
    | Some img =>
        let img_size := ImageBuffer_size img in
        if (buffer_size <? img_size)%nat then ret (false, buffer)
        else ret (true, memcpy buffer (ib_data img) img_size)
    end.

(** [Renderer::render_page_scaled]. *)
Definition render_page_scaled (page : option Page) (scale_x scale_y : F)
    (options : RenderOptions F) : M RenderResult :=
  let scaled_options :=
    set_dpi options (fmul (dpi options) (fdiv (fadd scale_x scale_y) (of_int 2))) in
  render_page page scaled_options.

(** [Renderer::render_page_to_size]. *)
Definition render_page_to_size (page : option Page) (width height : Z)
    (options : RenderOptions F) : M RenderResult :=
  match page with
  | None => ret (render_error InvalidArgument "Invalid page")
  | Some pg =>
      let page_width := Page_width pg in
      let page_height := Page_height pg in
      let scale_x := fdiv (of_int width) page_width in
      let scale_y := fdiv (of_int height) page_height in
      let scale := fmin scale_x scale_y in
      let sized_options := set_dpi options (fmul (of_int 72) scale) in
      render_page page sized_options
  end.

(** The loop of [Renderer::render_pages] from position [i] on; [total] is
    [page_indices.size()] and [results] the vector built so far. *)
Fixpoint render_pages_from (doc : Document) (page_indices : list Z)
    (total i : Z) (options : RenderOptions F) (callback : ProgressCallback)
    (results : list RenderResult) : M (list RenderResult) :=
  match page_indices with
  | [] => ret results
  | idx :: rest =>
      let should_continue :=
        match callback with
        | Some cb =>
            cb (Int32.wrap i) (Int32.wrap total)
               ("Rendering page " ++ pretty idx)%string
        | None => true
        end in
      if negb should_continue then ret results
      else
        let* r :=
          match get_page doc idx with
          | Some page => render_page (Some page) options
          | None => ret (render_error InvalidArgument "Invalid page index")
          end in
        render_pages_from doc rest total (i + 1) options callback (results ++ [r])
  end.

(** [Renderer::render_pages]; the document pointer is dereferenced without
    a check, so it is not null here. *)
Definition render_pages (doc : Document) (page_indices : list Z)
    (options : RenderOptions F) (callback : ProgressCallback)
  : M (list RenderResult) :=
  render_pages_from doc page_indices (Z.of_nat (length page_indices)) 0
    options callback [].

(** [Renderer::render_all_pages]. *)
Definition render_all_pages (doc : option Document) (options : RenderOptions F)
    (callback : ProgressCallback) : M (list RenderResult) :=
  match doc with
  | None => ret []
  | Some d => render_pages d (seqZ 0 (page_count d)) options callback
  end.

(** [Renderer::render_thumbnail]. *)
Definition render_thumbnail (page : option Page) (max_width max_height : Z)
    (maintain_aspect : bool) : M RenderResult :=
  match page with
  | None => ret (render_error InvalidArgument "Invalid page")
  | Some pg =>
      let page_width := Page_width pg in
      let page_height := Page_height pg in
      let scale_x := fdiv (of_int max_width) page_width in
      let scale_y := fdiv (of_int max_height) page_height in
      let scale := if maintain_aspect then fmin scale_x scale_y else scale_x in
      let options := set_anti_aliasing
                       (set_dpi default_options (fmul (of_int 72) scale)) AA_All in
      render_page page options
  end.

(** The loop of [Renderer::render_all_thumbnails] over the page numbers
    [nums] still to visit. *)
Fixpoint render_all_thumbnails_from (doc : Document) (nums : list Z)
    (max_width max_height : Z) (callback : ProgressCallback)
    (results : list RenderResult) : M (list RenderResult) :=
  match nums with
  | [] => ret results
  | i :: rest =>
      let should_continue :=
        match callback with
        | Some cb =>
            cb i (page_count doc)
               ("Generating thumbnail " ++ pretty (Int32.add i 1))%string
        | None => true
        end in
      if negb should_continue then ret results
      else
        match get_page doc i with
        | Some page =>
            let* r := render_thumbnail (Some page) max_width max_height true in
            render_all_thumbnails_from doc rest max_width max_height callback
              (results ++ [r])
        | None =>
            render_all_thumbnails_from doc rest max_width max_height callback
              results
        end
  end.

(** [Renderer::render_all_thumbnails]. *)
Definition render_all_thumbnails (doc : option Document)
    (max_width max_height : Z) (callback : ProgressCallback)
  : M (list RenderResult) :=
  match doc with
  | None => ret []
  | Some d =>
      render_all_thumbnails_from d (seqZ 0 (page_count d))
        max_width max_height callback []
  end.

(** [Renderer::TileInfo]. *)
Record TileInfo := mkTileInfo {
  tile_x : Z;
  tile_y : Z;
  tile_width : Z;
  tile_height : Z;
  page_rect : Rect F
}.

(** The body of the two nested loops of [calculate_tiles]. *)
Definition make_tile (page_width page_height : F) (tile_width tile_height : Z)
    (row col : Z) : TileInfo :=
  mkTileInfo col row tile_width tile_height
    (mkRect
       (of_int (Int32.mul col tile_width))
       (of_int (Int32.mul row tile_height))
       (of_int (Z.min (Int32.mul (Int32.add col 1) tile_width)
                      (to_int page_width)))
       (of_int (Z.min (Int32.mul (Int32.add row 1) tile_height)
                      (to_int page_height)))).

(** [Renderer::calculate_tiles]; the options are not used. *)
Definition calculate_tiles (page : option Page) (tile_width tile_height : Z)
    (options : RenderOptions F) : list TileInfo :=
  match page with
  | None => []
  | Some pg =>
      let page_width := Page_width pg in
      let page_height := Page_height pg in
      let cols := to_int (fceil (fdiv page_width (of_int tile_width))) in
      let rows := to_int (fceil (fdiv page_height (of_int tile_height))) in
      row ← seqZ 0 rows;
      col ← seqZ 0 cols;
      [make_tile page_width page_height tile_width tile_height row col]
  end.

(** [Renderer::render_tile]. *)
Definition render_tile (page : option Page) (tile : TileInfo)
    (options : RenderOptions F) : M RenderResult :=
  render_page page (set_clip options (page_rect tile)).

(** Cache controls. *)
Definition set_impl (f : RendererImpl -> RendererImpl) : M unit :=
  fun r => (tt, with_impl r (f (impl_ r))).

Definition set_cache_enabled (enabled : bool) : M unit :=
  set_impl (fun i => mkRendererImpl enabled (cache_size_mb_ i)
                       (thread_count_ i) (cache_ i)).

Definition is_cache_enabled : M bool :=
  fun r => (cache_enabled_ (impl_ r), r).

Definition set_cache_size (size_mb : N) : M unit :=
  set_impl (fun i => mkRendererImpl (cache_enabled_ i) size_mb
                       (thread_count_ i) (cache_ i)).

Definition get_cache_size : M N :=
  fun r => (cache_size_mb_ (impl_ r), r).

Definition clear_cache : M unit :=
  set_impl (fun i => mkRendererImpl (cache_enabled_ i) (cache_size_mb_ i)
                       (thread_count_ i) ∅).

(** [Renderer::invalidate_page]; the page pointer is dereferenced without a
    check.  Erasing the null key of a page without handle changes
    nothing, as no entry is ever stored under it. *)
Definition invalidate_page (page : Page) : M unit :=
  set_impl (fun i => mkRendererImpl (cache_enabled_ i) (cache_size_mb_ i)
                       (thread_count_ i)
                       (match page_ page with
                        | Some h => delete h (cache_ i)
                        | None => cache_ i
                        end)).

(** [Renderer::calculate_dimensions]: the pair is [(width, height)]. *)
Definition calculate_dimensions (page : option Page) (dpi : F) : Z * Z :=
  match page with
  | None => (0, 0)
  | Some pg =>
      let scale := fdiv dpi (of_int 72) in
      (to_int (fmul (Page_width pg) scale), to_int (fmul (Page_height pg) scale))
  end.

(** [Renderer::calculate_scale_to_fit]. *)
Definition calculate_scale_to_fit (page : option Page) (max_width max_height : Z)
  : F :=
  match page with
  | None => of_int 1
  | Some pg =>
      let scale_x := fdiv (of_int max_width) (Page_width pg) in
      let scale_y := fdiv (of_int max_height) (Page_height pg) in
      fmin scale_x scale_y
  end.

End Renderer.

Section Transforms.

Context {F : Type} `{FloatOps F}.

(** [Renderer::page_to_pixel]. *)
Definition page_to_pixel (page_point : Point F) (dpi page_height : F) : Point F :=
  let scale := fdiv dpi (of_int 72) in
  mkPoint (fmul (px page_point) scale)
          (fmul (fsub page_height (py page_point)) scale).

(** [Renderer::pixel_to_page]. *)
Definition pixel_to_page (pixel_point : Point F) (dpi page_height : F) : Point F :=
  let scale := fdiv (of_int 72) dpi in
  mkPoint (fmul (px pixel_point) scale)
          (fsub page_height (fmul (py pixel_point) scale)).

End Transforms.

(* ===================================================================== *)
(** ** renderer.cpp: RenderJob *)
(* ===================================================================== *)

Inductive Status := Pending | Running | Completed | Failed | Cancelled.

#[export] Instance Status_eq_dec : EqDecision Status.
Proof. solve_decision. Defined.

(** [RenderJob::Impl] without the mutex and the condition variable. *)
Record RenderJob := mkRenderJob {
  status : Status;
  progress : Q;
  result : ImagePtr
}.

(** [RenderJob::RenderJob()]. *)
Definition new_RenderJob : RenderJob := mkRenderJob Pending 0 None.

(** The predicate both waits of [RenderJob::wait] sleep on. *)
Definition is_terminal (s : Status) : bool :=
  match s with
  | Completed | Failed | Cancelled => true
  | Pending | Running => false
  end.

Definition get_status (job : RenderJob) : Status := status job.

(** [RenderJob::wait], as the calling thread sees it while no other thread
    changes the job: the predicate is tested before sleeping, so a
    terminal job returns [true] at once; a job that is not terminal makes
    a timed wait return [false] and an untimed wait ([timeout_ms < 0])
    never return, which is [None]. *)
Definition wait (timeout_ms : Z) (job : RenderJob) : option bool :=
  if is_terminal (status job) then Some true
  else if timeout_ms <? 0 then None
  else Some false.

(** [RenderJob::cancel]. *)
Definition cancel (job : RenderJob) : RenderJob :=
  match status job with
  | Pending | Running => mkRenderJob Cancelled (progress job) (result job)
  | _ => job
  end.

(** [RenderJob::get_result]: the result handed out and the job afterwards;
    [std::move(impl_->result)] leaves the job's pointer null. *)
Definition get_result (job : RenderJob) : option (RenderResult * RenderJob) :=
  match wait (-1) job with
  | None => None
  | Some _ =>
      match status job with
      | Completed =>
          Some (result_ok (result job),
                mkRenderJob (status job) (progress job) None)
      | _ =>
          Some (render_error RenderError
                  "Render job did not complete successfully", job)
      end
  end.

(* ===================================================================== *)
(** ** renderer.cpp: AsyncRenderer *)
(* ===================================================================== *)

(** [AsyncRenderer::Impl] is empty.  The jobs are shared heap objects
    ([std::shared_ptr<RenderJob>]); the state of the program around an
    [AsyncRenderer] is the store of the jobs allocated so far, a job's
    address being its position. *)
Abbreviation JobStore := (list RenderJob).
Abbreviation JobPtr := nat.

Section AsyncRenderer.

Context {F : Type}.

(** [AsyncRenderer::queue_render]. *)
Definition queue_render (page : Page) (options : RenderOptions F)
  : ST JobStore JobPtr :=
  fun store => (length store, store ++ [new_RenderJob]).

(** [AsyncRenderer::queue_batch]. *)
Fixpoint queue_batch_from (doc : Document) (page_indices : list Z)
    (options : RenderOptions F) (jobs : list JobPtr)
  : ST JobStore (list JobPtr) :=
  match page_indices with
  | [] => ret jobs
  | idx :: rest =>
      match get_page doc idx with
      | Some page =>
          let* job := queue_render page options in
          queue_batch_from doc rest options (jobs ++ [job])
      | None => queue_batch_from doc rest options jobs
      end
  end.

Definition queue_batch (doc : Document) (page_indices : list Z)
    (options : RenderOptions F) : ST JobStore (list JobPtr) :=
  queue_batch_from doc page_indices options [].

(** [AsyncRenderer::pending_count]. *)
Definition pending_count : ST JobStore Z := ret 0.

(** [AsyncRenderer::cancel_all]. *)
Definition cancel_all : ST JobStore unit := ret tt.

(** [AsyncRenderer::wait_all]. *)
Definition wait_all : ST JobStore unit := ret tt.

End AsyncRenderer.

(* ===================================================================== *)
(** ** Notions the statements are written with *)
(* ===================================================================== *)

(** What a call returns, apart from its effect on the renderer. *)
Definition outcome {S A} (m : ST S A) (s : S) : A := fst (m s).

(** The state a call leaves behind. *)
Definition after {S A} (m : ST S A) (s : S) : S := snd (m s).

(** [round] of the C library on an exact value: to the nearest integer,
    halves away from zero. *)
Definition round_half_away (q : Q) : Z :=
  if Qle_bool 0 q then Qfloor (q + (1 # 2)) else Qceiling (q - (1 # 2)).

(** A point lies in a rectangle taken half-open: [x0 <= x < x1] and
    [y0 <= y < y1]. *)
Definition in_rect {F} `{FloatOps F} (r : Rect F) (x y : F) : bool :=
  negb (fltb x (x0 r)) && fltb x (x1 r) &&
  negb (fltb y (y0 r)) && fltb y (y1 r).

(** A rectangle without interior: no width or no height. *)
Definition zero_sized {F} `{FloatOps F} (r : Rect F) : bool :=
  negb (fltb (x0 r) (x1 r)) || negb (fltb (y0 r) (y1 r)).

(** The tiles of a list that contain a point. *)
Definition tiles_at {F} `{FloatOps F} (tiles : list (@TileInfo F)) (x y : F)
  : list (@TileInfo F) :=
  filter (fun t => in_rect (page_rect t) x y = true) tiles.

(** The indices a batch loop visits: up to the first position at which
    the progress callback asks to stop. *)
Fixpoint visited (keep_going : Z -> Z -> bool) (i : Z) (l : list Z) : list Z :=
  match l with
  | [] => []
  | a :: l' => if keep_going i a then a :: visited keep_going (i + 1) l' else []
  end.

(** The callback's answer at position [i], index [idx], of
    [render_pages] over [total] indices. *)
Definition render_pages_continue (callback : ProgressCallback) (total : Z)
    (i idx : Z) : bool :=
  match callback with
  | Some cb =>
      cb (Int32.wrap i) (Int32.wrap total) ("Rendering page " ++ pretty idx)%string
  | None => true
  end.

(** The same for [render_all_thumbnails] over a document of [count]
    pages. *)
Definition thumbnails_continue (callback : ProgressCallback) (count : Z)
    (_ i : Z) : bool :=
  match callback with
  | Some cb =>
      cb i count ("Generating thumbnail " ++ pretty (Int32.add i 1))%string
  | None => true
  end.

(** The options differ in the resolution at most. *)
Definition same_but_dpi {F} (o o' : RenderOptions F) : Prop :=
  o' = set_dpi o (dpi o').

(** The wrappers as the specification words them: a render at the
    effective resolution [72 * scale]. *)
Definition spec_render_page_scaled {F} `{FloatOps F}
    (backend : option (Engine F)) (page : option Page) (scale : F)
    (options : RenderOptions F) : M RenderResult :=
  render_page backend page (set_dpi options (fmul (of_int 72) scale)).

Definition spec_render_page_to_size {F} `{FloatOps F}
    (backend : option (Engine F)) (page : Page) (width height : Z)
    (options : RenderOptions F) : M RenderResult :=
  let scale := fmin (fdiv (of_int width) (Page_width backend page))
                    (fdiv (of_int height) (Page_height backend page)) in
  render_page backend (Some page) (set_dpi options (fmul (of_int 72) scale)).

(** Distance of two finite binary32 numbers at most [tol]. *)
Definition b32_close (tol : Q) (a b : B32.t) : bool :=
  B32.is_finite a && B32.is_finite b &&
  Qle_bool (Qabs (B32.to_Q a - B32.to_Q b)) tol.

(** The binary32 round trip through both transforms returns a whole
    x, respectively y, coordinate within 0.001. *)
Definition close_x (d h : Z) (x : Z) : bool :=
  b32_close (1 # 1000)
    (px (pixel_to_page
           (page_to_pixel (mkPoint (B32.of_Z x) (B32.of_Z 0))
              (B32.of_Z d) (B32.of_Z h))
           (B32.of_Z d) (B32.of_Z h)))
    (B32.of_Z x).

Definition close_y (d h : Z) (y : Z) : bool :=
  b32_close (1 # 1000)
    (py (pixel_to_page
           (page_to_pixel (mkPoint (B32.of_Z 0) (B32.of_Z y))
              (B32.of_Z d) (B32.of_Z h))
           (B32.of_Z d) (B32.of_Z h)))
    (B32.of_Z y).

(** The public operations of a [Renderer], for statements about every
    sequence of calls. *)
Inductive RendererCall (F : Type) :=
  | CallRenderPage (page : option Page) (options : RenderOptions F)
  | CallRenderPageToBuffer (page : option Page) (buffer : list byte)
      (buffer_size : nat) (options : RenderOptions F)
  | CallRenderPageScaled (page : option Page) (scale_x scale_y : F)
      (options : RenderOptions F)
  | CallRenderPageToSize (page : option Page) (width height : Z)
      (options : RenderOptions F)
  | CallRenderPages (doc : Document) (page_indices : list Z)
      (options : RenderOptions F) (callback : ProgressCallback)
  | CallRenderAllPages (doc : option Document) (options : RenderOptions F)
      (callback : ProgressCallback)
  | CallRenderThumbnail (page : option Page) (max_width max_height : Z)
      (maintain_aspect : bool)
  | CallRenderAllThumbnails (doc : option Document) (max_width max_height : Z)
      (callback : ProgressCallback)
  | CallSetCacheEnabled (enabled : bool)
  | CallSetCacheSize (size_mb : N)
  | CallClearCache
  | CallInvalidatePage (page : Page).
Arguments CallRenderPage {F}.
Arguments CallRenderPageToBuffer {F}.
Arguments CallRenderPageScaled {F}.
Arguments CallRenderPageToSize {F}.
Arguments CallRenderPages {F}.
Arguments CallRenderAllPages {F}.
Arguments CallRenderThumbnail {F}.
Arguments CallRenderAllThumbnails {F}.
Arguments CallSetCacheEnabled {F}.
Arguments CallSetCacheSize {F}.
Arguments CallClearCache {F}.
Arguments CallInvalidatePage {F}.

Definition run_call {F} `{FloatOps F} (backend : option (Engine F))
    (c : RendererCall F) (r : Renderer) : Renderer :=
  match c with
  | CallRenderPage p o => after (render_page backend p o) r
  | CallRenderPageToBuffer p b n o => after (render_page_to_buffer backend p b n o) r
  | CallRenderPageScaled p sx sy o => after (render_page_scaled backend p sx sy o) r
  | CallRenderPageToSize p w h o => after (render_page_to_size backend p w h o) r
  | CallRenderPages d l o cb => after (render_pages backend d l o cb) r
  | CallRenderAllPages d o cb => after (render_all_pages backend d o cb) r
  | CallRenderThumbnail p w h a => after (render_thumbnail backend p w h a) r
  | CallRenderAllThumbnails d w h cb => after (render_all_thumbnails backend d w h cb) r
  | CallSetCacheEnabled b => after (set_cache_enabled b) r
  | CallSetCacheSize n => after (set_cache_size n) r
  | CallClearCache => after clear_cache r
  | CallInvalidatePage p => after (invalidate_page p) r
  end.

Definition run_calls {F} `{FloatOps F} (backend : option (Engine F))
    (cs : list (RendererCall F)) (r : Renderer) : Renderer :=
  foldl (fun r c => run_call backend c r) r cs.

(** The engine handles one call of [render_page] sends to the draw
    device: the page's, when there is an engine, a context and a
    handle. *)
Definition drawn {F} (backend : option (Engine F)) (page : option Page)
  : list Handle :=
  match page, backend with
  | Some pg, Some e =>
      if fz_new_context e then
        match page_ pg with Some h => [h] | None => [] end
      else []
  | _, _ => []
  end.

(** The slot of one requested index in the result of [render_pages]. *)
Definition page_slot {F} `{FloatOps F} (backend : option (Engine F))
    (doc : Document) (options : RenderOptions F) (idx : Z) : RenderResult :=
  match get_page doc idx with
  | Some page => outcome (render_page backend (Some page) options) new_Renderer
  | None => render_error InvalidArgument "Invalid page index"
  end.

(** The slot of page number [i] in the result of
    [render_all_thumbnails]. *)
Definition thumbnail_slot {F} `{FloatOps F} (backend : option (Engine F))
    (doc : Document) (max_width max_height : Z) (i : Z) : RenderResult :=
  outcome (render_thumbnail backend (get_page doc i) max_width max_height true)
    new_Renderer.

(** The quotient of two integers rounded up. *)
Definition ceil_div (a b : Z) : Z := - ((- a) / b).

(** The tile at ([row], [col]) of a [W] x [Hh] point page cut into tiles of
    [tw] x [th], in exact arithmetic without integer overflow. *)
Definition whole_tile (W Hh tw th : Z) (row col : Z) : @TileInfo Q :=
  mkTileInfo col row tw th
    (mkRect (inject_Z (col * tw)) (inject_Z (row * th))
            (inject_Z (Z.min ((col + 1) * tw) W))
            (inject_Z (Z.min ((row + 1) * th) Hh))).

(** *** Binary32 rounding, for the error analysis

    [SpecFloat] rounds a mantissa [m] at exponent [e] in two steps: a
    shift to the exponent [exp1 m e] that leaves at most 24 digits (never
    below the subnormal exponent -149), which turns [m] into [man1 m e],
    and the choice between [man1 m e] and its successor.  The rounded
    value is therefore at most one unit in the last place away, which
    [eps] bounds by a relative and an absolute part. *)

(** The exponent binary32 gives a number of magnitude [2^e]. *)
Definition fexp32 (e : Z) : Z := Z.max (e - 24) (-149).

(** The exponent and the mantissa after the first shift. *)
Definition exp1 (m e : Z) : Z := Z.max e (fexp32 (Zdigits2 m + e)).
Definition man1 (m e : Z) : Z := m / 2 ^ (exp1 m e - e).

(** [2^e] and [m * 2^e] as rationals; the sign as a factor. *)
Definition bpow (e : Z) : Q := (2 ^ e)%Q.
Definition F2Q (m e : Z) : Q := (inject_Z m * bpow e)%Q.
Definition sgnQ (s : bool) : Q := if s then (-1)%Q else 1%Q.

(** The exponent field of a float (the least one for zero). *)
Definition expo (x : B32.t) : Z :=
  match x with
  | S754_finite _ _ e => e
  | _ => -149
  end.

(** The error one rounding can add to a result of magnitude [v]: one
    unit in the last place, [2^-23 v] for normal numbers and [2^-149]
    for subnormal ones. *)
Definition eps (v : Q) : Q := (bpow (-23) * v + bpow (-149))%Q.

#[export] Instance eps_wd : Proper (Qeq ==> Qeq) eps.
Proof. intros a b Hab. unfold eps. now rewrite Hab. Qed.

(** A valid (canonical, finite) binary32 number between [lo] and [hi]. *)
Definition b32_between (lo hi : Q) (x : B32.t) : bool :=
  valid_binary B32.prec B32.emax x && B32.is_finite x &&
  Qle_bool lo (B32.to_Q x) && Qle_bool (B32.to_Q x) hi.

(** Linear arithmetic with the absolute values as unknowns. *)
Ltac abs_atoms :=
  repeat match goal with
         | |- context [Qabs ?x] =>
             let q := fresh "q" in set (q := Qabs x) in *; clearbody q
         | H : context [Qabs ?x] |- _ =>
             let q := fresh "q" in set (q := Qabs x) in *; clearbody q
         end.
Ltac abs_lra := abs_atoms; lra.

(* ===================================================================== *)
(** ** A stand-in engine and sample inputs *)
(* ===================================================================== *)

Definition colorspace_components (cs : Colorspace) : Z :=
  match cs with
  | device_rgb => 3
  | device_gray => 1
  | device_cmyk => 4
  end.

(** An engine that always has a context and paints every page as a solid
    rectangle of its scaled, truncated size; [bounds] gives the page
    boxes. *)
Definition solid_engine {F} `{FloatOps F} (bounds : Handle -> Rect F) : Engine F :=
  mkEngine true bounds
    (fun h scale cs alpha clear =>
       let b := bounds h in
       let w := to_int (fmul (fsub (x1 b) (x0 b)) scale) in
       let ht := to_int (fmul (fsub (y1 b) (y0 b)) scale) in
       let n := colorspace_components cs + (if alpha then 1 else 0) in
       inr (mkPixmap w ht (w * n) n
              (replicate (Z.to_nat (w * n * ht)) "255"%byte))).

(** Every page is a square of [side] x [side] points. *)
Definition square_engine {F} `{FloatOps F} (side : Z) : Engine F :=
  solid_engine
    (fun _ => mkRect (of_int 0) (of_int 0) (of_int side) (of_int side)).

(** Every page is 2 x 2 points. *)
Definition tiny_engine {F} `{FloatOps F} : Engine F := square_engine 2.

(** Every page is 512.5 x 842 points. *)
Definition fractional_engine : Engine B32.t :=
  solid_engine (fun _ => mkRect (B32.of_Z 0) (B32.of_Z 0)
                           (B32.of_scaled 1025 (-1)) (B32.of_Z 842)).

(** Every page is [w] x [h] points, both whole numbers. *)
Definition whole_engine (w h : Z) : Engine Q :=
  solid_engine (fun _ => mkRect 0%Q 0%Q (inject_Z w) (inject_Z h)).

Definition page_A : Page := mkPage (Some 1%positive) 0.
Definition page_B : Page := mkPage (Some 2%positive) 1.

(** A page as [Document::get_page] creates it: no engine handle yet. *)
Definition blank_page (index : Z) : Page := mkPage None index.

(** A document of 50 such pages and the request for all of them. *)
Definition doc50 : Document := mkDocument (map blank_page (seqZ 0 50)).
Definition all50 : list Z := seqZ 0 50.

(** The fields of the options [render_page] reads. *)
Definition same_render_inputs {F} (o o' : RenderOptions F) : Prop :=
  dpi o = dpi o' /\ color_mode o = color_mode o' /\
  render_transparent o = render_transparent o' /\
  cr (background_color o) = cr (background_color o').

(** The formats [render_page] can label a buffer with. *)
Definition color_format (alpha : bool) (f : ImageFormat) : bool :=
  match f, alpha with
  | (RGBA32 | BGRA32), true => true
  | (RGB24 | BGR24), false => true
  | _, _ => false
  end.

(** [RenderJob::get_progress]. *)
Definition get_progress (job : RenderJob) : Q := progress job.

(** The operations of an [AsyncRenderer], for statements about every
    sequence of calls. *)
Inductive AsyncCall (F : Type) :=
  | CallQueueRender (page : Page) (options : RenderOptions F)
  | CallQueueBatch (doc : Document) (page_indices : list Z)
      (options : RenderOptions F)
  | CallPendingCount
  | CallCancelAll
  | CallWaitAll.
Arguments CallQueueRender {F}.
Arguments CallQueueBatch {F}.
Arguments CallPendingCount {F}.
Arguments CallCancelAll {F}.
Arguments CallWaitAll {F}.

Definition run_async_call {F} (c : AsyncCall F) (store : JobStore) : JobStore :=
  match c with
  | CallQueueRender p o => after (queue_render p o) store
  | CallQueueBatch d l o => after (queue_batch d l o) store
  | CallPendingCount => after pending_count store
  | CallCancelAll => after cancel_all store
  | CallWaitAll => after wait_all store
  end.

Definition run_async_calls {F} (cs : list (AsyncCall F)) (store : JobStore)
  : JobStore :=
  foldl (fun s c => run_async_call c s) store cs.

(** The requested indices that name a page of the document. *)
Definition in_document (doc : Document) (page_indices : list Z) : list Z :=
  filter (fun idx => 0 <= idx < page_count doc) page_indices.

(** The number of jobs a sequence of calls queues. *)
Definition queued {F} (c : AsyncCall F) : nat :=
  match c with
  | CallQueueRender _ _ => 1
  | CallQueueBatch d l _ => length (in_document d l)
  | _ => 0
  end.

Section ThreadCount.

(** [std::thread::hardware_concurrency()], an [unsigned]; 0 when the
    system cannot tell. *)
Variable hardware_concurrency : Z.

(** [Renderer::set_thread_count]; the [unsigned] is converted to the
    [int] member. *)
Definition set_thread_count (count : Z) : M unit :=
  set_impl (fun i => mkRendererImpl (cache_enabled_ i) (cache_size_mb_ i)
                       (if count =? 0 then Int32.wrap hardware_concurrency
                        else count)
                       (cache_ i)).

(** [Renderer::get_thread_count]; the conditional expression has type
    [unsigned] and is converted to the [int] returned, which gives back
    an [int] operand as it is. *)
Definition get_thread_count : M Z :=
  fun r => (if thread_count_ (impl_ r) =? 0
            then Int32.wrap hardware_concurrency
            else thread_count_ (impl_ r), r).

End ThreadCount.

(** The cache size and the enabled flag last set in a sequence of
    calls. *)
Definition cache_size_setting {F} (calls : list (RendererCall F)) (initial : N)
  : N :=
  foldl (fun size c => match c with CallSetCacheSize n => n | _ => size end)
    initial calls.

Definition cache_enabled_setting {F} (calls : list (RendererCall F))
    (initial : bool) : bool :=
  foldl (fun flag c => match c with CallSetCacheEnabled b => b | _ => flag end)
    initial calls.

(* ===================================================================== *)
(** ** document.cpp: pages and documents, as the code builds them *)
(* ===================================================================== *)

(** [Page::Page()]: no engine page, index 0. *)
Definition new_Page : Page := mkPage None 0.

(** [Page::number], [Page::index] and [Page::get_handle]. *)
Definition Page_number (page : Page) : Z := Int32.add (page_index_ page) 1.
Definition Page_index (page : Page) : Z := page_index_ page.
Definition Page_get_handle (page : Page) : option Handle := page_ page.

(** [Page::get_mediabox] and [Page::get_cropbox]. *)
Definition Page_get_mediabox {F} `{FloatOps F} (backend : option (Engine F))
    (page : Page) : Rect F :=
  mkRect (of_int 0) (of_int 0) (Page_width backend page) (Page_height backend page).

Definition Page_get_cropbox {F} `{FloatOps F} (backend : option (Engine F))
    (page : Page) : Rect F :=
  Page_get_mediabox backend page.

(** A C++ exception leaving a function. *)
Inductive Thrown := Exception (code : ErrorCode) (message : string).

Module Doc.

(** An open engine document ([fz_document*]); a null pointer is [None]. *)
Abbreviation DocHandle := positive.

(** A [Page*] handed out by a document: the place of the page object in
    [Impl::pages_].  The objects are owned by the vector's [unique_ptr]s
    and stay where they are when the vector grows. *)
Abbreviation PagePtr := nat.

(** The engine calls of [Document::Impl].
    - [fz_new_context]: whether the document's context could be created;
    - [fz_open_document], [fz_open_document_with_stream]: the opened
      document, [None] when the engine throws (caught by [fz_catch]);
    - [fz_needs_password], [fz_authenticate_password], [fz_count_pages]:
      their return values. *)
Record Engine := mkEngine {
  fz_new_context : bool;
  fz_open_document : string -> option DocHandle;
  fz_open_document_with_stream : list byte -> option DocHandle;
  fz_needs_password : DocHandle -> bool;
  fz_authenticate_password : DocHandle -> string -> bool;
  fz_count_pages : DocHandle -> Z
}.

(** [Document::Impl]: the engine document and the page objects created so
    far, a null [unique_ptr] being [None]. *)
Record Impl := mkImpl {
  doc_ : option DocHandle;
  pages_ : list (option Page)
}.

Section Document.

(** The build: [Some engine] when compiled with [USE_MUPDF], [None]
    otherwise. *)
Variable backend : option Engine.

(** [Document::Impl::Impl()], which throws when the engine gives no
    context. *)
Definition new_Impl : Thrown + Impl :=
  match backend with
  | Some e =>
      if negb (fz_new_context e)
      then inl (Exception OutOfMemory "Failed to create MuPDF context")
      else inr (mkImpl None [])
  | None => inr (mkImpl None [])
  end.

(** The password check shared by [open_file] and [open_from_memory]:
    lines 41-47 and 66-72. *)
Definition authenticate (e : Engine) (h : DocHandle) (password : string)
    (d : Impl) : bool * Impl :=
  if negb (String.eqb password "") && fz_needs_password e h then
    if negb (fz_authenticate_password e h password)
    then (false, mkImpl None (pages_ d))
    else (true, mkImpl (Some h) (pages_ d))
  else (true, mkImpl (Some h) (pages_ d)).

(** [Document::Impl::open_file]. *)
Definition open_file (path password : string) : ST Impl bool :=
  fun d =>
    match backend with
    | Some e =>
        match fz_open_document e path with
        | Some h => authenticate e h password d
        | None => (false, d)
        end
    | None => (false, d)
    end.

(** [Document::Impl::open_from_memory]. *)
Definition open_from_memory_impl (data : list byte) (password : string)
  : ST Impl bool :=
  fun d =>
    match backend with
    | Some e =>
        match fz_open_document_with_stream e data with
        | Some h => authenticate e h password d
        | None => (false, d)
        end
    | None => (false, d)
    end.

(** [Document::open]: the exception of the constructor or the result. *)
Definition open (path password : string) : Thrown + Result (option Impl) :=
  match new_Impl with
  | inl ex => inl ex
  | inr d =>
      let '(ok, d') := open_file path password d in
      if negb ok
      then inr (result_err None InvalidPDF "Failed to open PDF document")
      else inr (result_ok (Some d'))
  end.

(** [Document::open_from_memory]. *)
Definition open_from_memory (data : list byte) (password : string)
  : Thrown + Result (option Impl) :=
  match new_Impl with
  | inl ex => inl ex
  | inr d =>
      let '(ok, d') := open_from_memory_impl data password d in
      if negb ok
      then inr (result_err None InvalidPDF "Failed to open PDF from memory")
      else inr (result_ok (Some d'))
  end.

(** [Document::create]. *)
Definition create : Thrown + Impl := new_Impl.

(** [Document::page_count]. *)
Definition page_count (d : Impl) : Z :=
  match backend with
  | Some e =>
      match doc_ d with
      | None => 0
      | Some h => fz_count_pages e h
      end
  | None => 0
  end.

(** [Document::get_page].  The vector never holds more than
    [page_count()] places, so its size fits the [int] it is cast to. *)
Definition get_page (index : Z) : ST Impl (option PagePtr) :=
  fun d =>
    if (index <? 0) || (index >=? page_count d) then (None, d)
    else
      let d1 :=
        if index >=? Z.of_nat (length (pages_ d))
        then mkImpl (doc_ d) (resize (Z.to_nat (page_count d)) None (pages_ d))
        else d in
      let i := Z.to_nat index in
      let d2 :=
        match pages_ d1 !! i with
        | Some (Some _) => d1
        | _ => mkImpl (doc_ d1) (<[i := Some new_Page]> (pages_ d1))
        end in
      (Some i, d2).

(** The loop of [Document::get_pages] over the page numbers [nums]. *)
Fixpoint get_pages_from (nums : list Z) (pages : list (option PagePtr))
  : ST Impl (list (option PagePtr)) :=
  match nums with
  | [] => ret pages
  | i :: rest =>
      let* p := get_page i in
      get_pages_from rest (pages ++ [p])
  end.

(** [Document::get_pages]. *)
Definition get_pages : ST Impl (list (option PagePtr)) :=
  fun d => get_pages_from (seqZ 0 (page_count d)) [] d.

End Document.

(** The page object behind a pointer. *)
Definition page_at (d : Impl) (p : PagePtr) : option Page :=
  mjoin (pages_ d !! p).

(** Every page object of the document is as [Page::Page()] made it. *)
Definition blank (d : Impl) : Prop :=
  Forall (fun slot => slot = None \/ slot = Some new_Page) (pages_ d).

(** The document after asking for the pages [indices], one after the
    other. *)
Definition after_get_pages (backend : option Engine) (indices : list Z)
    (d : Impl) : Impl :=
  foldl (fun d index => after (get_page backend index) d) d indices.

End Doc.

(** The document as the renderer's loops see it: [page_count()] pages,
    the objects [Document::get_page] hands out. *)
Definition document_of (backend : option Doc.Engine) (d : Doc.Impl) : Document :=
  mkDocument (replicate (Z.to_nat (Doc.page_count backend d)) new_Page).

(** What [render_page] answers for a page without engine handle. *)
Definition no_handle_error {F} (backend : option (Engine F)) : RenderResult :=
  match backend with
  | Some e =>
      if fz_new_context e
      then render_error RenderError "Invalid page handle"
      else render_error RenderError "Failed to get rendering context"
  | None =>
      render_error NotImplemented "Rendering not implemented for this backend"
  end.

(* ===================================================================== *)
(** ** pdfviewer.cpp: the page viewer, the caller of [render_page] *)
(* ===================================================================== *)

(** *** IEEE-754 binary64, the [double] of the zoom factor *)

Module B64.

Definition prec : Z := 53.
Definition emax : Z := 1024.

Definition t : Type := spec_float.

Definition of_Z (z : Z) : t := binary_normalize prec emax z 0 false.

(** The decimal literal [n / d] for whole numbers [n] and [d] below
    [2^53]: the nearest [double], which is what their quotient rounds
    to. *)
Definition literal (n d : Z) : t := SFdiv prec emax (of_Z n) (of_Z d).

Definition mul : t -> t -> t := SFmul prec emax.
Definition div : t -> t -> t := SFdiv prec emax.
Definition sub : t -> t -> t := SFsub prec emax.

(** [std::min(a, b)] is [(b < a) ? b : a]. *)
Definition min (a b : t) : t := if SFltb b a then b else a.

(** The conversion of a [float] to [double], which is exact. *)
Definition of_float (x : B32.t) : t :=
  match x with
  | S754_finite s m e => binary_normalize prec emax (cond_Zopp s (Zpos m)) e s
  | _ => x
  end.

(** The conversion of a [double] to [float]: to the nearest, ties to
    even. *)
Definition to_float (x : t) : B32.t :=
  match x with
  | S754_finite s m e =>
      binary_normalize B32.prec B32.emax (cond_Zopp s (Zpos m)) e s
  | _ => x
  end.

End B64.

#[export] Instance RenderQuality_eq_dec : EqDecision RenderQuality.
Proof. solve_decision. Defined.

Module Viewer.

Inductive ViewMode := SinglePage | Continuous | FacingPages.

#[export] Instance ViewMode_eq_dec : EqDecision ViewMode.
Proof. solve_decision. Defined.

(** A [QImage] of format [Format_RGB888] (a [QPixmap] is kept as the
    image it was made from): the bytes, the size in pixels and the bytes
    per line. *)
Record QImage := mkQImage {
  qi_bits : list byte;
  qi_width : Z;
  qi_height : Z;
  qi_bytesPerLine : Z
}.

(** [PageWidget], without its selection. *)
Record PageWidget := mkPageWidget {
  pageIndex_ : Z;
  image_ : option QImage;
  widget_zoom_ : B64.t;
  widget_rotation_ : Z
}.

(** The signals of [PDFViewer] that the modelled functions emit. *)
Inductive Signal :=
  | pageChanged (pageIndex : Z)
  | zoomChanged (zoom : B64.t)
  | rotationChanged (degrees : Z)
  | documentChanged.

(** [PDFViewer], without selection and search.  [document_] is the
    document the pointer refers to, in its current state; [viewport_] is
    the size Qt reports for the viewport; [emitted] lists the signals
    emitted so far. *)
Record PDFViewer := mkPDFViewer {
  document_ : option Doc.Impl;
  renderer_ : Renderer;
  renderQuality_ : RenderQuality;
  currentPage_ : Z;
  zoom_ : B64.t;
  rotation_ : Z;
  viewMode_ : ViewMode;
  pageWidgets_ : list PageWidget;
  pageCache_ : gmap Z QImage;
  maxCacheSize_ : Z;
  viewport_ : Z * Z;
  emitted : list Signal
}.

(** [PDFViewer::PDFViewer]. *)
Definition new_PDFViewer (viewport : Z * Z) : PDFViewer :=
  mkPDFViewer None new_Renderer Medium 0 (B64.of_Z 1) 0 SinglePage [] ∅ 10
    viewport [].

Definition with_document (v : PDFViewer) (d : option Doc.Impl) : PDFViewer :=
  mkPDFViewer d (renderer_ v) (renderQuality_ v) (currentPage_ v) (zoom_ v)
    (rotation_ v) (viewMode_ v) (pageWidgets_ v) (pageCache_ v)
    (maxCacheSize_ v) (viewport_ v) (emitted v).

Definition with_renderer (v : PDFViewer) (r : Renderer) : PDFViewer :=
  mkPDFViewer (document_ v) r (renderQuality_ v) (currentPage_ v) (zoom_ v)
    (rotation_ v) (viewMode_ v) (pageWidgets_ v) (pageCache_ v)
    (maxCacheSize_ v) (viewport_ v) (emitted v).

Definition with_renderQuality (v : PDFViewer) (q : RenderQuality) : PDFViewer :=
  mkPDFViewer (document_ v) (renderer_ v) q (currentPage_ v) (zoom_ v)
    (rotation_ v) (viewMode_ v) (pageWidgets_ v) (pageCache_ v)
    (maxCacheSize_ v) (viewport_ v) (emitted v).

Definition with_currentPage (v : PDFViewer) (i : Z) : PDFViewer :=
  mkPDFViewer (document_ v) (renderer_ v) (renderQuality_ v) i (zoom_ v)
    (rotation_ v) (viewMode_ v) (pageWidgets_ v) (pageCache_ v)
    (maxCacheSize_ v) (viewport_ v) (emitted v).

Definition with_zoom (v : PDFViewer) (z : B64.t) : PDFViewer :=
  mkPDFViewer (document_ v) (renderer_ v) (renderQuality_ v) (currentPage_ v) z
    (rotation_ v) (viewMode_ v) (pageWidgets_ v) (pageCache_ v)
    (maxCacheSize_ v) (viewport_ v) (emitted v).

Definition with_rotation (v : PDFViewer) (degrees : Z) : PDFViewer :=
  mkPDFViewer (document_ v) (renderer_ v) (renderQuality_ v) (currentPage_ v)
    (zoom_ v) degrees (viewMode_ v) (pageWidgets_ v) (pageCache_ v)
    (maxCacheSize_ v) (viewport_ v) (emitted v).

Definition with_viewMode (v : PDFViewer) (m : ViewMode) : PDFViewer :=
  mkPDFViewer (document_ v) (renderer_ v) (renderQuality_ v) (currentPage_ v)
    (zoom_ v) (rotation_ v) m (pageWidgets_ v) (pageCache_ v)
    (maxCacheSize_ v) (viewport_ v) (emitted v).

Definition with_pageWidgets (v : PDFViewer) (ws : list PageWidget) : PDFViewer :=
  mkPDFViewer (document_ v) (renderer_ v) (renderQuality_ v) (currentPage_ v)
    (zoom_ v) (rotation_ v) (viewMode_ v) ws (pageCache_ v)
    (maxCacheSize_ v) (viewport_ v) (emitted v).

Definition with_pageCache (v : PDFViewer) (c : gmap Z QImage) : PDFViewer :=
  mkPDFViewer (document_ v) (renderer_ v) (renderQuality_ v) (currentPage_ v)
    (zoom_ v) (rotation_ v) (viewMode_ v) (pageWidgets_ v) c
    (maxCacheSize_ v) (viewport_ v) (emitted v).

Definition with_viewport (v : PDFViewer) (size : Z * Z) : PDFViewer :=
  mkPDFViewer (document_ v) (renderer_ v) (renderQuality_ v) (currentPage_ v)
    (zoom_ v) (rotation_ v) (viewMode_ v) (pageWidgets_ v) (pageCache_ v)
    (maxCacheSize_ v) size (emitted v).

(** Member functions of [PDFViewer]. *)
Abbreviation V := (ST PDFViewer).

(** [emit signal]. *)
Definition emit (s : Signal) : V unit :=
  fun v =>
    (tt, mkPDFViewer (document_ v) (renderer_ v) (renderQuality_ v)
           (currentPage_ v) (zoom_ v) (rotation_ v) (viewMode_ v)
           (pageWidgets_ v) (pageCache_ v) (maxCacheSize_ v) (viewport_ v)
           (emitted v ++ [s])).

(** [PageWidget::setImage], [setZoom] and [setRotation]. *)
Definition setImage (image : QImage) (w : PageWidget) : PageWidget :=
  mkPageWidget (pageIndex_ w) (Some image) (widget_zoom_ w) (widget_rotation_ w).

Definition widget_setZoom (zoom : B64.t) (w : PageWidget) : PageWidget :=
  mkPageWidget (pageIndex_ w) (image_ w) zoom (widget_rotation_ w).

Definition widget_setRotation (degrees : Z) (w : PageWidget) : PageWidget :=
  mkPageWidget (pageIndex_ w) (image_ w) (widget_zoom_ w) degrees.

(** [new PageWidget(pageIndex)] followed by [setZoom] and [setRotation],
    as [updateLayout] creates a widget. *)
Definition new_PageWidget (pageIndex : Z) (zoom : B64.t) (degrees : Z)
  : PageWidget :=
  widget_setRotation degrees
    (widget_setZoom zoom (mkPageWidget pageIndex None (B64.of_Z 1) 0)).

(** [if (currentPage_ < pageWidgets_.size()) pageWidgets_[currentPage_]->
    setImage(image)], for a current page that is not negative. *)
Definition show (index : Z) (image : QImage) (v : PDFViewer) : PDFViewer :=
  if index <? Z.of_nat (length (pageWidgets_ v))
  then with_pageWidgets v
         (alter (setImage image) (Z.to_nat index) (pageWidgets_ v))
  else v.

(** [pageCache_.begin()]: a [QMap] is ordered by key, so its first entry
    is the one of the smallest page index. *)
Definition first_key (cache : gmap Z QImage) : option Z :=
  match (map_to_list cache).*1 with
  | [] => None
  | k :: ks => Some (foldr Z.min k ks)
  end.

(** The end of [renderCurrentPage]: make room in the cache and store the
    image. *)
Definition cache_page (index : Z) (image : QImage) (v : PDFViewer) : PDFViewer :=
  let cache := pageCache_ v in
  let cache1 :=
    if Z.of_nat (size cache) >=? maxCacheSize_ v
    then match first_key cache with
         | Some k => delete k cache
         | None => cache
         end
    else cache in
  with_pageCache v (<[index := image]> cache1).

Section Viewer.

(** The build of the renderer and of the document. *)
Variable backend : option (Engine B32.t).
Variable doc_backend : option Doc.Engine.

(** [document_->get_page(index)], the pointer followed to the page
    object; a null pointer is [None]. *)
Definition page_object (index : Z) : ST Doc.Impl (option Page) :=
  fun d =>
    let '(p, d') := Doc.get_page doc_backend index d in
    (p ≫= Doc.page_at d', d').

(** The options of [renderCurrentPage]. *)
Definition viewer_options (zoom : B64.t) : RenderOptions B32.t :=
  set_anti_aliasing
    (set_dpi default_options
       (B64.to_float (B64.mul (B64.of_float (of_int 72)) zoom)))
    AA_All.

(** [PDFViewer::renderCurrentPage]. *)
Definition renderCurrentPage : V unit :=
  fun v =>
    match document_ v with
    | None => (tt, v)
    | Some d =>
        let cur := currentPage_ v in
        if (cur <? 0) || (cur >=? Doc.page_count doc_backend d) then (tt, v)
        else
          match pageCache_ v !! cur with
          | Some pixmap => (tt, show cur pixmap v)
          | None =>
              let '(page, d') := page_object cur d in
              let v1 := with_document v (Some d') in
              match page with
              | None => (tt, v1)
              | Some pg =>
                  let '(result, r') :=
                    render_page backend (Some pg) (viewer_options (zoom_ v1))
                      (renderer_ v1) in
                  let v2 := with_renderer v1 r' in
                  if is_ok result then
                    match value_ result with
                    | Some buffer =>
                        let image :=
                          mkQImage (ib_data buffer) (ib_width buffer)
                            (ib_height buffer) (ib_stride buffer) in
                        (tt, cache_page cur image (show cur image v2))
                    | None => (tt, v2)
                    end
                  else (tt, v2)
              end
          end
    end.

(** [PDFViewer::updateLayout]. *)
Definition updateLayout : V unit :=
  fun v =>
    match document_ v with
    | None => (tt, v)
    | Some d =>
        match viewMode_ v with
        | SinglePage =>
            match pageWidgets_ v with
            | [] =>
                (tt, with_pageWidgets v
                       [new_PageWidget (currentPage_ v) (zoom_ v) (rotation_ v)])
            | _ => (tt, v)
            end
        | Continuous =>
            (tt, with_pageWidgets v
                   (pageWidgets_ v ++
                    map (fun i => new_PageWidget i (zoom_ v) (rotation_ v))
                      (seqZ 0 (Doc.page_count doc_backend d))))
        | FacingPages => (tt, v)
        end
    end.

(** [PDFViewer::setDocument]. *)
Definition setDocument (document : option Doc.Impl) : V unit :=
  fun v =>
    let v1 :=
      with_pageWidgets
        (with_pageCache (with_currentPage (with_document v document) 0) ∅) [] in
    match document with
    | None => (tt, v1)
    | Some _ =>
        (let* _ := updateLayout in
         let* _ := renderCurrentPage in
         emit documentChanged) v1
    end.

(** [PDFViewer::goToPage]. *)
Definition goToPage (pageIndex : Z) : V unit :=
  fun v =>
    match document_ v with
    | None => (tt, v)
    | Some d =>
        let pageIndex1 := if pageIndex <? 0 then 0 else pageIndex in
        let pageIndex2 :=
          if pageIndex1 >=? Doc.page_count doc_backend d
          then Int32.add (Doc.page_count doc_backend d) (-1)
          else pageIndex1 in
        if bool_decide (currentPage_ v <> pageIndex2) then
          (let* _ := renderCurrentPage in
           emit (pageChanged pageIndex2)) (with_currentPage v pageIndex2)
        else (tt, v)
    end.

(** [PDFViewer::nextPage], [previousPage], [firstPage] and [lastPage]. *)
Definition nextPage : V unit :=
  fun v => goToPage (Int32.add (currentPage_ v) 1) v.

Definition previousPage : V unit :=
  fun v => goToPage (Int32.add (currentPage_ v) (-1)) v.

Definition firstPage : V unit := goToPage 0.

Definition lastPage : V unit :=
  fun v =>
    match document_ v with
    | None => (tt, v)
    | Some d => goToPage (Int32.add (Doc.page_count doc_backend d) (-1)) v
    end.

(** [PDFViewer::pageCount]. *)
Definition pageCount (v : PDFViewer) : Z :=
  match document_ v with
  | None => 0
  | Some d => Doc.page_count doc_backend d
  end.

(** The first two lines of [PDFViewer::setZoom]:
    [if (zoom < 0.1) zoom = 0.1; if (zoom > 10.0) zoom = 10.0]. *)
Definition clamp_zoom (zoom : B64.t) : B64.t :=
  let zoom1 := if SFltb zoom (B64.literal 1 10) then B64.literal 1 10 else zoom in
  if SFltb (B64.of_Z 10) zoom1 then B64.of_Z 10 else zoom1.

(** [PDFViewer::setZoom]. *)
Definition setZoom (zoom : B64.t) : V unit :=
  fun v =>
    let zoom2 := clamp_zoom zoom in
    if SFltb (B64.literal 1 100) (SFabs (B64.sub (zoom_ v) zoom2)) then
      let v1 := with_zoom v zoom2 in
      let v2 := with_pageWidgets v1 (map (widget_setZoom zoom2) (pageWidgets_ v1)) in
      (let* _ := updateLayout in
       let* _ := renderCurrentPage in
       emit (zoomChanged zoom2)) v2
    else (tt, v).

(** [PDFViewer::calculateZoomToFit]; [QScrollArea::viewport] is never
    null. *)
Definition calculateZoomToFit : V B64.t :=
  fun v =>
    match document_ v with
    | None => (B64.of_Z 1, v)
    | Some d =>
        let '(page, d') := page_object (currentPage_ v) d in
        let v1 := with_document v (Some d') in
        match page with
        | None => (B64.of_Z 1, v1)
        | Some pg =>
            let pageWidth := Page_width backend pg in
            let pageHeight := Page_height backend pg in
            let zoomX := B64.of_float (fdiv (of_int (fst (viewport_ v1))) pageWidth) in
            let zoomY := B64.of_float (fdiv (of_int (snd (viewport_ v1))) pageHeight) in
            (B64.mul (B64.min zoomX zoomY) (B64.literal 95 100), v1)
        end
    end.

(** [PDFViewer::calculateZoomToFitWidth]. *)
Definition calculateZoomToFitWidth : V B64.t :=
  fun v =>
    match document_ v with
    | None => (B64.of_Z 1, v)
    | Some d =>
        let '(page, d') := page_object (currentPage_ v) d in
        let v1 := with_document v (Some d') in
        match page with
        | None => (B64.of_Z 1, v1)
        | Some pg =>
            let pageWidth := Page_width backend pg in
            (B64.mul (B64.of_float (fdiv (of_int (fst (viewport_ v1))) pageWidth))
               (B64.literal 95 100), v1)
        end
    end.

(** [PDFViewer::calculateZoomToFitHeight]. *)
Definition calculateZoomToFitHeight : V B64.t :=
  fun v =>
    match document_ v with
    | None => (B64.of_Z 1, v)
    | Some d =>
        let '(page, d') := page_object (currentPage_ v) d in
        let v1 := with_document v (Some d') in
        match page with
        | None => (B64.of_Z 1, v1)
        | Some pg =>
            let pageHeight := Page_height backend pg in
            (B64.mul (B64.of_float (fdiv (of_int (snd (viewport_ v1))) pageHeight))
               (B64.literal 95 100), v1)
        end
    end.

(** [PDFViewer::zoomIn], [zoomOut], [zoomFit], [zoomFitWidth],
    [zoomFitHeight] and [zoomActual]. *)
Definition zoomIn : V unit :=
  fun v => setZoom (B64.mul (zoom_ v) (B64.literal 125 100)) v.

Definition zoomOut : V unit :=
  fun v => setZoom (B64.div (zoom_ v) (B64.literal 125 100)) v.

Definition zoomFit : V unit :=
  let* zoom := calculateZoomToFit in setZoom zoom.

Definition zoomFitWidth : V unit :=
  let* zoom := calculateZoomToFitWidth in setZoom zoom.

Definition zoomFitHeight : V unit :=
  let* zoom := calculateZoomToFitHeight in setZoom zoom.

Definition zoomActual : V unit := setZoom (B64.of_Z 1).

(** [PDFViewer::setRotation]; [%] truncates toward zero. *)
Definition setRotation (degrees : Z) : V unit :=
  fun v =>
    let degrees1 := Z.rem degrees 360 in
    let degrees2 := if degrees1 <? 0 then degrees1 + 360 else degrees1 in
    if bool_decide (rotation_ v <> degrees2) then
      let v1 := with_rotation v degrees2 in
      let v2 :=
        with_pageWidgets v1
          (map (widget_setRotation degrees2) (pageWidgets_ v1)) in
      (let* _ := renderCurrentPage in
       emit (rotationChanged degrees2)) v2
    else (tt, v).

(** [PDFViewer::rotateClockwise] and [rotateCounterclockwise]. *)
Definition rotateClockwise : V unit :=
  fun v => setRotation (Z.rem (Int32.add (rotation_ v) 90) 360) v.

Definition rotateCounterclockwise : V unit :=
  fun v => setRotation (Z.rem (Int32.add (rotation_ v) 270) 360) v.

(** [PDFViewer::setViewMode]. *)
Definition setViewMode (mode : ViewMode) : V unit :=
  fun v =>
    if bool_decide (viewMode_ v <> mode) then
      (let* _ := updateLayout in renderCurrentPage) (with_viewMode v mode)
    else (tt, v).

(** [PDFViewer::setRenderQuality]. *)
Definition setRenderQuality (quality : RenderQuality) : V unit :=
  fun v =>
    if bool_decide (renderQuality_ v <> quality) then
      renderCurrentPage (with_pageCache (with_renderQuality v quality) ∅)
    else (tt, v).

(** The calls a user of the viewer can make, for statements about every
    sequence of them; [CallResize] is Qt giving the viewport a new
    size. *)
Inductive ViewerCall :=
  | CallSetDocument (document : option Doc.Impl)
  | CallGoToPage (pageIndex : Z)
  | CallNextPage
  | CallPreviousPage
  | CallFirstPage
  | CallLastPage
  | CallZoomIn
  | CallZoomOut
  | CallZoomFit
  | CallZoomFitWidth
  | CallZoomFitHeight
  | CallZoomActual
  | CallSetZoom (zoom : B64.t)
  | CallRotateClockwise
  | CallRotateCounterclockwise
  | CallSetRotation (degrees : Z)
  | CallSetViewMode (mode : ViewMode)
  | CallSetRenderQuality (quality : RenderQuality)
  | CallResize (width height : Z).

Definition run_viewer_call (v : PDFViewer) (c : ViewerCall) : PDFViewer :=
  match c with
  | CallSetDocument d => after (setDocument d) v
  | CallGoToPage i => after (goToPage i) v
  | CallNextPage => after nextPage v
  | CallPreviousPage => after previousPage v
  | CallFirstPage => after firstPage v
  | CallLastPage => after lastPage v
  | CallZoomIn => after zoomIn v
  | CallZoomOut => after zoomOut v
  | CallZoomFit => after zoomFit v
  | CallZoomFitWidth => after zoomFitWidth v
  | CallZoomFitHeight => after zoomFitHeight v
  | CallZoomActual => after zoomActual v
  | CallSetZoom z => after (setZoom z) v
  | CallRotateClockwise => after rotateClockwise v
  | CallRotateCounterclockwise => after rotateCounterclockwise v
  | CallSetRotation d => after (setRotation d) v
  | CallSetViewMode m => after (setViewMode m) v
  | CallSetRenderQuality q => after (setRenderQuality q) v
  | CallResize w h => with_viewport v (w, h)
  end.

Definition run_viewer_calls (calls : list ViewerCall) (v : PDFViewer)
  : PDFViewer :=
  foldl run_viewer_call v calls.

End Viewer.

(** What rendering, laying out and asking for a page leave alone: the
    view state, the signals and the engine document. *)
Definition same_view (v v' : PDFViewer) : Prop :=
  currentPage_ v' = currentPage_ v /\ zoom_ v' = zoom_ v /\
  rotation_ v' = rotation_ v /\ viewMode_ v' = viewMode_ v /\
  renderQuality_ v' = renderQuality_ v /\
  maxCacheSize_ v' = maxCacheSize_ v /\ viewport_ v' = viewport_ v /\
  emitted v' = emitted v /\
  Doc.doc_ <$> document_ v' = Doc.doc_ <$> document_ v.

(** A viewer that has rendered nothing: no cached page, no widget with an
    image, a renderer as new, and a document whose page objects are as
    [Document::get_page] creates them. *)
Definition quiet (v : PDFViewer) : Prop :=
  pageCache_ v = ∅ /\
  Forall (fun w => image_ w = None) (pageWidgets_ v) /\
  renderer_ v = new_Renderer /\
  (forall d, document_ v = Some d -> Doc.blank d).

(** [0.1 <= zoom && zoom <= 10.0]. *)
Definition zoom_in_range (zoom : B64.t) : Prop :=
  SFleb (B64.literal 1 10) zoom = true /\ SFleb zoom (B64.of_Z 10) = true.

(** The documents a sequence of calls hands to [setDocument] hold page
    objects as [Document::get_page] creates them, the only place where the
    code makes one. *)
Definition documents_blank (calls : list ViewerCall) : Prop :=
  Forall (fun c => match c with
                   | CallSetDocument (Some d) => Doc.blank d
                   | _ => True
                   end) calls.

End Viewer.

(** A document engine that opens every file as the three-page document
    1, which needs no password. *)
Definition three_page_engine : Doc.Engine :=
  Doc.mkEngine true (fun _ => Some 1%positive) (fun _ => Some 1%positive)
    (fun _ => false) (fun _ _ => true) (fun _ => 3).

(* ===================================================================== *)
(** * Properties *)
(* ===================================================================== *)

(** ** Machine integers *)

Lemma Int32_wrap_small z :
  Int32.INT_MIN <= z <= Int32.INT_MAX -> Int32.wrap z = z.
Proof.
  unfold Int32.wrap, Int32.INT_MIN, Int32.INT_MAX. intros Hz.
  rewrite Z.mod_small by lia. lia.
Qed.

Lemma Int32_of_trunc_small z :
  Int32.INT_MIN <= z <= Int32.INT_MAX -> Int32.of_trunc z = z.
Proof.
  unfold Int32.of_trunc, Int32.in_range. intros Hz.
  destruct (Int32.INT_MIN <=? z) eqn:E1; destruct (z <=? Int32.INT_MAX) eqn:E2;
    simpl; lia.
Qed.

(** ** Numbers: the two arithmetics agree on truncation *)

Lemma Qtrunc_opp (q : Q) : Qtrunc (- q) = - Qtrunc q.
Proof. destruct q as [n d]. unfold Qtrunc. simpl. now rewrite Z.quot_opp_l. Qed.

Lemma Qtrunc_inject_Z (z : Z) : Qtrunc (inject_Z z) = z.
Proof. unfold Qtrunc. simpl. apply Z.quot_1_r. Qed.

(** [static_cast<int>] in binary32 truncates the value of the float. *)
Lemma B32_trunc_to_Q (x : B32.t) :
  B32.is_finite x = true ->
  to_int x = Int32.of_trunc (Qtrunc (B32.to_Q x)).
Proof.
  destruct x as [s | s | | s m e]; try discriminate; intros _; [reflexivity |].
  simpl. f_equal. unfold B32.magnitude_floor.
  assert (Hv : Z.shiftl (Z.pos m) e =
               Qtrunc (if 0 <=? e then inject_Z (Z.pos m * 2 ^ e)
                       else Z.pos m # Z.to_pos (2 ^ (- e)))).
  { destruct (0 <=? e) eqn:He.
    - rewrite Qtrunc_inject_Z. apply Z.shiftl_mul_pow2. lia.
    - assert (Hp : 0 < 2 ^ (- e)) by (apply Z.pow_pos_nonneg; lia).
      unfold Qtrunc. simpl. rewrite Z2Pos.id by exact Hp.
      rewrite Z.quot_div_nonneg by lia.
      rewrite <- Z.shiftr_div_pow2 by lia.
      rewrite <- Z.shiftl_opp_r. f_equal. lia. }
  destruct s; simpl; [rewrite Qtrunc_opp |]; now rewrite Hv.
Qed.

(** Binary32 at known values: 1/3 is [0x3EAAAAAB]; 16777217 is a tie and
    rounds to the even 16777216; doubling [2^127] overflows; ceiling and
    truncation of 2.5 and -2.5. *)
Example b32_third :
  fdiv (B32.of_Z 1) (B32.of_Z 3) = S754_finite false 11184811 (-25).
Proof. vm_compute. reflexivity. Qed.

Example b32_tie_to_even : B32.of_Z 16777217 = B32.of_Z 16777216.
Proof. vm_compute. reflexivity. Qed.

Example b32_overflow :
  fmul (B32.of_scaled 1 127) (B32.of_Z 2) = S754_infinity false.
Proof. vm_compute. reflexivity. Qed.

Example b32_ceil_trunc :
  fceil (B32.of_scaled 5 (-1)) = B32.of_Z 3 /\
  fceil (B32.of_scaled (-5) (-1)) = B32.of_Z (-2) /\
  to_int (B32.of_scaled 5 (-1)) = 2 /\
  to_int (B32.of_scaled (-5) (-1)) = -2.
Proof. repeat split; vm_compute; reflexivity. Qed.

(** ** RenderJob: the state machine *)

Lemma wait_terminal timeout_ms job :
  is_terminal (status job) = true -> wait timeout_ms job = Some true.
Proof. unfold wait. now intros ->. Qed.

Lemma cancel_terminal job : is_terminal (status (cancel job)) = true.
Proof. unfold cancel. now destruct (status job) eqn:E; simpl; rewrite ?E. Qed.

Lemma cancel_idempotent job : cancel (cancel job) = cancel job.
Proof. unfold cancel. now destruct (status job) eqn:E; simpl; rewrite ?E. Qed.

(** C6.  [cancel] on a [Pending] job leaves it [Cancelled], which is
    terminal; [cancel] on a job in a terminal state changes nothing; and
    [get_result] on a [Cancelled] job returns at once, with error code
    [RenderError], a null buffer pointer, and the job unchanged. *)
Theorem cancel_before_pickup (job : RenderJob) :
  (status job = Pending ->
     status (cancel job) = Cancelled /\
     is_terminal (status (cancel job)) = true /\
     result (cancel job) = result job) /\
  (is_terminal (status job) = true -> cancel job = job) /\
  (status job = Cancelled ->
     exists r, get_result job = Some (r, job) /\
               error_ r = RenderError /\ is_ok r = false /\ value_ r = None).
Proof.
  split; [| split].
  - intros Hp. repeat split.
    + unfold cancel. now rewrite Hp.
    + apply cancel_terminal.
    + unfold cancel. now rewrite Hp.
  - intros Ht. unfold cancel. now destruct (status job).
  - intros Hc. unfold get_result.
    rewrite wait_terminal by now rewrite Hc.
    rewrite Hc. eexists. repeat split.
Qed.

Lemma cancel_before_pickup_witness :
  status (cancel new_RenderJob) = Cancelled /\
  cancel (cancel new_RenderJob) = cancel new_RenderJob /\
  exists r, get_result (cancel new_RenderJob) = Some (r, cancel new_RenderJob) /\
            error_ r = RenderError /\ is_ok r = false /\ value_ r = None.
Proof.
  split; [| split].
  - apply (cancel_before_pickup new_RenderJob). reflexivity.
  - apply (cancel_before_pickup (cancel new_RenderJob)). reflexivity.
  - apply (cancel_before_pickup (cancel new_RenderJob)). reflexivity.
Defined.



(** ** AsyncRenderer *)

Lemma queue_batch_from_pending {F} (doc : Document) (options : RenderOptions F)
    (page_indices : list Z) (jobs : list JobPtr) (store : JobStore) :
  Forall (fun job => status job = Pending) store ->
  Forall (fun j => (j < length store)%nat) jobs ->
  let '(jobs', store') := queue_batch_from doc page_indices options jobs store in
  Forall (fun job => status job = Pending) store' /\
  Forall (fun j => (j < length store')%nat) jobs'.
Proof.
  revert jobs store.
  induction page_indices as [| idx rest IH]; intros jobs store Hs Hj; simpl.
  - now split.
  - destruct (get_page doc idx) as [page |].
    + unfold bind, queue_render. apply IH.
      * apply Forall_app. split; [exact Hs | now repeat constructor].
      * apply Forall_app. split.
        -- eapply Forall_impl; [exact Hj |]. simpl. intros j Hlt.
           rewrite length_app. simpl. lia.
        -- repeat constructor. rewrite length_app. simpl. lia.
    + now apply IH.
Qed.

(** Whatever is queued stays [Pending]: nothing runs a job, and
    [wait_all] returns without waiting. *)
Lemma queue_batch_wait_all_pending {F} (doc : Document)
    (page_indices : list Z) (options : RenderOptions F) :
  let '(jobs, store) := queue_batch doc page_indices options [] in
  let store' := after wait_all store in
  Forall (fun j => exists job, store' !! j = Some job /\
                               status job = Pending /\
                               get_result job = None) jobs.
Proof.
  pose proof (queue_batch_from_pending doc options page_indices [] []
                (Forall_nil_2 _) (Forall_nil_2 _)) as Hq.
  unfold queue_batch.
  destruct (queue_batch_from doc page_indices options [] []) as [jobs store].
  destruct Hq as [Hs Hj]. simpl.
  eapply Forall_impl; [exact Hj |]. simpl. intros j Hlt.
  destruct (lookup_lt_is_Some_2 store j Hlt) as [job Hjob].
  exists job. split; [exact Hjob |].
  rewrite Forall_lookup in Hs. specialize (Hs j job Hjob).
  split; [exact Hs |]. unfold get_result, wait. now rewrite Hs.
Qed.

(** C5, at the input of the scenario: 50 jobs are queued for the 50 pages
    of a document and [wait_all] is called.  [pending_count] returns 0,
    yet every one of the 50 jobs is still [Pending], which is not a
    terminal state, and [get_result] on it never returns. *)
Theorem queue_batch_50_stays_pending :
  let '(jobs, store) := queue_batch (F:=Q) doc50 all50 default_options [] in
  let store' := after wait_all store in
  length jobs = 50%nat /\
  outcome pending_count store' = 0 /\
  Forall (fun j => exists job, store' !! j = Some job /\
                               status job = Pending /\
                               is_terminal (status job) = false /\
                               get_result job = None) jobs.
Proof.
  pose proof (queue_batch_wait_all_pending (F:=Q) doc50 all50 default_options)
    as Hq.
  assert (Hlen : length (fst (queue_batch (F:=Q) doc50 all50 default_options []))
                 = 50%nat) by (vm_compute; reflexivity).
  destruct (queue_batch doc50 all50 default_options []) as [jobs store].
  simpl in *. split; [exact Hlen |]. split; [reflexivity |].
  eapply Forall_impl; [exact Hq |]. simpl.
  intros j (job & Hj & Hs & Hr). exists job. rewrite Hs. now repeat split.
Qed.

(** ** Renderer: single pages *)

Section RenderPage.

Context {F : Type} `{FloatOps F}.
Variable backend : option (Engine F).

(** A call of [render_page] returns a value that does not depend on the
    renderer, leaves [Renderer::Impl] as it was, and draws the handles of
    [drawn]. *)
Lemma render_page_run page (options : RenderOptions F) r :
  render_page backend page options r =
    (outcome (render_page backend page options) new_Renderer,
     mkRenderer (impl_ r) (fz_runs r ++ drawn backend page)).
Proof.
  unfold render_page, drawn, outcome.
  destruct page as [pg |]; [| destruct r; simpl; now rewrite app_nil_r].
  destruct backend as [e |]; [| destruct r; simpl; now rewrite app_nil_r].
  destruct (fz_new_context e); simpl;
    [| destruct r; simpl; now rewrite app_nil_r].
  destruct (page_ pg) as [h |]; [| destruct r; simpl; now rewrite app_nil_r].
  unfold bind, log_run, ret. simpl.
  now destruct (fz_draw e h _ _ _ _).
Qed.

Lemma render_page_outcome page (options : RenderOptions F) r :
  outcome (render_page backend page options) r =
  outcome (render_page backend page options) new_Renderer.
Proof. unfold outcome at 1. now rewrite render_page_run. Qed.

Lemma render_page_after page (options : RenderOptions F) r :
  after (render_page backend page options) r =
  mkRenderer (impl_ r) (fz_runs r ++ drawn backend page).
Proof. unfold after. now rewrite render_page_run. Qed.

(** An ok result of [render_page] owns a buffer, whose byte count is
    [stride * height]. *)
Lemma render_page_ok_owns page (options : RenderOptions F) r :
  is_ok (outcome (render_page backend page options) r) = true ->
  exists img,
    value_ (outcome (render_page backend page options) r) = Some img /\
    ImageBuffer_size img =
      Z.to_nat (Int32.mul (ib_stride img) (ib_height img)).
Proof.
  unfold render_page, outcome.
  destruct page as [pg |]; [| discriminate].
  destruct backend as [e |]; [| discriminate].
  destruct (fz_new_context e); simpl; [| discriminate].
  destruct (page_ pg) as [h |]; [| discriminate].
  unfold bind, log_run, ret. simpl.
  destruct (fz_draw e h _ _ _ _) as [msg | pix]; simpl; [discriminate |].
  intros _. eexists. split; [reflexivity |].
  unfold ImageBuffer_size, buffer_of_pixmap. simpl. apply length_resize.
Qed.


(** C8, as amended.  [render_page_scaled] is [render_page] at the
    resolution [options.dpi * (scale_x + scale_y) / 2], and
    [render_page_to_size] on a page is [render_page] at
    [72 * min(width / page_width, height / page_height)]; no other field
    of the options changes, and without a page both report what
    [render_page] reports. *)
Theorem render_page_wrappers page pg (scale_x scale_y : F) (width height : Z)
    (options : RenderOptions F) :
  let scaled :=
    set_dpi options
      (fmul (dpi options) (fdiv (fadd scale_x scale_y) (of_int 2))) in
  render_page_scaled backend page scale_x scale_y options =
    render_page backend page scaled /\
  same_but_dpi options scaled /\
  render_page_to_size backend (Some pg) width height options =
    spec_render_page_to_size backend pg width height options /\
  (forall options',
     render_page_to_size backend None width height options =
       render_page backend None options').
Proof. now repeat split. Qed.

End RenderPage.

(** In exact arithmetic the resolution of [render_page_scaled] is the
    [72 * scale] of the specification exactly when it starts from options
    at 72 dpi. *)
Lemma render_page_scaled_from_72 (scale : Q) (options : RenderOptions Q) :
  (dpi options == 72)%Q ->
  (fmul (dpi options) (fdiv (fadd scale scale) (of_int 2)) == 72 * scale)%Q.
Proof. simpl. intros ->. field. Qed.

(** C8, as stated, fails: at the default options (150 dpi) and scale 1 the
    wrapper renders a 2 x 2 point page 4 pixels wide, the render at
    [72 * scale] renders it 2 pixels wide. *)
Lemma render_page_scaled_not_72_scale :
  outcome (render_page_scaled (F:=B32.t) (Some tiny_engine) (Some page_A)
             (of_int 1) (of_int 1) default_options) new_Renderer <>
  outcome (spec_render_page_scaled (Some tiny_engine) (Some page_A)
             (of_int 1) default_options) new_Renderer.
Proof.
  intros Heq.
  apply (f_equal (fun res => ib_width <$> value_ res)) in Heq.
  vm_compute in Heq. discriminate Heq.
Qed.


(** ** Renderer: batches *)

Lemma get_page_in_range (doc : Document) (i : Z) :
  0 <= i < page_count doc -> is_Some (get_page doc i).
Proof.
  unfold get_page, page_count. intros Hi.
  destruct (i <? 0) eqn:E1; [lia |].
  destruct (i >=? Z.of_nat (length (pages_ doc))) eqn:E2; [lia |]. simpl.
  apply lookup_lt_is_Some_2. lia.
Qed.

Lemma visited_Forall (P : Z -> Prop) keep_going i l :
  Forall P l -> Forall P (visited keep_going i l).
Proof.
  intros Hl. revert i.
  induction Hl as [| a l Ha Hl IH]; intros i; simpl; [constructor |].
  destruct (keep_going i a); [| constructor].
  constructor; [exact Ha | apply IH].
Qed.

Lemma visited_all keep_going i l :
  (forall j a, keep_going j a = true) -> visited keep_going i l = l.
Proof.
  intros Hk. revert i.
  induction l as [| a l IH]; intros i; simpl; [reflexivity |].
  now rewrite Hk, IH.
Qed.

Section Batches.

Context {F : Type} `{FloatOps F}.
Variable backend : option (Engine F).

Lemma render_thumbnail_run page (max_width max_height : Z) aspect r :
  render_thumbnail backend page max_width max_height aspect r =
    (outcome (render_thumbnail backend page max_width max_height aspect)
       new_Renderer,
     mkRenderer (impl_ r) (fz_runs r ++ drawn backend page)).
Proof.
  unfold outcome, render_thumbnail.
  destruct page as [pg |].
  - cbv zeta. pose proof (render_page_run backend) as Hrun. now rewrite Hrun.
  - destruct r. unfold ret, drawn. simpl. now rewrite app_nil_r.
Qed.

(** The loop of [render_pages]: one slot for each visited index, in
    order, behind what was there; the renderer's [Impl] untouched. *)
Lemma render_pages_from_run doc (options : RenderOptions F) callback total :
  forall page_indices i results r,
    render_pages_from backend doc page_indices total i options callback
      results r =
    (results ++ map (page_slot backend doc options)
                    (visited (render_pages_continue callback total)
                       i page_indices),
     mkRenderer (impl_ r)
       (fz_runs r ++
        flat_map (fun idx => drawn backend (get_page doc idx))
          (visited (render_pages_continue callback total) i page_indices))).
Proof.
  pose proof (render_page_run backend) as Hrun.
  induction page_indices as [| idx rest IH]; intros i results r.
  - destruct r. unfold ret. simpl. now rewrite !app_nil_r.
  - cbn [render_pages_from visited].
    fold (render_pages_continue callback total i idx).
    destruct (render_pages_continue callback total i idx);
      cbn [negb map flat_map].
    + unfold bind, page_slot at 1.
      destruct (get_page doc idx) as [page |].
      * rewrite Hrun, IH. cbn [impl_ fz_runs].
        now rewrite <- !app_assoc.
      * unfold ret at 1. rewrite IH. cbn [drawn app].
        now rewrite <- app_assoc.
    + destruct r. unfold ret. simpl. now rewrite !app_nil_r.
Qed.

(** The loop of [render_all_thumbnails] over page numbers of the
    document: again one slot for each visited number. *)
Lemma render_all_thumbnails_from_run doc (max_width max_height : Z) callback :
  forall nums i results r,
    Forall (fun n => 0 <= n < page_count doc) nums ->
    render_all_thumbnails_from backend doc nums max_width max_height callback
      results r =
    (results ++ map (thumbnail_slot backend doc max_width max_height)
                    (visited (thumbnails_continue callback (page_count doc))
                       i nums),
     mkRenderer (impl_ r)
       (fz_runs r ++
        flat_map (fun n => drawn backend (get_page doc n))
          (visited (thumbnails_continue callback (page_count doc)) i nums))).
Proof.
  induction nums as [| n rest IH]; intros i results r Hin.
  - destruct r. unfold ret. simpl. now rewrite !app_nil_r.
  - inversion Hin as [| ? ? Hn Hrest]; subst.
    cbn [render_all_thumbnails_from visited].
    fold (thumbnails_continue callback (page_count doc) i n).
    destruct (thumbnails_continue callback (page_count doc) i n);
      cbn [negb map flat_map].
    + unfold thumbnail_slot at 1.
      destruct (get_page_in_range doc n Hn) as [page Hpage]. rewrite Hpage.
      unfold bind. rewrite render_thumbnail_run, (IH (i + 1)) by exact Hrest.
      cbn [impl_ fz_runs]. now rewrite <- !app_assoc.
    + destruct r. unfold ret. simpl. now rewrite !app_nil_r.
Qed.

Lemma seqZ_in_range (n : Z) : Forall (fun i => 0 <= i < n) (seqZ 0 n).
Proof. apply Forall_forall. intros i Hi. apply elem_of_seqZ in Hi. lia. Qed.


End Batches.

(** ** Renderer: the cache *)

Section Cache.

Context {F : Type} `{FloatOps F}.
Variable backend : option (Engine F).

(** No rendering call reads or writes [Renderer::Impl]. *)
Lemma render_page_to_buffer_impl page buffer buffer_size
    (options : RenderOptions F) r :
  impl_ (after (render_page_to_buffer backend page buffer buffer_size options) r)
  = impl_ r.
Proof.
  pose proof (render_page_run backend) as Hrun.
  unfold after, render_page_to_buffer, bind. rewrite Hrun.
  destruct (negb (is_ok _)); [reflexivity |].
  destruct (value_ _) as [img |]; [| reflexivity].
  now destruct (_ <? _)%nat.
Qed.

Lemma run_call_cache (c : RendererCall F) r :
  cache_ (impl_ r) = ∅ -> cache_ (impl_ (run_call backend c r)) = ∅.
Proof.
  pose proof (render_page_run backend) as Hrun.
  pose proof (render_thumbnail_run backend) as Hthumb.
  intros Hempty. destruct c; unfold run_call, after.
  - now rewrite Hrun.
  - now rewrite <- (render_page_to_buffer_impl page buffer buffer_size options r)
      in Hempty.
  - unfold render_page_scaled. now rewrite Hrun.
  - unfold render_page_to_size. destruct page; [now rewrite Hrun | exact Hempty].
  - unfold render_pages. now rewrite render_pages_from_run.
  - unfold render_all_pages, render_pages.
    destruct doc; [now rewrite render_pages_from_run | exact Hempty].
  - now rewrite Hthumb.
  - unfold render_all_thumbnails. destruct doc as [d |]; [| exact Hempty].
    now rewrite (render_all_thumbnails_from_run backend d max_width max_height
                   callback (seqZ 0 (page_count d)) 0 [] r (seqZ_in_range _)).
  - exact Hempty.
  - exact Hempty.
  - reflexivity.
  - simpl. rewrite Hempty. destruct (page_ page); [apply delete_empty | reflexivity].
Qed.

Lemma run_calls_cache (cs : list (RendererCall F)) r :
  cache_ (impl_ r) = ∅ -> cache_ (impl_ (run_calls backend cs r)) = ∅.
Proof.
  revert r. induction cs as [| c cs IH]; intros r Hempty; [exact Hempty |].
  apply IH. now apply run_call_cache.
Qed.

(** C3, as amended.  The renderer keeps no working cache: after any
    sequence of calls on a new renderer the cache map is empty, so
    nothing is ever stored, found or evicted; [render_page] leaves
    [Renderer::Impl] as it was and returns what it returns on a new
    renderer; and every call on a page that has a handle, the engine
    having a context, hands that page to the engine once more, also when
    the same page was rendered before. *)
Theorem render_cache_never_filled (calls : list (RendererCall F))
    (page : option Page) (options : RenderOptions F) :
  let r := run_calls backend calls new_Renderer in
  cache_ (impl_ r) = ∅ /\
  impl_ (after (render_page backend page options) r) = impl_ r /\
  outcome (render_page backend page options) r =
    outcome (render_page backend page options) new_Renderer /\
  (forall e pg h,
     backend = Some e -> fz_new_context e = true ->
     page = Some pg -> page_ pg = Some h ->
     fz_runs (after (render_page backend page options) r) = fz_runs r ++ [h]).
Proof.
  pose proof (render_page_run backend) as Hrun.
  intros r. split; [| split; [| split]].
  - now apply run_calls_cache.
  - unfold after. now rewrite Hrun.
  - unfold outcome at 1. now rewrite Hrun.
  - intros e pg h He Hctx Hpg Hh. unfold after. rewrite Hrun. simpl.
    unfold drawn. now rewrite Hpg, He, Hctx, Hh.
Qed.

End Cache.

Lemma render_cache_never_filled_witness :
  let o := default_options (F:=B32.t) in
  let r := run_calls (Some tiny_engine)
             [CallSetCacheSize 1; CallRenderPage (Some page_A) o;
              CallRenderPage (Some page_B) o] new_Renderer in
  fz_runs r = [1%positive; 2%positive] /\
  fz_runs (after (render_page (Some tiny_engine) (Some page_B) o) r)
  = [1%positive; 2%positive; 2%positive].
Proof.
  intros o r. split; [reflexivity |].
  destruct (render_cache_never_filled (Some tiny_engine)
              [CallSetCacheSize 1; CallRenderPage (Some page_A) o;
               CallRenderPage (Some page_B) o] (Some page_B) o)
    as (_ & _ & _ & Hdraw).
  apply (Hdraw tiny_engine page_B 2%positive); reflexivity.
Defined.

(** C3, as stated, fails.  A renderer is set to cache size 1, then pages A
    and B are rendered: the cache does not hold one entry (it holds none),
    and rendering B, the page rendered last, once more is no cache hit:
    the engine draws it again. *)
Lemma render_cache_no_lru :
  let o := default_options (F:=B32.t) in
  let r2 := run_calls (Some tiny_engine)
              [CallSetCacheSize 1; CallRenderPage (Some page_A) o;
               CallRenderPage (Some page_B) o] new_Renderer in
  let r3 := run_call (Some tiny_engine) (CallRenderPage (Some page_B) o) r2 in
  size (cache_ (impl_ r2)) <> 1%nat /\
  cache_ (impl_ r2) !! 2%positive = None /\
  fz_runs r3 <> fz_runs r2 /\
  fz_runs r3 = fz_runs r2 ++ [2%positive].
Proof.
  intros o r2 r3. repeat split; vm_compute; congruence.
Qed.

(** ** Geometry: pixel dimensions *)

Lemma Qtrunc_nonneg (q : Q) : (0 <= q)%Q -> Qtrunc q = Qfloor q.
Proof.
  destruct q as [n d]. unfold Qle, Qtrunc, Qfloor. simpl. intros Hn.
  apply Z.quot_div_nonneg; lia.
Qed.

Lemma Qfloor_below (q : Q) (b : Z) : (q < inject_Z b)%Q -> Qfloor q < b.
Proof.
  intros Hq. rewrite Zlt_Qlt.
  eapply Qle_lt_trans; [apply Qfloor_le | exact Hq].
Qed.

Lemma Qfloor_nonneg (q : Q) : (0 <= q)%Q -> 0 <= Qfloor q.
Proof.
  intros Hq. change 0 with (Qfloor 0). now apply Qfloor_resp_le.
Qed.

(** [static_cast<int>] of an exact value that is not negative and below
    [2^31] is its floor. *)
Lemma to_int_floor (q : Q) :
  (0 <= q)%Q -> (q < inject_Z (2 ^ 31))%Q -> to_int q = Qfloor q.
Proof.
  intros H0 Hlt. simpl. rewrite (Qtrunc_nonneg q H0).
  apply Int32_of_trunc_small.
  pose proof (Qfloor_nonneg q H0). pose proof (Qfloor_below q _ Hlt).
  unfold Int32.INT_MIN, Int32.INT_MAX. lia.
Qed.

(** Rounding to nearest gives the floor or one more. *)
Lemma round_half_away_floor (q : Q) :
  (0 <= q)%Q -> Qfloor q <= round_half_away q <= Qfloor q + 1.
Proof.
  intros H0. unfold round_half_away.
  apply Qle_bool_iff in H0 as Hb. rewrite Hb. split.
  - apply Qfloor_resp_le. rewrite <- (Qplus_0_r q) at 1.
    apply Qplus_le_r. discriminate.
  - assert (Hlt : (q + (1 # 2) < inject_Z (Qfloor q + 2))%Q).
    { apply Qlt_le_trans with (inject_Z (Qfloor q + 1) + (1 # 2))%Q.
      - apply Qplus_lt_l, Qlt_floor.
      - rewrite !inject_Z_plus, <- Qplus_assoc.
        apply Qplus_le_r. discriminate. }
    apply Qfloor_below in Hlt. lia.
Qed.

(** C2, as amended.  [calculate_dimensions] truncates: in every
    arithmetic the result is the pair of [static_cast<int>] of the
    products [width * (dpi / 72)] and [height * (dpi / 72)], and [(0, 0)]
    for a null page.  In exact arithmetic, for products that are not
    negative and within [int], these are the floors of the products,
    each the value rounded to nearest or one less. *)
Theorem calculate_dimensions_truncates :
  (forall (F : Type) (ops : FloatOps F) (backend : option (Engine F))
          (pg : Page) (d : F),
     calculate_dimensions backend None d = (0, 0) /\
     calculate_dimensions backend (Some pg) d =
       (to_int (fmul (Page_width backend pg) (fdiv d (of_int 72))),
        to_int (fmul (Page_height backend pg) (fdiv d (of_int 72))))) /\
  (forall (backend : option (Engine Q)) (pg : Page) (d : Q),
     let w := (Page_width backend pg * (d / 72))%Q in
     let h := (Page_height backend pg * (d / 72))%Q in
     (0 <= w)%Q -> (w < inject_Z (2 ^ 31))%Q ->
     (0 <= h)%Q -> (h < inject_Z (2 ^ 31))%Q ->
     calculate_dimensions backend (Some pg) d = (Qfloor w, Qfloor h) /\
     round_half_away w - 1 <= Qfloor w <= round_half_away w /\
     round_half_away h - 1 <= Qfloor h <= round_half_away h).
Proof.
  split; [now split |].
  intros backend pg d w h Hw0 Hw Hh0 Hh. split; [| split].
  - unfold calculate_dimensions.
    change (fmul (Page_width backend pg) (fdiv d (of_int 72))) with w.
    change (fmul (Page_height backend pg) (fdiv d (of_int 72))) with h.
    now rewrite !to_int_floor.
  - pose proof (round_half_away_floor w Hw0). lia.
  - pose proof (round_half_away_floor h Hh0). lia.
Qed.

(** The default page of a build without engine, 595 x 842 points, at
    150 dpi. *)
Lemma calculate_dimensions_truncates_witness :
  calculate_dimensions (F:=Q) None (Some (blank_page 0)) 150%Q = (1239, 1754) /\
  round_half_away (595 * (150 / 72))%Q - 1 <= 1239
    <= round_half_away (595 * (150 / 72))%Q.
Proof.
  destruct calculate_dimensions_truncates as [_ Hexact].
  destruct (Hexact None (blank_page 0) 150%Q) as (Hd & Hw & _);
    [vm_compute; discriminate | reflexivity
    | vm_compute; discriminate | reflexivity |].
  split; [exact Hd | exact Hw].
Defined.

(** In binary32 the truncated product can fall below the exact floor: a
    page of 60 x 60 points at 150 dpi is 125 pixels wide exactly, the
    scale [150 / 72] rounds down, the product to 124.99999237..., and the
    call returns 124. *)
Lemma calculate_dimensions_binary32_below :
  calculate_dimensions (Some (square_engine 60)) (Some page_A) (B32.of_Z 150)
    = (124, 124) /\
  calculate_dimensions (Some (square_engine 60)) (Some page_A) 150%Q
    = (125, 125).
Proof. split; vm_compute; reflexivity. Qed.

(** C2, as stated, fails.  Built without the engine every page is
    595 x 842 points; at 150 dpi the call returns width 1239, in binary32
    and in exact arithmetic alike, while [595 * 150 / 72 = 1239.58...]
    rounds to 1240. *)
Lemma calculate_dimensions_not_rounded :
  calculate_dimensions (F:=B32.t) None (Some (blank_page 0)) (of_int 150)
    = (1239, 1754) /\
  calculate_dimensions (F:=Q) None (Some (blank_page 0)) 150%Q = (1239, 1754) /\
  round_half_away (595 * 150 / 72)%Q = 1240 /\
  round_half_away (842 * 150 / 72)%Q = 1754 /\
  calculate_dimensions (F:=Q) None (Some (blank_page 0)) 150%Q <>
    (round_half_away (595 * 150 / 72)%Q, round_half_away (842 * 150 / 72)%Q).
Proof. repeat split; vm_compute; congruence. Qed.

(** ** Binary32: the error of one operation *)

(** *** Digits and shifts *)

(** The number of binary digits brackets the number. *)
Lemma digits2_pos_bounds (m : positive) :
  2 ^ (Zpos (digits2_pos m) - 1) <= Zpos m < 2 ^ Zpos (digits2_pos m).
Proof.
  induction m as [m IH | m IH |]; simpl digits2_pos.
  - rewrite Pos2Z.inj_succ.
    replace (Z.succ (Zpos (digits2_pos m)) - 1) with (Zpos (digits2_pos m) - 1 + 1) by lia.
    rewrite Z.pow_succ_r by lia. rewrite Z.pow_add_r by lia. lia.
  - rewrite Pos2Z.inj_succ.
    replace (Z.succ (Zpos (digits2_pos m)) - 1) with (Zpos (digits2_pos m) - 1 + 1) by lia.
    rewrite Z.pow_succ_r by lia. rewrite Z.pow_add_r by lia. lia.
  - simpl. lia.
Qed.

Lemma Zdigits2_bounds (m : Z) :
  0 < m -> 2 ^ (Zdigits2 m - 1) <= m < 2 ^ Zdigits2 m.
Proof. destruct m as [| p | p]; try lia. intros _. apply digits2_pos_bounds. Qed.

Lemma Zdigits2_nonneg (m : Z) : 0 <= Zdigits2 m.
Proof. destruct m; simpl; lia. Qed.

Lemma Zdigits2_le (m : Z) (k : Z) : 0 <= m < 2 ^ k -> 0 <= k -> Zdigits2 m <= k.
Proof.
  intros Hm Hk. destruct (Z.eq_dec m 0) as [-> | Hne]; [simpl; lia |].
  pose proof (Zdigits2_bounds m ltac:(lia)) as Hb.
  destruct (Z_le_gt_dec (Zdigits2 m) k) as [|Hgt]; [assumption |].
  assert (2 ^ k <= 2 ^ (Zdigits2 m - 1)) by (apply Z.pow_le_mono_r; lia). lia.
Qed.

Lemma Zdigits2_ge (m : Z) (k : Z) : 2 ^ k <= m -> 0 <= k -> k + 1 <= Zdigits2 m.
Proof.
  intros Hm Hk.
  assert (0 < 2 ^ k) by (apply Z.pow_pos_nonneg; lia).
  pose proof (Zdigits2_bounds m ltac:(lia)) as Hb.
  pose proof (Zdigits2_nonneg m).
  destruct (Z_le_gt_dec (k + 1) (Zdigits2 m)) as [|Hgt]; [assumption |].
  assert (2 ^ Zdigits2 m <= 2 ^ k) by (apply Z.pow_le_mono_r; lia). lia.
Qed.

(** One right shift halves the mantissa. *)
Lemma shr_1_m mrs :
  0 <= shr_m mrs -> shr_m (shr_1 mrs) = shr_m mrs / 2.
Proof.
  destruct mrs as [m r s]. simpl. intros Hm.
  destruct m as [| [p | p |] | p]; cbn [shr_m shr_1]; try lia; try reflexivity.
  - apply Z.div_unique with 1; lia.
  - apply Z.div_unique with 0; lia.
Qed.

Lemma iter_pos_shr_m (p : positive) : forall mrs,
  0 <= shr_m mrs ->
  shr_m (SpecFloat.iter_pos shr_1 p mrs) = shr_m mrs / 2 ^ Zpos p.
Proof.
  assert (Hnn : forall mrs, 0 <= shr_m mrs -> 0 <= shr_m (shr_1 mrs)).
  { intros mrs Hm. rewrite shr_1_m by exact Hm. apply Z.div_pos; lia. }
  assert (Hp2 : forall q : positive, 0 < 2 ^ Zpos q)
    by (intros q; apply Z.pow_pos_nonneg; lia).
  induction p as [p IH | p IH |]; intros mrs Hm; simpl SpecFloat.iter_pos.
  - assert (H1 : 0 <= shr_m (shr_1 mrs)) by now apply Hnn.
    assert (H2 : 0 <= shr_m (SpecFloat.iter_pos shr_1 p (shr_1 mrs))).
    { rewrite IH by exact H1. apply Z.div_pos; [exact H1 | apply Hp2]. }
    rewrite IH by exact H2. rewrite IH by exact H1. rewrite shr_1_m by exact Hm.
    pose proof (Hp2 p).
    rewrite !Z.div_div by lia.
    change (Zpos p~1) with (2 * Zpos p + 1).
    replace (2 * Zpos p + 1) with (1 + Zpos p + Zpos p) by lia.
    rewrite !Z.pow_add_r by lia. f_equal. lia.
  - assert (H2 : 0 <= shr_m (SpecFloat.iter_pos shr_1 p mrs)).
    { rewrite IH by exact Hm. apply Z.div_pos; [exact Hm | apply Hp2]. }
    rewrite IH by exact H2. rewrite IH by exact Hm.
    pose proof (Hp2 p).
    rewrite !Z.div_div by lia.
    change (Zpos p~0) with (2 * Zpos p).
    replace (2 * Zpos p) with (Zpos p + Zpos p) by lia.
    rewrite !Z.pow_add_r by lia. f_equal.
  - rewrite shr_1_m by assumption. reflexivity.
Qed.


Lemma fexp_eq e : fexp 24 128 e = fexp32 e.
Proof. reflexivity. Qed.


(** The first step of rounding is the shift to [exp1]. *)
Lemma shr_fexp_spec (m e : Z) (l : location) :
  0 <= m ->
  snd (shr_fexp 24 128 m e l) = exp1 m e /\
  shr_m (fst (shr_fexp 24 128 m e l)) = man1 m e.
Proof.
  intros Hm. unfold man1, exp1, shr_fexp, shr.
  change (fexp 24 128 (Zdigits2 m + e)) with (fexp32 (Zdigits2 m + e)).
  assert (Hm0 : shr_m (shr_record_of_loc m l) = m)
    by (destruct l as [| []]; reflexivity).
  destruct (fexp32 (Zdigits2 m + e) - e) as [| p | p] eqn:Hn; cbn [fst snd].
  - replace (Z.max e _) with e by lia.
    rewrite Z.sub_diag, Z.div_1_r. split; [reflexivity | exact Hm0].
  - replace (Z.max e _) with (e + Zpos p) by lia.
    split; [reflexivity |].
    rewrite iter_pos_shr_m by lia. rewrite Hm0. f_equal. f_equal. lia.
  - replace (Z.max e _) with e by lia.
    rewrite Z.sub_diag, Z.div_1_r. split; [reflexivity | exact Hm0].
Qed.

Lemma fexp32_mono a b : a <= b -> fexp32 a <= fexp32 b.
Proof. unfold fexp32. lia. Qed.

Lemma fexp32_succ a : fexp32 (a + 1) <= fexp32 a + 1.
Proof. unfold fexp32. lia. Qed.

Lemma fexp32_min a : -149 <= fexp32 a.
Proof. unfold fexp32. lia. Qed.

(** Rounding to nearest picks the mantissa or its successor. *)
Lemma rne_bounds mx l :
  mx <= round_nearest_even mx l <= mx + 1.
Proof. destruct l as [| []]; simpl; try destruct (Z.even mx); lia. Qed.

Lemma man1_nonneg m e : 0 <= m -> 0 <= man1 m e.
Proof.
  intros Hm. unfold man1. apply Z.div_pos; [exact Hm |].
  apply Z.pow_pos_nonneg; unfold exp1; lia.
Qed.

Lemma man1_digits m e :
  0 <= m -> fexp32 (Zdigits2 (man1 m e) + exp1 m e) <= exp1 m e.
Proof.
  intros Hm. unfold man1.
  set (e1 := exp1 m e). assert (He1 : e <= e1) by (unfold e1, exp1; lia).
  destruct (Z.eq_dec e1 e) as [Heq | Hne].
  - rewrite Heq, Z.sub_diag, Z.pow_0_r, Z.div_1_r.
    unfold e1, exp1 in Heq. lia.
  - assert (Hf : e1 = fexp32 (Zdigits2 m + e)) by (unfold e1, exp1 in *; lia).
    pose proof (fexp32_min (Zdigits2 m + e)).
    pose proof (Zdigits2_nonneg m) as Hd.
    destruct (Z.eq_dec m 0) as [-> | Hm0].
    { rewrite Z.div_0_l by (apply Z.pow_nonzero; lia). simpl Zdigits2.
      unfold fexp32. lia. }
    pose proof (Zdigits2_bounds m ltac:(lia)) as Hb.
    destruct (Z_le_gt_dec (e1 - e) (Zdigits2 m)) as [Hle | Hgt].
    + assert (Hq : Zdigits2 (m / 2 ^ (e1 - e)) <= Zdigits2 m - (e1 - e)).
      { apply Zdigits2_le; [| lia]. split.
        - apply Z.div_pos; [lia | apply Z.pow_pos_nonneg; lia].
        - apply Z.div_lt_upper_bound; [apply Z.pow_pos_nonneg; lia |].
          rewrite <- Z.pow_add_r by lia.
          replace (e1 - e + (Zdigits2 m - (e1 - e))) with (Zdigits2 m) by lia.
          lia. }
      apply Z.le_trans with (fexp32 (Zdigits2 m + e)); [apply fexp32_mono; lia | lia].
    + rewrite Z.div_small.
      * simpl Zdigits2. unfold fexp32. lia.
      * split; [lia |].
        apply Z.lt_le_trans with (2 ^ Zdigits2 m); [lia |].
        apply Z.pow_le_mono_r; lia.
Qed.

(** The second shift loses nothing. *)
Lemma second_shift_exact (m e m1 : Z) :
  0 <= m -> man1 m e <= m1 <= man1 m e + 1 ->
  exp1 m1 (exp1 m e) <= exp1 m e + 1 /\
  man1 m1 (exp1 m e) * 2 ^ (exp1 m1 (exp1 m e) - exp1 m e) = m1.
Proof.
  intros Hm Hm1.
  pose proof (man1_nonneg m e Hm) as Hm'.
  pose proof (man1_digits m e Hm) as HA.
  assert (He1 : -149 <= exp1 m e)
    by (unfold exp1; pose proof (fexp32_min (Zdigits2 m + e)); lia).
  set (e1 := exp1 m e) in *.
  set (m' := man1 m e) in *. set (d' := Zdigits2 m') in *.
  assert (Hd' : 0 <= d') by apply Zdigits2_nonneg.
  assert (Hlt : m' < 2 ^ d').
  { destruct (Z.eq_dec m' 0) as [Hz | Hne].
    - rewrite Hz. apply Z.pow_pos_nonneg; lia.
    - apply (Zdigits2_bounds m'). lia. }
  assert (HB : Zdigits2 m1 <= d' \/ (m1 = 2 ^ d' /\ Zdigits2 m1 = d' + 1)).
  { destruct (Z_lt_ge_dec m1 (2 ^ d')) as [Hs | Hb].
    - left. apply Zdigits2_le; lia.
    - right. assert (m1 = 2 ^ d') by lia. split; [assumption |].
      apply Z.le_antisymm.
      + apply Zdigits2_le; [| lia]. rewrite Z.pow_add_r by lia. lia.
      + apply Zdigits2_ge; lia. }
  assert (Hcases : exp1 m1 e1 = e1 \/
                   (exp1 m1 e1 = e1 + 1 /\ m1 = 2 ^ d' /\ 1 <= d')).
  { unfold exp1. destruct HB as [HB | [HB1 HB2]].
    - left.
      assert (fexp32 (Zdigits2 m1 + e1) <= e1)
        by (eapply Z.le_trans; [apply fexp32_mono | exact HA]; lia).
      lia.
    - rewrite HB2. pose proof (fexp32_succ (d' + e1)) as Hs.
      replace (d' + 1 + e1) with (d' + e1 + 1) by lia.
      destruct (Z_le_gt_dec (fexp32 (d' + e1 + 1)) e1) as [Hle | Hgt];
        [left; lia | right].
      split; [lia |]. split; [exact HB1 |]. unfold fexp32 in *. lia. }
  unfold man1. destruct Hcases as [-> | (-> & -> & Hd1)].
  - rewrite Z.sub_diag, Z.pow_0_r, Z.div_1_r. lia.
  - replace (e1 + 1 - e1) with 1 by lia. rewrite Z.pow_1_r.
    split; [lia |].
    replace d' with (d' - 1 + 1) at 1 2 by lia.
    rewrite Z.pow_add_r by lia. rewrite Z.pow_1_r.
    rewrite Z.div_mul by lia. reflexivity.
Qed.

(** *** The value of a rounded number *)


Lemma two_neq_0 : ~ (2 == 0)%Q.
Proof. discriminate. Qed.

Lemma bpow_pos e : (0 < bpow e)%Q.
Proof. apply Qpower_0_lt. reflexivity. Qed.

Lemma bpow_add a b : (bpow (a + b) == bpow a * bpow b)%Q.
Proof. apply Qpower_plus, two_neq_0. Qed.

Lemma bpow_le a b : a <= b -> (bpow a <= bpow b)%Q.
Proof. intros H. apply Qpower_le_compat_l; [exact H | discriminate]. Qed.

Lemma bpow_Z k : 0 <= k -> (inject_Z (2 ^ k) == bpow k)%Q.
Proof. intros Hk. unfold bpow. now rewrite Zpower_Qpower. Qed.

Lemma F2Q_shift m k e : 0 <= k -> (F2Q (m * 2 ^ k) e == F2Q m (e + k))%Q.
Proof.
  intros Hk. unfold F2Q. rewrite inject_Z_mult, bpow_Z by exact Hk.
  rewrite (Z.add_comm e k), bpow_add. ring.
Qed.

Lemma to_Q_finite s p e :
  (B32.to_Q (S754_finite s p e) == sgnQ s * F2Q (Zpos p) e)%Q.
Proof.
  unfold B32.to_Q, F2Q, sgnQ.
  assert (Hv : ((if 0 <=? e then inject_Z (Z.pos p * 2 ^ e)
                 else Z.pos p # Z.to_pos (2 ^ (- e)))
                == inject_Z (Zpos p) * bpow e)%Q).
  { destruct (0 <=? e) eqn:He.
    - rewrite inject_Z_mult, bpow_Z by lia. reflexivity.
    - assert (Hp : 0 < 2 ^ (- e)) by (apply Z.pow_pos_nonneg; lia).
      assert (Hinv : (bpow e == / bpow (- e))%Q).
      { unfold bpow. pose proof (Qpower_opp 2 (- e)) as Ho.
        now rewrite Z.opp_involutive in Ho. }
      rewrite Qmake_Qdiv. rewrite Z2Pos.id by exact Hp.
      rewrite bpow_Z by lia. rewrite Hinv. reflexivity. }
  destruct s; rewrite Hv; ring.
Qed.

Lemma shr_fexp_noshift m e l :
  exp1 m e = e -> shr_fexp 24 128 m e l = (shr_record_of_loc m l, e).
Proof.
  unfold exp1, shr_fexp, shr. intros He.
  change (fexp 24 128 (Zdigits2 m + e)) with (fexp32 (Zdigits2 m + e)).
  destruct (fexp32 (Zdigits2 m + e) - e) eqn:Hn; try reflexivity. lia.
Qed.


Lemma exp1_min m e : -149 <= exp1 m e.
Proof. unfold exp1. pose proof (fexp32_min (Zdigits2 m + e)). lia. Qed.

(** [binary_round_aux] returns a finite number whose value is
    [m1 * 2^exp1] for [m1] the shifted mantissa or its successor. *)
Lemma round_aux_spec (s : bool) (m e : Z) (l : location) :
  0 <= m -> exp1 m e <= 103 ->
  exists m1,
    man1 m e <= m1 <= man1 m e + 1 /\
    (l = loc_Exact -> exp1 m e = e -> m1 = m) /\
    B32.is_finite (binary_round_aux 24 128 s m e l) = true /\
    expo (binary_round_aux 24 128 s m e l) <= exp1 m e + 1 /\
    (B32.to_Q (binary_round_aux 24 128 s m e l)
     == sgnQ s * F2Q m1 (exp1 m e))%Q.
Proof.
  intros Hm Hmax. unfold binary_round_aux.
  pose proof (shr_fexp_spec m e l Hm) as [He' Hm'].
  destruct (shr_fexp 24 128 m e l) as [mrs' e'] eqn:E1.
  cbn [fst snd] in He', Hm'.
  set (m1 := round_nearest_even (shr_m mrs') (loc_of_shr_record mrs')).
  assert (Hb1 : man1 m e <= m1 <= man1 m e + 1).
  { unfold m1. rewrite Hm'. apply rne_bounds. }
  pose proof (man1_nonneg m e Hm) as Hm'0.
  assert (Hm1 : 0 <= m1) by lia.
  pose proof (shr_fexp_spec m1 e' loc_Exact Hm1) as [He'' Hm''].
  destruct (shr_fexp 24 128 m1 e' loc_Exact) as [mrs'' e''] eqn:E2.
  cbn [fst snd] in He'', Hm''.
  rewrite He' in He'', Hm''.
  pose proof (second_shift_exact m e m1 Hm Hb1) as [Hle Hex].
  rewrite <- He'', <- Hm'' in Hex. rewrite <- He'' in Hle.
  assert (Hge : exp1 m e <= e'') by (rewrite He''; unfold exp1 at 2; lia).
  exists m1. split; [exact Hb1 |]. split.
  { intros -> Hnoshift. rewrite (shr_fexp_noshift m e _ Hnoshift) in E1.
    injection E1 as <- <-. reflexivity. }
  destruct (shr_m mrs'') as [| p | p] eqn:Hp.
  - split; [reflexivity |].
    split; [simpl; pose proof (exp1_min m e); lia |]. simpl B32.to_Q.
    assert (m1 = 0) by lia. subst m1. rewrite H. unfold F2Q. simpl. ring.
  - assert (Hfin : (e'' <=? 128 - 24) = true) by (apply Z.leb_le; lia).
    rewrite Hfin. split; [reflexivity |].
    split; [simpl; lia |].
    assert (Hv : (F2Q m1 (exp1 m e) == F2Q (Zpos p) e'')%Q).
    { rewrite <- Hex.
      etransitivity; [apply F2Q_shift; lia |].
      replace (exp1 m e + (e'' - exp1 m e)) with e'' by lia. reflexivity. }
    etransitivity; [apply to_Q_finite |].
    apply Qmult_comp; [reflexivity | symmetry; exact Hv].
  - exfalso. pose proof (man1_nonneg m1 (exp1 m e) Hm1). lia.
Qed.

Lemma F2Q_le m n e : m <= n -> (F2Q m e <= F2Q n e)%Q.
Proof.
  intros H. unfold F2Q. apply Qmult_le_compat_r.
  - now rewrite <- Zle_Qle.
  - apply Qlt_le_weak, bpow_pos.
Qed.

Lemma F2Q_succ m e : (F2Q (m + 1) e == F2Q m e + bpow e)%Q.
Proof. unfold F2Q. rewrite inject_Z_plus. ring. Qed.

Lemma Qabs_sgn s a b : (Qabs (sgnQ s * a - sgnQ s * b) == Qabs (a - b))%Q.
Proof.
  destruct s; unfold sgnQ.
  - assert (Heq : (-1 * a - -1 * b == - (a - b))%Q) by ring.
    rewrite Heq. apply Qabs_opp.
  - assert (Heq : (1 * a - 1 * b == a - b)%Q) by ring.
    now rewrite Heq.
Qed.

(** The unit in the last place stays below [2^-23 v + 2^-149]. *)
Lemma ulp_bound m e :
  0 <= m -> e < exp1 m e ->
  (bpow (exp1 m e) <= bpow (-23) * F2Q m e + bpow (-149))%Q.
Proof.
  intros Hm Hlt.
  assert (H0 : (0 <= F2Q m e)%Q).
  { unfold F2Q. apply Qmult_le_0_compat; [| apply Qlt_le_weak, bpow_pos].
    change 0%Q with (inject_Z 0). now rewrite <- Zle_Qle. }
  pose proof (bpow_pos (-23)) as Hp23. pose proof (bpow_pos (-149)) as Hp149.
  assert (He1 : exp1 m e = fexp32 (Zdigits2 m + e)) by (unfold exp1 in *; lia).
  unfold fexp32 in He1.
  destruct (Z_le_gt_dec (Zdigits2 m + e - 24) (-149)) as [Hsub | Hnorm].
  - replace (exp1 m e) with (-149) by lia.
    assert (0 <= bpow (-23) * F2Q m e)%Q by (apply Qmult_le_0_compat; lra).
    lra.
  - replace (exp1 m e) with (-23 + (Zdigits2 m - 1 + e)) by lia.
    rewrite bpow_add.
    assert (Hm0 : 0 < m).
    { destruct (Z.eq_dec m 0) as [-> | ]; [simpl in *; lia | lia]. }
    pose proof (Zdigits2_bounds m Hm0) as [Hlo _].
    pose proof (Zdigits2_nonneg m).
    assert (Hd : 1 <= Zdigits2 m).
    { destruct m; simpl; lia. }
    assert (Hv : (bpow (Zdigits2 m - 1 + e) <= F2Q m e)%Q).
    { rewrite bpow_add. unfold F2Q. apply Qmult_le_compat_r.
      - rewrite <- bpow_Z by lia. now rewrite <- Zle_Qle.
      - apply Qlt_le_weak, bpow_pos. }
    assert (bpow (-23) * bpow (Zdigits2 m - 1 + e) <= bpow (-23) * F2Q m e)%Q.
    { apply Qmult_le_l; assumption. }
    lra.
Qed.


Lemma F2Q_nonneg m e : 0 <= m -> (0 <= F2Q m e)%Q.
Proof.
  intros Hm. unfold F2Q. apply Qmult_le_0_compat; [| apply Qlt_le_weak, bpow_pos].
  change 0%Q with (inject_Z 0). now rewrite <- Zle_Qle.
Qed.

Lemma eps_nonneg v : (0 <= v)%Q -> (0 <= eps v)%Q.
Proof.
  intros Hv. unfold eps. pose proof (bpow_pos (-23)). pose proof (bpow_pos (-149)).
  assert (0 <= bpow (-23) * v)%Q by (apply Qmult_le_0_compat; lra). lra.
Qed.

Lemma eps_mono u v : (u <= v)%Q -> (eps u <= eps v)%Q.
Proof.
  intros Huv. unfold eps. pose proof (bpow_pos (-23)).
  assert (bpow (-23) * u <= bpow (-23) * v)%Q by (apply Qmult_le_l; assumption).
  lra.
Qed.

Lemma man1_bracket m e :
  0 <= m ->
  (F2Q (man1 m e) (exp1 m e) <= F2Q m e)%Q /\
  (F2Q (m + 1) e <= F2Q (man1 m e + 1) (exp1 m e))%Q.
Proof.
  intros Hm. unfold man1.
  set (n := exp1 m e - e). assert (Hn : 0 <= n) by (unfold n, exp1; lia).
  assert (Hp : 0 < 2 ^ n) by (apply Z.pow_pos_nonneg; lia).
  replace (exp1 m e) with (e + n) by (unfold n; lia).
  split.
  - rewrite <- F2Q_shift by exact Hn. apply F2Q_le.
    rewrite Z.mul_comm. apply Z.mul_div_le. exact Hp.
  - rewrite <- F2Q_shift by exact Hn. apply F2Q_le.
    pose proof (Z.mul_succ_div_gt m (2 ^ n) Hp). lia.
Qed.

(** The error of one rounding: [v] is the exact magnitude, bracketed by
    the mantissa handed to [binary_round_aux]. *)
Lemma round_aux_error (s : bool) (m e : Z) (l : location) (v : Q) :
  0 <= m -> exp1 m e <= 103 ->
  (F2Q m e <= v)%Q -> (v < F2Q (m + 1) e)%Q ->
  (l = loc_Exact -> v == F2Q m e)%Q ->
  (exp1 m e = e -> l <> loc_Exact -> bpow e <= eps v)%Q ->
  let r := binary_round_aux 24 128 s m e l in
  B32.is_finite r = true /\
  expo r <= exp1 m e + 1 /\
  (Qabs (B32.to_Q r - sgnQ s * v) <= eps v)%Q.
Proof.
  intros Hm Hmax Hlo Hhi Hexact Hside r. subst r.
  destruct (round_aux_spec s m e l Hm Hmax) as (m1 & Hb & Hex & Hfin & Hexp & Hval).
  split; [exact Hfin |]. split; [exact Hexp |].
  rewrite Hval, Qabs_sgn.
  pose proof (F2Q_nonneg m e Hm) as Hm0.
  assert (Hv0 : (0 <= v)%Q) by lra.
  pose proof (eps_nonneg v Hv0) as Heps.
  destruct (man1_bracket m e Hm) as [Hbl Hbh].
  pose proof (F2Q_le _ _ (exp1 m e) (proj1 Hb)) as H1.
  pose proof (F2Q_le _ _ (exp1 m e) (proj2 Hb)) as H2.
  pose proof (F2Q_succ (man1 m e) (exp1 m e)) as Hs.
  apply Qabs_diff_Qle_condition.
  destruct (Z.eq_dec (exp1 m e) e) as [Heq | Hne].
  - destruct l as [| c] eqn:El.
    + specialize (Hex eq_refl Heq). subst m1. rewrite Heq.
      pose proof (Hexact eq_refl) as Hv. lra.
    + assert (Hsd : (bpow e <= eps v)%Q) by (apply Hside; [exact Heq | discriminate]).
      rewrite Heq in *. lra.
  - assert (Hlt : e < exp1 m e) by (unfold exp1 in *; lia).
    pose proof (ulp_bound m e Hm Hlt) as Hu. fold (eps (F2Q m e)) in Hu.
    pose proof (eps_mono _ _ Hlo) as Hmono. lra.
Qed.

Lemma sgnQ_xorb a b : (sgnQ (xorb a b) == sgnQ a * sgnQ b)%Q.
Proof. destruct a, b; reflexivity. Qed.

Lemma Qabs_sgnQ_mult s v : (0 <= v)%Q -> (Qabs (sgnQ s * v) == v)%Q.
Proof.
  intros Hv. rewrite Qabs_Qmult, (Qabs_pos v Hv).
  destruct s; unfold sgnQ;
    [change (Qabs (-1)) with 1%Q | change (Qabs 1) with 1%Q]; ring.
Qed.

Lemma F2Q_mult m1 e1 m2 e2 :
  (F2Q (m1 * m2) (e1 + e2) == F2Q m1 e1 * F2Q m2 e2)%Q.
Proof. unfold F2Q. rewrite inject_Z_mult, bpow_add. ring. Qed.

Lemma F2Q_lt_succ m e : (F2Q m e < F2Q (m + 1) e)%Q.
Proof. rewrite F2Q_succ. pose proof (bpow_pos e). lra. Qed.

Lemma bpow_le_inv a b : (bpow a <= bpow b)%Q -> a <= b.
Proof. intros H. apply (Qpower_le_compat_l_inv 2); [exact H | reflexivity]. Qed.

Lemma bpow_lt a b : a < b -> (bpow a < bpow b)%Q.
Proof. intros H. apply Qpower_lt_compat_l; [exact H | reflexivity]. Qed.

Lemma bpow_lt_inv a b : (bpow a < bpow b)%Q -> a < b.
Proof. intros H. apply (Qpower_lt_compat_l_inv 2); [exact H | reflexivity]. Qed.

(** A value of at most [2^k] has at most [k + 1] digits above its
    exponent. *)
Lemma digits_of_value m e k :
  0 < m -> (F2Q m e <= bpow k)%Q -> Zdigits2 m + e <= k + 1.
Proof.
  intros Hm Hv.
  pose proof (Zdigits2_bounds m Hm) as [Hlo _].
  assert (Hd : 1 <= Zdigits2 m) by (destruct m; simpl; lia).
  assert (Hb : (bpow (Zdigits2 m - 1 + e) <= F2Q m e)%Q).
  { rewrite bpow_add. unfold F2Q. apply Qmult_le_compat_r.
    - rewrite <- bpow_Z by lia. now rewrite <- Zle_Qle.
    - apply Qlt_le_weak, bpow_pos. }
  assert (Hle : (bpow (Zdigits2 m - 1 + e) <= bpow k)%Q) by lra.
  apply bpow_le_inv in Hle. lia.
Qed.

Lemma exp1_of_value m e k :
  0 <= m -> (F2Q m e <= bpow k)%Q -> -125 <= k ->
  exp1 m e <= Z.max e (k - 23).
Proof.
  intros Hm Hv Hk. unfold exp1, fexp32.
  destruct (Z.eq_dec m 0) as [-> | Hne]; [simpl; lia |].
  pose proof (digits_of_value m e k ltac:(lia) Hv). lia.
Qed.

(** *** Multiplication *)

Lemma SFmul_error (x y : B32.t) :
  B32.is_finite x = true -> B32.is_finite y = true ->
  expo x + expo y <= 0 ->
  (Qabs (B32.to_Q x * B32.to_Q y) <= bpow 16)%Q ->
  let r := fmul x y in
  B32.is_finite r = true /\
  expo r <= Z.max (expo x + expo y) (-7) + 1 /\
  (Qabs (B32.to_Q r - B32.to_Q x * B32.to_Q y)
   <= eps (Qabs (B32.to_Q x * B32.to_Q y)))%Q.
Proof.
  intros Hx Hy He Hv r. subst r.
  assert (Hzero : forall a b : Q, (a == 0)%Q \/ (b == 0)%Q ->
            (Qabs (0 - a * b) <= eps (Qabs (a * b)))%Q).
  { intros a b Hab.
    assert (Hp : (0 - a * b == 0)%Q) by (destruct Hab as [-> | ->]; ring).
    apply Qle_trans with 0%Q; [| apply eps_nonneg, Qabs_nonneg].
    rewrite (Qabs_wd _ _ Hp). discriminate. }
  destruct x as [sx | sx | | sx mx ex]; try discriminate;
  destruct y as [sy | sy | | sy my ey]; try discriminate;
    cbn [fmul binary32 SFmul B32.is_finite].
  - split; [reflexivity |]. split; [simpl; lia |]. apply Hzero. now left.
  - split; [reflexivity |]. split; [simpl; lia |]. apply Hzero. now left.
  - split; [reflexivity |]. split; [simpl; lia |]. apply Hzero. now right.
  - cbn [expo] in *.
    assert (Hprod : (B32.to_Q (S754_finite sx mx ex) * B32.to_Q (S754_finite sy my ey)
                     == sgnQ (xorb sx sy) * F2Q (Zpos mx * Zpos my) (ex + ey))%Q).
    { rewrite !to_Q_finite, sgnQ_xorb, F2Q_mult. ring. }
    assert (Hv0 : (0 <= F2Q (Zpos mx * Zpos my) (ex + ey))%Q)
      by (apply F2Q_nonneg; lia).
    rewrite Hprod in *. rewrite Qabs_sgnQ_mult in * by exact Hv0.
    assert (Hexp : exp1 (Zpos mx * Zpos my) (ex + ey) <= Z.max (ex + ey) (-7)).
    { eapply Z.le_trans; [apply (exp1_of_value _ _ 16); [lia | exact Hv | lia] |]. lia. }
    change (Zpos (mx * my)) with (Zpos mx * Zpos my).
    destruct (round_aux_error (xorb sx sy) (Zpos mx * Zpos my) (ex + ey) loc_Exact
                (F2Q (Zpos mx * Zpos my) (ex + ey)))
      as (Hfin & Hexpo & Herr); try lia.
    + apply Qle_refl.
    + apply F2Q_lt_succ.
    + reflexivity.
    + intros _ Hc. now contradiction Hc.
    + split; [exact Hfin |].
      split; [eapply Z.le_trans; [exact Hexpo | lia] | exact Herr].
Qed.

(** *** Division of normal numbers *)

Lemma new_location_exact b r : new_location b r = loc_Exact -> r = 0.
Proof.
  unfold new_location, new_location_even, new_location_odd.
  destruct (Z.even b); destruct (r =? 0) eqn:Hr; try discriminate;
    intros _; now apply Z.eqb_eq.
Qed.

Lemma SFdiv_core_normal (mx my : positive) (ex ey : Z) :
  Zpos (digits2_pos mx) = 24 -> Zpos (digits2_pos my) = 24 ->
  -125 <= ex - ey ->
  SFdiv_core_binary 24 128 (Zpos mx) ex (Zpos my) ey =
    (Zpos mx * 2 ^ 24 / Zpos my, ex - ey - 24,
     new_location (Zpos my) ((Zpos mx * 2 ^ 24) mod Zpos my)).
Proof.
  intros Hdx Hdy He. unfold SFdiv_core_binary.
  cbn [Zdigits2]. rewrite Hdx, Hdy.
  change (fexp 24 128 (24 + ex - (24 + ey))) with (fexp32 (24 + ex - (24 + ey))).
  unfold fexp32.
  replace (Z.min (Z.max (24 + ex - (24 + ey) - 24) (-149)) (ex - ey))
    with (ex - ey - 24) by lia.
  replace (ex - ey - (ex - ey - 24)) with 24 by lia.
  rewrite Z.shiftl_mul_pow2 by lia.
  unfold Z.div, Z.modulo.
  now destruct (Z.div_eucl (Zpos mx * 2 ^ 24) (Zpos my)).
Qed.

Lemma Qdiv_bracket (a b : Z) :
  0 < b ->
  (inject_Z (a / b) <= inject_Z a / inject_Z b)%Q /\
  (inject_Z a / inject_Z b < inject_Z (a / b + 1))%Q.
Proof.
  intros Hb.
  assert (HbQ : (0 < inject_Z b)%Q)
    by (change 0%Q with (inject_Z 0); now rewrite <- Zlt_Qlt).
  split.
  - apply Qle_shift_div_l; [exact HbQ |].
    rewrite <- inject_Z_mult, <- Zle_Qle.
    rewrite Z.mul_comm. apply Z.mul_div_le. exact Hb.
  - apply Qlt_shift_div_r; [exact HbQ |].
    rewrite <- inject_Z_mult, <- Zlt_Qlt.
    pose proof (Z.mul_succ_div_gt a b Hb). lia.
Qed.

Lemma SFdiv_error (sx sy : bool) (mx my : positive) (ex ey : Z) :
  Zpos (digits2_pos mx) = 24 -> Zpos (digits2_pos my) = 24 ->
  -125 <= ex - ey <= 100 ->
  let x := S754_finite sx mx ex in
  let y := S754_finite sy my ey in
  let r := fdiv x y in
  B32.is_finite r = true /\
  expo r <= ex - ey - 22 /\
  (Qabs (B32.to_Q r - B32.to_Q x / B32.to_Q y)
   <= eps (Qabs (B32.to_Q x / B32.to_Q y)))%Q.
Proof.
  intros Hdx Hdy He x y r. subst x y r.
  cbn [fdiv binary32 SFdiv].
  change (SFdiv_core_binary B32.prec B32.emax) with (SFdiv_core_binary 24 128).
  rewrite (SFdiv_core_normal mx my ex ey Hdx Hdy) by lia.
  set (a := Zpos mx * 2 ^ 24). set (b := Zpos my).
  set (q := a / b). set (e' := ex - ey - 24).
  pose proof (digits2_pos_bounds mx) as Hbx. rewrite Hdx in Hbx.
  pose proof (digits2_pos_bounds my) as Hby. rewrite Hdy in Hby.
  change (2 ^ (24 - 1)) with 8388608 in *. change (2 ^ 24) with 16777216 in *.
  assert (Hb : 0 < b) by (unfold b; lia).
  assert (Hq23 : 8388608 <= q).
  { unfold q. apply Z.div_le_lower_bound; [exact Hb |]. unfold a, b. lia. }
  assert (Hq25 : q < 33554432).
  { unfold q. apply Z.div_lt_upper_bound; [exact Hb |]. unfold a, b. lia. }
  (* the exact quotient *)
  set (v := (F2Q (Zpos mx) ex / F2Q (Zpos my) ey)%Q).
  assert (Hfy : (0 < F2Q (Zpos my) ey)%Q).
  { unfold F2Q. apply Qmult_lt_0_compat; [| apply bpow_pos].
    change 0%Q with (inject_Z 0). now rewrite <- Zlt_Qlt. }
  assert (Hvq : (v == (inject_Z a / inject_Z b) * bpow e')%Q).
  { unfold v, F2Q, a, b, e'.
    replace ex with (24 + (ex - ey - 24) + ey) at 1 by lia.
    rewrite !bpow_add, inject_Z_mult. rewrite <- (bpow_Z 24) by lia.
    change (2 ^ 24) with 16777216.
    pose proof (bpow_pos ey) as Hp1.
    assert (Hmy : ~ (inject_Z (Zpos my) == 0)%Q) by discriminate.
    generalize dependent (bpow ey). generalize (bpow (ex - ey - 24)).
    generalize (bpow 24). generalize dependent (inject_Z (Zpos my)).
    generalize (inject_Z (Zpos mx)).
    intros. change (2 ^ 24) with 16777216. field. repeat split; first [assumption | lra]. }
  destruct (Qdiv_bracket a b Hb) as [Hql Hqh]. fold q in Hql, Hqh.
  pose proof (bpow_pos e') as Hpe.
  assert (Hlo : (F2Q q e' <= v)%Q).
  { rewrite Hvq. unfold F2Q. apply Qmult_le_compat_r; [exact Hql | lra]. }
  assert (Hhi : (v < F2Q (q + 1) e')%Q).
  { rewrite Hvq. unfold F2Q. apply Qmult_lt_compat_r; [exact Hpe | exact Hqh]. }
  assert (Hv0 : (0 <= v)%Q).
  { eapply Qle_trans; [| exact Hlo]. apply F2Q_nonneg. lia. }
  assert (Hdq : 24 <= Zdigits2 q <= 25).
  { split.
    - apply (Zdigits2_ge q 23); [exact Hq23 | lia].
    - apply Zdigits2_le; [change (2 ^ 25) with 33554432; lia | lia]. }
  assert (Hexp : exp1 q e' <= e' + 1) by (unfold exp1, fexp32, e' in *; lia).
  assert (Hprod : (B32.to_Q (S754_finite sx mx ex) / B32.to_Q (S754_finite sy my ey)
                   == sgnQ (xorb sx sy) * v)%Q).
  { rewrite !to_Q_finite. unfold v.
    clear - Hfy. revert Hfy.
    generalize (F2Q (Zpos my) ey) (F2Q (Zpos mx) ex).
    intros; destruct sx, sy; cbn [xorb]; unfold sgnQ; field; lra. }
  rewrite Hprod. rewrite Qabs_sgnQ_mult by exact Hv0.
  destruct (round_aux_error (xorb sx sy) q e'
              (new_location b (a mod b)) v) as (Hfin & Hexpo & Herr);
    try lia; try assumption.
  - intros Hloc. apply new_location_exact in Hloc.
    rewrite Hvq. unfold F2Q.
    assert (Ha : a = b * q) by (unfold q; pose proof (Z.div_mod a b); lia).
    rewrite Ha at 1. rewrite inject_Z_mult.
    assert (Hb0 : ~ (inject_Z b == 0)%Q) by (unfold b; discriminate).
    revert Hb0. generalize (bpow e') (inject_Z b) (inject_Z q).
    intros; field. assumption.
  - intros _ _. unfold eps.
    assert (Hb23 : (bpow e' <= bpow (-23) * F2Q q e')%Q).
    { unfold F2Q.
      assert (H1 : (inject_Z 8388608 <= inject_Z q)%Q) by now rewrite <- Zle_Qle.
      assert (H2 : (bpow (-23) * inject_Z 8388608 == 1)%Q) by reflexivity.
      assert (H3 : (bpow (-23) * (inject_Z 8388608 * bpow e')
                    <= bpow (-23) * (inject_Z q * bpow e'))%Q).
      { apply Qmult_le_l; [apply bpow_pos |].
        apply Qmult_le_compat_r; [exact H1 | lra]. }
      assert (H4 : (bpow (-23) * (inject_Z 8388608 * bpow e') == bpow e')%Q).
      { rewrite Qmult_assoc, H2. ring. }
      lra. }
    assert (H5 : (bpow (-23) * F2Q q e' <= bpow (-23) * v)%Q)
      by (apply Qmult_le_l; [apply bpow_pos | exact Hlo]).
    pose proof (bpow_pos (-149)). lra.
  - split; [exact Hfin |]. split; [| exact Herr].
    eapply Z.le_trans; [exact Hexpo |]. unfold e' in *. lia.
Qed.

(** *** Subtraction *)

Lemma iter_xO (m d : positive) : Zpos (Pos.iter xO m d) = Zpos m * 2 ^ Zpos d.
Proof.
  pose proof (shift_pos_correct d m) as H. unfold shift_pos in H.
  rewrite H. rewrite Zpower_pos_nat, Zpower_nat_Z, positive_nat_Z. lia.
Qed.

Lemma shl_align_spec (m : positive) (e e' : Z) :
  e' <= e ->
  snd (shl_align m e e') = e' /\
  Zpos (fst (shl_align m e e')) = Zpos m * 2 ^ (e - e').
Proof.
  intros He. unfold shl_align.
  destruct (e' - e) as [| d | d] eqn:Hd; cbn [fst snd]; try lia.
  - replace (e - e') with 0 by lia. lia.
  - rewrite iter_xO. split; [reflexivity |]. f_equal. f_equal. lia.
Qed.

Lemma Zdigits2_shift (m k : Z) :
  0 < m -> 0 <= k -> Zdigits2 (m * 2 ^ k) = Zdigits2 m + k.
Proof.
  intros Hm Hk.
  pose proof (Zdigits2_bounds m Hm) as [Hlo Hhi].
  assert (Hd : 1 <= Zdigits2 m) by (destruct m; simpl; lia).
  assert (Hp : 0 < 2 ^ k) by (apply Z.pow_pos_nonneg; lia).
  apply Z.le_antisymm.
  - apply Zdigits2_le; [| lia]. rewrite Z.pow_add_r by lia. nia.
  - replace (Zdigits2 m + k) with (Zdigits2 m - 1 + k + 1) by lia.
    apply Zdigits2_ge; [| lia]. rewrite Z.pow_add_r by lia. nia.
Qed.

Lemma binary_round_error (s : bool) (m : positive) (e k : Z) :
  (F2Q (Zpos m) e <= bpow k)%Q -> -125 <= k <= 126 ->
  let r := binary_round 24 128 s m e in
  B32.is_finite r = true /\
  expo r <= Z.max (k - 23) (-149) + 1 /\
  (Qabs (B32.to_Q r - sgnQ s * F2Q (Zpos m) e) <= eps (F2Q (Zpos m) e))%Q.
Proof.
  intros Hv Hk r. subst r. unfold binary_round.
  change (fexp 24 128 (Zpos (digits2_pos m) + e))
    with (fexp32 (Zdigits2 (Zpos m) + e)).
  set (f := fexp32 (Zdigits2 (Zpos m) + e)).
  pose proof (digits_of_value (Zpos m) e k ltac:(lia) Hv) as Hdig.
  assert (Hf : f <= Z.max (k - 23) (-149)) by (unfold f, fexp32; lia).
  destruct (Z_lt_le_dec f e) as [Hlt | Hge].
  - destruct (shl_align_spec m e f ltac:(lia)) as [He' Hm'].
    destruct (shl_align m e f) as [m' e'] eqn:E. cbn [fst snd] in He', Hm'.
    subst e'.
    assert (Hval : (F2Q (Zpos m') f == F2Q (Zpos m) e)%Q).
    { rewrite Hm', F2Q_shift by lia. now replace (f + (e - f)) with e by lia. }
    assert (Hexp : exp1 (Zpos m') f = f).
    { unfold exp1. rewrite Hm', Zdigits2_shift by lia.
      replace (Zdigits2 (Zpos m) + (e - f) + f) with (Zdigits2 (Zpos m) + e) by lia.
      fold f. lia. }
    destruct (round_aux_error s (Zpos m') f loc_Exact (F2Q (Zpos m) e))
      as (Hfin & Hexpo & Herr); try lia.
    + rewrite Hval. apply Qle_refl.
    + rewrite <- Hval. apply F2Q_lt_succ.
    + intros _. now rewrite Hval.
    + intros _ Hne. now contradict Hne.
    + split; [exact Hfin |]. split; [lia | exact Herr].
  - assert (Hsh : shl_align m e f = (m, e)).
    { unfold shl_align. destruct (f - e) eqn:Hd; try reflexivity. lia. }
    rewrite Hsh.
    assert (Hexp : exp1 (Zpos m) e = f) by (unfold exp1; fold f; lia).
    destruct (round_aux_error s (Zpos m) e loc_Exact (F2Q (Zpos m) e))
      as (Hfin & Hexpo & Herr); try lia.
    + apply Qle_refl.
    + apply F2Q_lt_succ.
    + intros _. reflexivity.
    + intros _ Hne. now contradict Hne.
    + split; [exact Hfin |]. split; [lia | exact Herr].
Qed.

Lemma F2Q_cond_Zopp s m e :
  (F2Q (cond_Zopp s m) e == sgnQ s * F2Q m e)%Q.
Proof.
  unfold F2Q, sgnQ. destruct s; cbn [cond_Zopp].
  - rewrite inject_Z_opp. ring.
  - ring.
Qed.

Lemma F2Q_minus a b e : (F2Q (a - b) e == F2Q a e - F2Q b e)%Q.
Proof. unfold F2Q. unfold Z.sub. rewrite inject_Z_plus, inject_Z_opp. ring. Qed.

Lemma binary_normalize_error (m e k : Z) :
  (Qabs (F2Q m e) <= bpow k)%Q -> -125 <= k <= 126 ->
  let r := binary_normalize 24 128 m e false in
  B32.is_finite r = true /\
  expo r <= Z.max (k - 23) (-149) + 1 /\
  (Qabs (B32.to_Q r - F2Q m e) <= eps (Qabs (F2Q m e)))%Q.
Proof.
  intros Hv Hk r. subst r. destruct m as [| p | p]; cbn [binary_normalize].
  - split; [reflexivity |]. split; [cbn [expo]; lia |].
    assert (H0 : (F2Q 0 e == 0)%Q) by (unfold F2Q; ring).
    rewrite H0. cbn [B32.to_Q]. apply eps_nonneg. apply Qabs_nonneg.
  - assert (Hp : (0 <= F2Q (Zpos p) e)%Q) by (apply F2Q_nonneg; lia).
    rewrite (Qabs_pos _ Hp) in *.
    destruct (binary_round_error false p e k Hv Hk) as (Hfin & Hexpo & Herr).
    split; [exact Hfin |]. split; [exact Hexpo |].
    assert (Heq : (sgnQ false * F2Q (Zpos p) e == F2Q (Zpos p) e)%Q)
      by (unfold sgnQ; ring).
    now rewrite Heq in Herr.
  - assert (Hneg : (F2Q (Zneg p) e == - F2Q (Zpos p) e)%Q).
    { unfold F2Q. change (Zneg p) with (- Zpos p). rewrite inject_Z_opp. ring. }
    assert (Hp : (0 <= F2Q (Zpos p) e)%Q) by (apply F2Q_nonneg; lia).
    assert (Habs : (Qabs (F2Q (Zneg p) e) == F2Q (Zpos p) e)%Q).
    { rewrite Hneg, Qabs_opp. now apply Qabs_pos. }
    rewrite Habs in *.
    destruct (binary_round_error true p e k Hv Hk) as (Hfin & Hexpo & Herr).
    split; [exact Hfin |]. split; [exact Hexpo |].
    assert (Heq : (sgnQ true * F2Q (Zpos p) e == F2Q (Zneg p) e)%Q)
      by (rewrite Hneg; unfold sgnQ; ring).
    now rewrite Heq in Herr.
Qed.

Lemma SFsub_error (x y : B32.t) (k : Z) :
  B32.is_finite x = true -> B32.is_finite y = true ->
  (Qabs (B32.to_Q x - B32.to_Q y) <= bpow k)%Q -> -125 <= k <= 126 ->
  let r := fsub x y in
  B32.is_finite r = true /\
  expo r <= Z.max (Z.max (expo x) (expo y)) (Z.max (k - 23) (-149) + 1) /\
  (Qabs (B32.to_Q r - (B32.to_Q x - B32.to_Q y))
   <= eps (Qabs (B32.to_Q x - B32.to_Q y)))%Q.
Proof.
  intros Hx Hy Hv Hk r. subst r.
  assert (Hzero : forall v : Q, (Qabs (v - v) <= eps (Qabs v))%Q).
  { intros v. assert (H0 : (v - v == 0)%Q) by ring. rewrite H0.
    apply eps_nonneg, Qabs_nonneg. }
  destruct x as [sx | sx | | sx mx ex]; try discriminate;
    destruct y as [sy | sy | | sy my ey]; try discriminate;
    cbn [fsub binary32 SFsub].
  - split; [now destruct sx, sy |]. split; [destruct sx, sy; cbn [expo]; lia |].
    assert (H0 : (B32.to_Q (if sx then if sy then S754_zero false else S754_zero true
                            else if sy then S754_zero false else S754_zero false) == 0)%Q)
      by now destruct sx, sy.
    destruct sx, sy; cbn [B32.to_Q]; apply (Hzero 0%Q).
  - split; [reflexivity |]. split; [cbn [expo]; lia |].
    rewrite !to_Q_finite. cbn [B32.to_Q].
    assert (H1 : (sgnQ (negb sy) * F2Q (Zpos my) ey - (0 - sgnQ sy * F2Q (Zpos my) ey) == 0)%Q)
      by (destruct sy; unfold sgnQ; cbn [negb]; ring).
    rewrite H1. apply eps_nonneg, Qabs_nonneg.
  - split; [reflexivity |]. split; [cbn [expo]; lia |].
    set (v := B32.to_Q (S754_finite sx mx ex)).
    change (B32.to_Q (S754_zero sy)) with 0%Q.
    assert (H1 : (v - (v - 0) == 0)%Q) by ring.
    rewrite H1. apply eps_nonneg, Qabs_nonneg.
  - set (ez := Z.min ex ey).
    destruct (shl_align_spec mx ex ez ltac:(lia)) as [_ Hmx].
    destruct (shl_align_spec my ey ez ltac:(lia)) as [_ Hmy].
    set (M := cond_Zopp sx (Zpos (fst (shl_align mx ex ez))) -
              cond_Zopp sy (Zpos (fst (shl_align my ey ez)))).
    assert (HM : (F2Q M ez == B32.to_Q (S754_finite sx mx ex)
                              - B32.to_Q (S754_finite sy my ey))%Q).
    { unfold M. rewrite F2Q_minus, !F2Q_cond_Zopp, Hmx, Hmy.
      rewrite !F2Q_shift by lia. rewrite !to_Q_finite.
      replace (ez + (ex - ez)) with ex by lia.
      replace (ez + (ey - ez)) with ey by lia. reflexivity. }
    rewrite <- HM in *.
    change (binary_normalize B32.prec B32.emax M ez false)
      with (binary_normalize 24 128 M ez false).
    destruct (binary_normalize_error M ez k Hv Hk) as (Hfin & Hexpo & Herr).
    split; [exact Hfin |]. split; [lia | exact Herr].
Qed.

(** *** The error of the round trip, over the rationals *)

Section RationalBounds.

#[local] Open Scope Q_scope.


Lemma Qabs_le_mult x y A B : Qabs x <= A -> Qabs y <= B -> Qabs (x * y) <= A * B.
Proof.
  intros Hx Hy. rewrite Qabs_Qmult.
  apply Qmult_le_compat_nonneg; split; try apply Qabs_nonneg; assumption.
Qed.

Lemma Qabs_le_plus x y A B : Qabs x <= A -> Qabs y <= B -> Qabs (x + y) <= A + B.
Proof.
  intros Hx Hy. eapply Qle_trans; [apply Qabs_triangle |]. lra.
Qed.

Lemma Qabs_le_of_diff x y r : Qabs (x - y) <= r -> Qabs x <= Qabs y + r.
Proof.
  intros H. assert (Heq : x == (x - y) + y) by ring.
  rewrite Heq at 1. eapply Qle_trans; [apply Qabs_triangle |]. lra.
Qed.

Lemma recip_bounds a b : 1 # 72 <= a -> a <= 34 -> a * b == 1 -> (1 # 34) <= b /\ b <= 72.
Proof.
  intros Ha1 Ha2 Hab. split; nra.
Qed.

Lemma scales_bound a b S1 S2 :
  1 # 72 <= a -> a <= 34 -> a * b == 1 ->
  Qabs (S1 - a) <= (1 # 8388608) * a + (1 # 1267650600228229401496703205376) ->
  Qabs (S2 - b) <= (1 # 8388608) * b + (1 # 1267650600228229401496703205376) ->
  Qabs S1 <= 35 /\ Qabs S2 <= 73 /\ Qabs (S1 * S2 - 1) <= (2 # 8388608) + (1 # 10000000000000).
Proof.
  intros Ha1 Ha2 Hab H1 H2.
  destruct (recip_bounds a b Ha1 Ha2 Hab) as [Hb1 Hb2].
  assert (HS1 : Qabs S1 <= Qabs a + ((1 # 8388608) * a + (1 # 1267650600228229401496703205376)))
    by now apply Qabs_le_of_diff.
  assert (HS2 : Qabs S2 <= Qabs b + ((1 # 8388608) * b + (1 # 1267650600228229401496703205376)))
    by now apply Qabs_le_of_diff.
  rewrite (Qabs_pos a) in HS1 by lra. rewrite (Qabs_pos b) in HS2 by lra.
  split; [lra |]. split; [lra |].
  assert (Heq : S1 * S2 - 1 == (S1 - a) * S2 + a * (S2 - b)) by lra.
  rewrite Heq.
  pose proof (Qabs_le_mult _ _ _ _ H1 HS2) as P1.
  assert (Ha : Qabs a <= a) by (rewrite Qabs_pos; lra).
  pose proof (Qabs_le_mult _ _ _ _ Ha H2) as P2.
  pose proof (Qabs_le_plus _ _ _ _ P1 P2) as P3.
  eapply Qle_trans; [exact P3 |]. nra.
Qed.

Lemma chain_first X S1 B :
  Qabs X <= B -> B <= 1201 -> Qabs S1 <= 35 -> Qabs (X * S1) <= 65536.
Proof.
  intros HX HB HS1.
  assert (HB0 : 0 <= B) by (eapply Qle_trans; [apply Qabs_nonneg | exact HX]).
  pose proof (Qabs_le_mult _ _ _ _ HX HS1) as HW. abs_lra.
Qed.

Lemma chain_second X X1 S1 S2 B :
  Qabs X <= B -> B <= 1201 ->
  Qabs S2 <= 73 ->
  Qabs (S1 * S2 - 1) <= (2 # 8388608) + (1 # 10000000000000) ->
  Qabs (X1 - X * S1)
    <= (1 # 8388608) * Qabs (X * S1) + (1 # 1267650600228229401496703205376) ->
  Qabs (X1 * S2 - X)
    <= (1 # 8388608) * (B * (1 + ((2 # 8388608) + (1 # 10000000000000))))
       + (73 # 1267650600228229401496703205376)
       + B * ((2 # 8388608) + (1 # 10000000000000)) /\
  Qabs (X1 * S2) <= 65536.
Proof.
  intros HX HB HS2 HP H1.
  assert (HB0 : 0 <= B) by (eapply Qle_trans; [apply Qabs_nonneg | exact HX]).
  assert (HPa : Qabs (S1 * S2) <= 1 + ((2 # 8388608) + (1 # 10000000000000))).
  { apply Qabs_le_of_diff in HP. exact HP. }
  pose proof (Qabs_le_mult _ _ _ _ HX HPa) as HXP.
  pose proof (Qabs_le_mult _ _ _ _ HX HP) as HXP1.
  assert (A3 : Qabs (X * S1) * Qabs S2 == Qabs (X * (S1 * S2))).
  { rewrite <- Qabs_Qmult. apply Qabs_wd. ring. }
  assert (A2 : Qabs ((X1 - X * S1) * S2)
               <= (1 # 8388608) * (Qabs (X * S1) * Qabs S2)
                  + (1 # 1267650600228229401496703205376) * Qabs S2).
  { rewrite Qabs_Qmult.
    eapply Qle_trans;
      [apply Qmult_le_compat_r; [exact H1 | apply Qabs_nonneg] |].
    apply Qle_lteq; right; ring. }
  rewrite A3 in A2. clear A3.
  pose proof (Qabs_nonneg S2) as HS20.
  assert (Hd : Qabs (X1 * S2 - X)
               <= (1 # 8388608) * (B * (1 + ((2 # 8388608) + (1 # 10000000000000))))
                  + (73 # 1267650600228229401496703205376)
                  + B * ((2 # 8388608) + (1 # 10000000000000))).
  { assert (Heq : X1 * S2 - X == (X1 - X * S1) * S2 + X * (S1 * S2 - 1)) by ring.
    rewrite Heq. eapply Qle_trans; [apply Qabs_triangle |].
    clear - A2 HXP HXP1 HS2 HS20 HB0. abs_lra. }
  split; [exact Hd |].
  apply Qabs_le_of_diff in Hd. clear - Hd HX HB HB0. abs_lra.
Qed.

Lemma chain_bound X X1 X2 S1 S2 B :
  Qabs X <= B -> B <= 1201 ->
  Qabs S2 <= 73 ->
  Qabs (S1 * S2 - 1) <= (2 # 8388608) + (1 # 10000000000000) ->
  Qabs (X1 - X * S1)
    <= (1 # 8388608) * Qabs (X * S1) + (1 # 1267650600228229401496703205376) ->
  Qabs (X2 - X1 * S2)
    <= (1 # 8388608) * Qabs (X1 * S2) + (1 # 1267650600228229401496703205376) ->
  Qabs (X2 - X) <= (4 # 8388608) * B + (1 # 1000000000).
Proof.
  intros HX HB HS2 HP H1 H2.
  assert (HB0 : 0 <= B) by (eapply Qle_trans; [apply Qabs_nonneg | exact HX]).
  destruct (chain_second X X1 S1 S2 B HX HB HS2 HP H1) as [Hd _].
  pose proof (Qabs_le_of_diff _ _ _ Hd) as HV.
  assert (Heq : X2 - X == (X2 - X1 * S2) + (X1 * S2 - X)) by ring.
  rewrite Heq. eapply Qle_trans; [apply Qabs_triangle |].
  clear - Hd HV H2 HX HB HB0. abs_lra.
Qed.

Lemma y_chain_first H Y T U :
  0 <= Y -> Y <= H -> H <= 1200 ->
  Qabs (T - (H - Y))
    <= (1 # 8388608) * Qabs (H - Y) + (1 # 1267650600228229401496703205376) ->
  Qabs (U - T) <= (4 # 8388608) * 1201 + (1 # 1000000000) ->
  Qabs (H - U) <= Y + (2 # 1000) /\ Qabs (H - U) <= 2048.
Proof.
  intros HY0 HYH HH HT HU.
  rewrite (Qabs_pos (H - Y)) in HT by lra.
  assert (HHU : Qabs (H - U) <= Y + (2 # 1000)).
  { assert (Heq : H - U == Y + (- (T - (H - Y)) + - (U - T))) by ring.
    rewrite Heq. eapply Qle_trans; [apply Qabs_triangle |].
    rewrite (Qabs_pos Y) by lra.
    eapply Qle_trans; [apply Qplus_le_r, Qabs_triangle |].
    rewrite !Qabs_opp. abs_lra. }
  split; [exact HHU | lra].
Qed.

Lemma y_chain_bound H Y T U Y2 :
  0 <= Y -> Y <= H -> H <= 1200 ->
  Qabs (T - (H - Y))
    <= (1 # 8388608) * Qabs (H - Y) + (1 # 1267650600228229401496703205376) ->
  Qabs (U - T) <= (4 # 8388608) * 1201 + (1 # 1000000000) ->
  Qabs (Y2 - (H - U))
    <= (1 # 8388608) * Qabs (H - U) + (1 # 1267650600228229401496703205376) ->
  Qabs (Y2 - Y) <= 1 # 1000.
Proof.
  intros HY0 HYH HH HT HU HY2.
  destruct (y_chain_first H Y T U HY0 HYH HH HT HU) as [HHU _].
  rewrite (Qabs_pos (H - Y)) in HT by lra.
  assert (Heq : Y2 - Y == (Y2 - (H - U)) + (- (T - (H - Y)) + - (U - T))) by ring.
  rewrite Heq. eapply Qle_trans; [apply Qabs_triangle |].
  eapply Qle_trans; [apply Qplus_le_r, Qabs_triangle |].
  rewrite !Qabs_opp. abs_lra.
Qed.

Lemma t_bound H Y T :
  0 <= Y -> Y <= H -> H <= 1200 ->
  Qabs (T - (H - Y))
    <= (1 # 8388608) * Qabs (H - Y) + (1 # 1267650600228229401496703205376) ->
  Qabs T <= 1201.
Proof.
  intros HY0 HYH HH HT. apply Qabs_le_of_diff in HT.
  rewrite (Qabs_pos (H - Y)) in HT by lra. abs_lra.
Qed.

End RationalBounds.

(** *** Valid binary32 numbers *)


Lemma b32_between_spec lo hi x :
  b32_between lo hi x = true ->
  valid_binary 24 128 x = true /\ B32.is_finite x = true /\
  (lo <= B32.to_Q x)%Q /\ (B32.to_Q x <= hi)%Q.
Proof.
  unfold b32_between. rewrite !andb_true_iff, !Qle_bool_iff. tauto.
Qed.

Lemma eps_le v :
  (0 <= v)%Q ->
  (eps v <= (1 # 8388608) * v + (1 # 1267650600228229401496703205376))%Q.
Proof.
  intros Hv. unfold eps.
  assert (H1 : (bpow (-23) == 1 # 8388608)%Q) by reflexivity.
  assert (H2 : (bpow (-149) <= 1 # 1267650600228229401496703205376)%Q)
    by (vm_compute; discriminate).
  rewrite H1. lra.
Qed.

Lemma valid_canonical s m e :
  valid_binary 24 128 (S754_finite s m e) = true ->
  fexp32 (Zdigits2 (Zpos m) + e) = e.
Proof.
  cbn [valid_binary]. unfold bounded, canonical_mantissa.
  rewrite andb_true_iff, Z.eqb_eq. intros [Hc _]. exact Hc.
Qed.

Lemma valid_expo x k :
  valid_binary 24 128 x = true ->
  (Qabs (B32.to_Q x) <= bpow k)%Q -> -125 <= k ->
  expo x <= Z.max (k - 23) (-149).
Proof.
  intros Hv Hx Hk. destruct x as [s | s | | s m e]; cbn [expo]; try lia.
  apply valid_canonical in Hv.
  rewrite to_Q_finite, Qabs_sgnQ_mult in Hx by (apply F2Q_nonneg; lia).
  pose proof (digits_of_value (Zpos m) e k ltac:(lia) Hx).
  unfold fexp32 in Hv. lia.
Qed.

Lemma F2Q_lt_digits m e :
  0 < m -> (F2Q m e < bpow (Zdigits2 m + e))%Q.
Proof.
  intros Hm. pose proof (Zdigits2_bounds m Hm) as [_ Hhi].
  pose proof (Zdigits2_nonneg m) as Hd.
  rewrite bpow_add, <- bpow_Z by lia. unfold F2Q.
  apply Qmult_lt_compat_r; [apply bpow_pos |]. now rewrite <- Zlt_Qlt.
Qed.

Lemma valid_normal s m e :
  valid_binary 24 128 (S754_finite s m e) = true ->
  (1 <= F2Q (Zpos m) e)%Q ->
  Zpos (digits2_pos m) = 24 /\ -23 <= e.
Proof.
  intros Hv Hx. apply valid_canonical in Hv.
  pose proof (F2Q_lt_digits (Zpos m) e ltac:(lia)) as Hlt.
  assert (H0 : (bpow 0 < bpow (Zdigits2 (Zpos m) + e))%Q).
  { eapply Qle_lt_trans; [| exact Hlt]. exact Hx. }
  apply bpow_lt_inv in H0. unfold fexp32 in Hv. cbn [Zdigits2] in *. lia.
Qed.

Lemma positive_float (d : B32.t) :
  (1 <= B32.to_Q d)%Q ->
  exists m e, d = S754_finite false m e /\ (B32.to_Q d == F2Q (Zpos m) e)%Q.
Proof.
  intros Hd. destruct d as [s | s | | s m e];
    try (exfalso; cbn [B32.to_Q] in Hd; lra).
  pose proof (to_Q_finite s m e) as Hq.
  pose proof (F2Q_nonneg (Zpos m) e ltac:(lia)) as H0.
  destruct s.
  - exfalso. rewrite Hq in Hd. unfold sgnQ in Hd. lra.
  - exists m, e. split; [reflexivity |]. rewrite Hq. unfold sgnQ. ring.
Qed.

(** *** The two scales *)

Lemma scales_b32 (d : B32.t) :
  b32_between 1 2400 d = true ->
  let s1 := fdiv d (of_int 72) in
  let s2 := fdiv (of_int 72) d in
  B32.is_finite s1 = true /\ B32.is_finite s2 = true /\
  expo s1 <= -16 /\ expo s2 <= -16 /\
  (Qabs (B32.to_Q s1) <= 35)%Q /\ (Qabs (B32.to_Q s2) <= 73)%Q /\
  (Qabs (B32.to_Q s1 * B32.to_Q s2 - 1)
   <= (2 # 8388608) + (1 # 10000000000000))%Q.
Proof.
  intros Hd s1 s2. subst s1 s2.
  apply b32_between_spec in Hd as (Hv & _ & Hlo & Hhi).
  destruct (positive_float d Hlo) as (m & e & -> & Hq).
  rewrite Hq in Hlo, Hhi.
  destruct (valid_normal false m e Hv Hlo) as [Hdig He].
  assert (He2 : e <= -11).
  { pose proof (valid_expo (S754_finite false m e) 12 Hv) as Hx.
    cbn [expo] in Hx. rewrite Hq in Hx.
    rewrite Qabs_pos in Hx by lra.
    assert (H4096 : (bpow 12 == 4096)%Q) by reflexivity.
    rewrite H4096 in Hx. specialize (Hx ltac:(lra) ltac:(lia)). lia. }
  change (of_int 72) with (S754_finite false 9437184 (-17)).
  assert (H72 : (B32.to_Q (S754_finite false 9437184 (-17)) == 72)%Q)
    by reflexivity.
  destruct (SFdiv_error false false m 9437184 e (-17) Hdig eq_refl ltac:(lia))
    as (Hf1 & He1 & Hr1).
  destruct (SFdiv_error false false 9437184 m (-17) e eq_refl Hdig ltac:(lia))
    as (Hf2 & He2' & Hr2).
  set (s1 := fdiv (S754_finite false m e) (S754_finite false 9437184 (-17))) in *.
  set (s2 := fdiv (S754_finite false 9437184 (-17)) (S754_finite false m e)) in *.
  rewrite H72, Hq in Hr1, Hr2.
  set (c := F2Q (Zpos m) e) in *.
  assert (Ha : (c / 72 == c * (1 # 72))%Q) by (field; discriminate).
  assert (Hc0 : ~ (c == 0)%Q) by lra.
  assert (Hb0 : (0 < 72 / c)%Q) by (apply Qlt_shift_div_l; lra).
  assert (Hab : (c / 72 * (72 / c) == 1)%Q) by (field; exact Hc0).
  assert (Ha1 : (1 # 72 <= c / 72)%Q) by (rewrite Ha; lra).
  assert (Ha2 : (c / 72 <= 34)%Q) by (rewrite Ha; lra).
  assert (Ha0 : (0 <= c / 72)%Q) by (rewrite Ha; lra).
  assert (Hb0' : (0 <= 72 / c)%Q) by now apply Qlt_le_weak.
  rewrite (Qabs_pos (c / 72)) in Hr1 by exact Ha0.
  rewrite (Qabs_pos (72 / c)) in Hr2 by exact Hb0'.
  pose proof (eps_le (c / 72) Ha0) as E1.
  pose proof (eps_le (72 / c) Hb0') as E2.
  destruct (scales_bound (c / 72) (72 / c) (B32.to_Q s1) (B32.to_Q s2)
              Ha1 Ha2 Hab (Qle_trans _ _ _ Hr1 E1) (Qle_trans _ _ _ Hr2 E2))
    as (B1 & B2 & B3).
  split; [exact Hf1 |]. split; [exact Hf2 |].
  split; [eapply Z.le_trans; [exact He1 | lia] |].
  split; [eapply Z.le_trans; [exact He2' | lia] |].
  split; [exact B1 |]. split; [exact B2 | exact B3].
Qed.

(** *** Scaling there and back *)

Lemma scale_round_trip_b32 (x s1 s2 : B32.t) (B : Q) :
  B32.is_finite x = true -> B32.is_finite s1 = true -> B32.is_finite s2 = true ->
  expo x <= -6 -> expo s1 <= -16 -> expo s2 <= -16 ->
  (Qabs (B32.to_Q x) <= B)%Q -> (B <= 1201)%Q ->
  (Qabs (B32.to_Q s1) <= 35)%Q -> (Qabs (B32.to_Q s2) <= 73)%Q ->
  (Qabs (B32.to_Q s1 * B32.to_Q s2 - 1)
   <= (2 # 8388608) + (1 # 10000000000000))%Q ->
  let r := fmul (fmul x s1) s2 in
  B32.is_finite r = true /\ expo r <= -6 /\
  (Qabs (B32.to_Q r - B32.to_Q x) <= (4 # 8388608) * B + (1 # 1000000000))%Q.
Proof.
  intros Hfx Hf1 Hf2 Hex He1 He2 HX HB HS1 HS2 HP r. subst r.
  assert (H16 : (bpow 16 == 65536)%Q) by reflexivity.
  pose proof (chain_first _ _ _ HX HB HS1) as HW.
  destruct (SFmul_error x s1 Hfx Hf1 ltac:(lia) ltac:(now rewrite H16))
    as (Hfa & Hea & Hra).
  set (x1 := fmul x s1) in *.
  pose proof (eps_le _ (Qabs_nonneg (B32.to_Q x * B32.to_Q s1))) as E1.
  assert (H1 := Qle_trans _ _ _ Hra E1).
  destruct (chain_second _ _ _ _ _ HX HB HS2 HP H1) as [_ HV].
  destruct (SFmul_error x1 s2 Hfa Hf2 ltac:(lia) ltac:(now rewrite H16))
    as (Hfb & Heb & Hrb).
  pose proof (eps_le _ (Qabs_nonneg (B32.to_Q x1 * B32.to_Q s2))) as E2.
  assert (H2 := Qle_trans _ _ _ Hrb E2).
  split; [exact Hfb |]. split; [lia |].
  exact (chain_bound _ _ _ _ _ _ HX HB HS2 HP H1 H2).
Qed.

Lemma b32_close_intro tol a b :
  B32.is_finite a = true -> B32.is_finite b = true ->
  (Qabs (B32.to_Q a - B32.to_Q b) <= tol)%Q ->
  b32_close tol a b = true.
Proof.
  intros Ha Hb Hd. unfold b32_close. rewrite Ha, Hb. cbn [andb].
  now apply Qle_bool_iff.
Qed.

Lemma page_expo x lo hi :
  b32_between lo hi x = true -> (-1200 <= lo)%Q -> (hi <= 1200)%Q ->
  expo x <= -12.
Proof.
  intros Hx Hlo Hhi. apply b32_between_spec in Hx as (Hv & _ & H1 & H2).
  pose proof (valid_expo x 11 Hv) as He.
  assert (H2048 : (bpow 11 == 2048)%Q) by reflexivity.
  rewrite H2048 in He.
  assert (Habs : (Qabs (B32.to_Q x) <= 2048)%Q) by (apply Qabs_Qle_condition; lra).
  specialize (He Habs ltac:(lia)). lia.
Qed.


(** ** Geometry: coordinate transforms *)

(** Every whole-point position of a 612 x 792 point page, at each of
    the five preset resolutions, evaluated in binary32. *)
Lemma letter_round_trip_checked :
  forallb (fun q => forallb (close_x (quality_dpi q) 792) (seqZ 0 613) &&
                    forallb (close_y (quality_dpi q) 792) (seqZ 0 793))
    [Draft; Low; Medium; High; VeryHigh] = true.
Proof. vm_compute. reflexivity. Qed.

(** The binary32 round trip on a page.  For valid binary32 numbers with
    [|x| <= 1200], [0 <= y <= h <= 1200] and [1 <= d <= 2400] every
    intermediate result is finite, and each of the four roundings on the
    way of x (two divisions, two products), respectively six on the way
    of y (two subtractions more), adds at most one unit in the last
    place: the result is within [6 * 2^-23 * 1201 < 0.001] of the
    coordinate. *)
Lemma round_trip_b32 (x y h d : B32.t) :
  b32_between (-1200) 1200 x = true ->
  b32_between 0 1200 h = true ->
  b32_between 0 (B32.to_Q h) y = true ->
  b32_between 1 2400 d = true ->
  let p' := pixel_to_page (page_to_pixel (mkPoint x y) d h) d h in
  b32_close (1 # 1000) (px p') x = true /\
  b32_close (1 # 1000) (py p') y = true.
Proof.
  intros Hx Hh Hy Hd p'. subst p'.
  unfold pixel_to_page, page_to_pixel. cbn [px py].
  destruct (scales_b32 d Hd) as (Hf1 & Hf2 & He1 & He2 & HS1 & HS2 & HP).
  set (s1 := fdiv d (of_int 72)) in *. set (s2 := fdiv (of_int 72) d) in *.
  pose proof (page_expo x _ _ Hx ltac:(lra) ltac:(lra)) as Hex.
  pose proof (page_expo h _ _ Hh ltac:(lra) ltac:(lra)) as Heh.
  apply b32_between_spec in Hx as (_ & Hfx & Hx1 & Hx2).
  pose proof Hh as Hh'. apply b32_between_spec in Hh' as (_ & Hfh & Hh1 & Hh2).
  pose proof (page_expo y _ _ Hy ltac:(lra) ltac:(lra)) as Hey.
  apply b32_between_spec in Hy as (_ & Hfy & Hy1 & Hy2).
  assert (H11 : (bpow 11 == 2048)%Q) by reflexivity.
  split.
  - assert (HX : (Qabs (B32.to_Q x) <= 1200)%Q) by (apply Qabs_Qle_condition; lra).
    destruct (scale_round_trip_b32 x s1 s2 1200 Hfx Hf1 Hf2 ltac:(lia) He1 He2
                HX ltac:(lra) HS1 HS2 HP) as (Hfr & _ & Hr).
    apply b32_close_intro; [exact Hfr | exact Hfx |].
    eapply Qle_trans; [exact Hr | lra].
  - set (H := B32.to_Q h) in *. set (Y := B32.to_Q y) in *.
    assert (HHY : (Qabs (H - Y) <= bpow 11)%Q).
    { rewrite H11. apply Qabs_Qle_condition. lra. }
    destruct (SFsub_error h y 11 Hfh Hfy HHY ltac:(lia)) as (Hft & Het & Hrt).
    set (t := fsub h y) in *.
    pose proof (eps_le _ (Qabs_nonneg (H - Y))) as E1.
    assert (HT := Qle_trans _ _ _ Hrt E1).
    pose proof (t_bound H Y (B32.to_Q t) Hy1 Hy2 Hh2 HT) as HTb.
    destruct (scale_round_trip_b32 t s1 s2 1201 Hft Hf1 Hf2 ltac:(lia) He1 He2
                HTb ltac:(lra) HS1 HS2 HP) as (Hfu & Heu & Hru).
    set (u := fmul (fmul t s1) s2) in *.
    destruct (y_chain_first H Y (B32.to_Q t) (B32.to_Q u) Hy1 Hy2 Hh2 HT Hru)
      as [_ HHU].
    rewrite <- H11 in HHU.
    destruct (SFsub_error h u 11 Hfh Hfu HHU ltac:(lia)) as (Hfr & _ & Hrr).
    pose proof (eps_le _ (Qabs_nonneg (H - B32.to_Q u))) as E2.
    assert (HY2 := Qle_trans _ _ _ Hrr E2).
    apply b32_close_intro; [exact Hfr | exact Hfy |].
    exact (y_chain_bound H Y (B32.to_Q t) (B32.to_Q u) _ Hy1 Hy2 Hh2 HT Hru HY2).
Qed.

(** C4, as amended.  In exact arithmetic the two transforms are inverse to
    each other, Y flip included, at every point, page height and
    resolution other than 0: the round trip returns the point itself.  In
    binary32 the round trip stays within 0.001 for every point on a page
    of up to 1200 points ([|x| <= 1200], [0 <= y <= h <= 1200]) at every
    resolution from 1 to 2400 dpi. *)
Theorem pixel_to_page_to_pixel_round_trip :
  (forall (p : Point Q) (d h : Q),
     ~ (d == 0)%Q ->
     let p' := pixel_to_page (page_to_pixel p d h) d h in
     (px p' == px p)%Q /\ (py p' == py p)%Q) /\
  (forall x y h d : B32.t,
     b32_between (-1200) 1200 x = true ->
     b32_between 0 1200 h = true ->
     b32_between 0 (B32.to_Q h) y = true ->
     b32_between 1 2400 d = true ->
     let p := mkPoint x y in
     let p' := pixel_to_page (page_to_pixel p d h) d h in
     b32_close (1 # 1000) (px p') (px p) = true /\
     b32_close (1 # 1000) (py p') (py p) = true).
Proof.
  split.
  - intros p d h Hd p'. subst p'. unfold pixel_to_page, page_to_pixel. simpl.
    split; field; exact Hd.
  - intros x y h d Hx Hh Hy Hd p p'. subst p p'. cbn [px py].
    exact (round_trip_b32 x y h d Hx Hh Hy Hd).
Qed.

(** The exact round trip at the point where binary32 leaves the
    tolerance, and the binary32 round trip of the point (611.5, 0.25) on
    a 612 x 792 point page at 150 dpi. *)
Lemma pixel_to_page_to_pixel_round_trip_witness :
  (let p' := pixel_to_page (F:=Q)
               (page_to_pixel (mkPoint 15731%Q 0%Q) 150%Q 792%Q) 150%Q 792%Q in
   (px p' == 15731)%Q /\ (py p' == 0)%Q) /\
  (let d := B32.of_Z 150 in
   let h := B32.of_Z 792 in
   let p := mkPoint (B32.of_scaled 1223 (-1)) (B32.of_scaled 1 (-2)) in
   let p' := pixel_to_page (page_to_pixel p d h) d h in
   b32_close (1 # 1000) (px p') (px p) = true /\
   b32_close (1 # 1000) (py p') (py p) = true).
Proof.
  destruct pixel_to_page_to_pixel_round_trip as [Hexact Hb32]. split.
  - apply (Hexact (mkPoint 15731%Q 0%Q) 150%Q 792%Q). discriminate.
  - apply (Hb32 (B32.of_scaled 1223 (-1)) (B32.of_scaled 1 (-2))
             (B32.of_Z 792) (B32.of_Z 150)); vm_compute; reflexivity.
Defined.

(** C4, as stated, fails in binary32.  The point (15731, 0), the
    resolution 150 and the page height 792 are finite and positive.
    The scale [150 / 72] rounds to 2.08333325..., the pixel x to
    32772.9140625, and the way back returns x = 15730.998046875, which is
    not within 0.001 of 15731. *)
Lemma pixel_to_page_to_pixel_binary32 :
  let p := mkPoint (B32.of_Z 15731) (B32.of_Z 0) in
  let d := B32.of_Z 150 in
  let h := B32.of_Z 792 in
  let q := page_to_pixel p d h in
  let p' := pixel_to_page q d h in
  B32.is_finite (px p) = true /\ B32.is_finite (py p) = true /\
  fltb (B32.of_Z 0) d = true /\ fltb (B32.of_Z 0) h = true /\
  (B32.to_Q (fdiv d (B32.of_Z 72)) == 8738133 # 4194304)%Q /\
  (B32.to_Q (px q) == 8389866 # 256)%Q /\
  (B32.to_Q (px p') == 8054271 # 512)%Q /\
  b32_close (1 # 1000) (px p') (px p) = false.
Proof. repeat split; vm_compute; reflexivity. Qed.

(** ** Tiling *)

Lemma Qltb_lt (a b : Q) : Qltb a b = true <-> (a < b)%Q.
Proof.
  unfold Qltb. rewrite Qlt_alt. destruct (a ?= b)%Q; split; congruence.
Qed.

Lemma Qltb_ge (a b : Q) : negb (Qltb a b) = true <-> (b <= a)%Q.
Proof.
  rewrite negb_true_iff, <- not_true_iff_false, Qltb_lt.
  split; [apply Qnot_lt_le | apply Qle_not_lt].
Qed.

Lemma Zle_Qfloor (a : Z) (x : Q) : (inject_Z a <= x)%Q <-> a <= Qfloor x.
Proof.
  split; intros Ha.
  - rewrite <- (Qfloor_Z a). now apply Qfloor_resp_le.
  - apply Qle_trans with (inject_Z (Qfloor x)); [| apply Qfloor_le].
    now rewrite <- Zle_Qle.
Qed.

Lemma Qfloor_lt_iff (x : Q) (b : Z) : (x < inject_Z b)%Q <-> Qfloor x < b.
Proof.
  split; [apply Qfloor_below |]. intros Hb.
  apply Qlt_le_trans with (inject_Z (Qfloor x + 1)); [apply Qlt_floor |].
  rewrite <- Zle_Qle. lia.
Qed.

Lemma in_rect_whole (a b c d : Z) (x y : Q) :
  in_rect (mkRect (inject_Z a) (inject_Z b) (inject_Z c) (inject_Z d)) x y = true
  <-> a <= Qfloor x < c /\ b <= Qfloor y < d.
Proof.
  unfold in_rect. simpl x0. simpl x1. simpl y0. simpl y1. 
  change (@fltb Q exactQ) with Qltb.
  rewrite !andb_true_iff, !Qltb_ge, !Qltb_lt, !Zle_Qfloor, !Qfloor_lt_iff.
  tauto.
Qed.

Lemma Qceiling_div (W tw : Z) :
  0 < tw -> Qceiling (inject_Z W / inject_Z tw) = ceil_div W tw.
Proof.
  destruct tw as [| p | p]; try lia. intros _.
  unfold ceil_div, Qceiling, Qfloor, Qdiv, Qmult, Qinv, Qopp, inject_Z. simpl.
  now rewrite Z.mul_1_r.
Qed.

Lemma cdiv_bounds (W tw : Z) :
  0 < tw -> W <= ceil_div W tw * tw < W + tw.
Proof.
  intros Htw. unfold ceil_div. pose proof (Z.div_mod (- W) tw ltac:(lia)).
  pose proof (Z.mod_pos_bound (- W) tw Htw). nia.
Qed.

Section WholePages.

Variable backend : option (Engine Q).
Variable pg : Page.
Variables W Hh tw th : Z.
Hypothesis Hwidth : (Page_width backend pg == inject_Z W)%Q.
Hypothesis Hheight : (Page_height backend pg == inject_Z Hh)%Q.
Hypothesis HW : 0 <= W.
Hypothesis HH : 0 <= Hh.
Hypothesis Htw : 1 <= tw.
Hypothesis Hth : 1 <= th.
Hypothesis HWmax : W + tw <= Int32.INT_MAX.
Hypothesis HHmax : Hh + th <= Int32.INT_MAX.

Abbreviation cols := (ceil_div W tw).
Abbreviation rows := (ceil_div Hh th).

Lemma to_int_whole (q : Q) (z : Z) :
  (q == inject_Z z)%Q -> 0 <= z <= Int32.INT_MAX -> to_int q = z.
Proof.
  intros Hq Hz. rewrite to_int_floor.
  - now rewrite Hq, Qfloor_Z.
  - rewrite Hq. change 0%Q with (inject_Z 0). rewrite <- Zle_Qle. lia.
  - rewrite Hq, <- Zlt_Qlt. unfold Int32.INT_MAX in Hz. lia.
Qed.

Lemma tile_count (q : Q) (D t : Z) :
  (q == inject_Z D)%Q -> 0 <= D -> 1 <= t -> D + t <= Int32.INT_MAX ->
  to_int (fceil (fdiv q (of_int t))) = ceil_div D t.
Proof.
  intros Hq HD Ht Hmax.
  pose proof (cdiv_bounds D t ltac:(lia)) as Hb.
  apply to_int_whole.
  - simpl. rewrite Hq. now rewrite Qceiling_div by lia.
  - nia.
Qed.

Abbreviation grid_tile := (whole_tile W Hh tw th).

Lemma make_tile_whole (row col : Z) :
  0 <= row < rows -> 0 <= col < cols ->
  make_tile (Page_width backend pg) (Page_height backend pg) tw th row col
  = grid_tile row col.
Proof.
  intros Hr Hc. unfold make_tile, whole_tile.
  pose proof (cdiv_bounds W tw ltac:(lia)) as Hbw.
  pose proof (cdiv_bounds Hh th ltac:(lia)) as Hbh.
  rewrite (to_int_whole _ W Hwidth) by lia.
  rewrite (to_int_whole _ Hh Hheight) by lia.
  unfold Int32.mul, Int32.add.
  assert (HI : Int32.INT_MIN <= 0) by (unfold Int32.INT_MIN; lia).
  rewrite !(Int32_wrap_small (col + 1)), !(Int32_wrap_small (row + 1)) by nia.
  rewrite !Int32_wrap_small by nia.
  reflexivity.
Qed.

Lemma elem_of_calculate_tiles options t :
  t ∈ calculate_tiles backend (Some pg) tw th options <->
  exists row col, 0 <= row < rows /\ 0 <= col < cols /\ t = grid_tile row col.
Proof.
  unfold calculate_tiles.
  rewrite (tile_count _ W tw Hwidth), (tile_count _ Hh th Hheight) by lia.
  rewrite list_elem_of_bind. split.
  - intros (row & Ht & Hrow). apply list_elem_of_bind in Ht as (col & Ht & Hcol).
    apply elem_of_seqZ in Hrow, Hcol. apply list_elem_of_singleton in Ht.
    exists row, col. rewrite <- make_tile_whole by lia. repeat split; (lia || done).
  - intros (row & col & Hrow & Hcol & ->). exists row. split.
    + apply list_elem_of_bind. exists col. split.
      * apply list_elem_of_singleton. now rewrite make_tile_whole.
      * apply elem_of_seqZ. lia.
    + apply elem_of_seqZ. lia.
Qed.


Lemma in_rect_page_box (x y : Q) :
  in_rect (mkRect 0%Q 0%Q (Page_width backend pg) (Page_height backend pg)) x y
    = true
  <-> 0 <= Qfloor x < W /\ 0 <= Qfloor y < Hh.
Proof.
  rewrite <- in_rect_whole. unfold in_rect. simpl x0. simpl x1. simpl y0. simpl y1.
  change (@fltb Q exactQ) with Qltb.
  rewrite !andb_true_iff, !Qltb_ge, !Qltb_lt, Hwidth, Hheight. reflexivity.
Qed.

Lemma in_whole_tile (row col : Z) (x y : Q) :
  in_rect (page_rect (grid_tile row col)) x y = true <->
  col * tw <= Qfloor x < Z.min ((col + 1) * tw) W /\
  row * th <= Qfloor y < Z.min ((row + 1) * th) Hh.
Proof. apply in_rect_whole. Qed.

Lemma same_strip (t n a b : Z) :
  1 <= t -> a * t <= n < (a + 1) * t -> b * t <= n < (b + 1) * t -> a = b.
Proof. intros Ht Ha Hb. nia. Qed.

Lemma NoDup_calculate_tiles options :
  NoDup (calculate_tiles backend (Some pg) tw th options).
Proof.
  unfold calculate_tiles.
  apply NoDup_bind; [| | apply NoDup_seqZ].
  - intros r1 r2 t _ _ H1 H2.
    apply list_elem_of_bind in H1 as (c1 & H1 & _).
    apply list_elem_of_bind in H2 as (c2 & H2 & _).
    apply list_elem_of_singleton in H1, H2. subst t.
    now apply (f_equal tile_y) in H2.
  - intros r _. apply NoDup_bind; [| | apply NoDup_seqZ].
    + intros c1 c2 t _ _ H1 H2.
      apply list_elem_of_singleton in H1, H2. subst t.
      now apply (f_equal tile_x) in H2.
    + intros c _. apply NoDup_singleton.
Qed.

(** On a page whose width and height are whole numbers of points the
    tiles partition the page box: no tile occurs twice, every point of
    [[0, W) x [0, H)] lies in exactly one tile, no tile reaches outside
    the page, none is zero-sized and none exceeds the nominal size. *)
Theorem calculate_tiles_whole_page options :
  let tiles := calculate_tiles backend (Some pg) tw th options in
  let page_box :=
    mkRect 0%Q 0%Q (Page_width backend pg) (Page_height backend pg) in
  NoDup tiles /\
  (forall x y, in_rect page_box x y = true ->
     exists t, t ∈ tiles /\ in_rect (page_rect t) x y = true /\
       forall t', t' ∈ tiles -> in_rect (page_rect t') x y = true -> t' = t) /\
  (forall t x y, t ∈ tiles -> in_rect (page_rect t) x y = true ->
     in_rect page_box x y = true) /\
  (forall t, t ∈ tiles ->
     zero_sized (page_rect t) = false /\
     (x1 (page_rect t) - x0 (page_rect t) <= inject_Z tw)%Q /\
     (y1 (page_rect t) - y0 (page_rect t) <= inject_Z th)%Q).
Proof.
  intros tiles page_box. subst tiles page_box.
  pose proof (cdiv_bounds W tw ltac:(lia)) as Hbw.
  pose proof (cdiv_bounds Hh th ltac:(lia)) as Hbh.
  split; [apply NoDup_calculate_tiles |]. split; [| split].
  - intros x y Hin. apply in_rect_page_box in Hin as [Hx Hy].
    pose proof (Z.mul_div_le (Qfloor x) tw ltac:(lia)).
    pose proof (Z.mul_succ_div_gt (Qfloor x) tw ltac:(lia)).
    pose proof (Z.mul_div_le (Qfloor y) th ltac:(lia)).
    pose proof (Z.mul_succ_div_gt (Qfloor y) th ltac:(lia)).
    assert (Hc : 0 <= Qfloor x / tw) by (apply Z.div_pos; lia).
    assert (Hr : 0 <= Qfloor y / th) by (apply Z.div_pos; lia).
    exists (grid_tile (Qfloor y / th) (Qfloor x / tw)). split; [| split].
    + apply elem_of_calculate_tiles. exists (Qfloor y / th), (Qfloor x / tw).
      repeat split; nia.
    + apply in_whole_tile. lia.
    + intros t' Ht' Hin'.
      apply elem_of_calculate_tiles in Ht' as (r & c & Hr' & Hc' & ->).
      apply in_whole_tile in Hin' as [Hx' Hy'].
      rewrite (same_strip tw (Qfloor x) c (Qfloor x / tw)) by lia.
      now rewrite (same_strip th (Qfloor y) r (Qfloor y / th)) by lia.
  - intros t x y Ht Hin.
    apply elem_of_calculate_tiles in Ht as (r & c & Hr & Hc & ->).
    apply in_whole_tile in Hin. apply in_rect_page_box. nia.
  - intros t Ht.
    apply elem_of_calculate_tiles in Ht as (r & c & Hr & Hc & ->).
    unfold zero_sized, whole_tile. simpl. split; [| split].
    + apply orb_false_iff. rewrite !negb_false_iff.
      change (@fltb Q exactQ) with Qltb. rewrite !Qltb_lt, <- !Zlt_Qlt. nia.
    + unfold Qminus. rewrite <- inject_Z_opp, <- inject_Z_plus, <- Zle_Qle. lia.
    + unfold Qminus. rewrite <- inject_Z_opp, <- inject_Z_plus, <- Zle_Qle. lia.
Qed.

End WholePages.

(** A 5 x 3 point page in tiles of 2 x 2: six tiles, the last column one
    point wide, the last row one point high. *)
Lemma calculate_tiles_5_by_3 :
  let tiles := calculate_tiles (Some (whole_engine 5 3)) (Some page_A) 2 2
                 default_options in
  tiles = [whole_tile 5 3 2 2 0 0; whole_tile 5 3 2 2 0 1; whole_tile 5 3 2 2 0 2;
           whole_tile 5 3 2 2 1 0; whole_tile 5 3 2 2 1 1; whole_tile 5 3 2 2 1 2] /\
  NoDup tiles /\
  (forall t, t ∈ tiles -> zero_sized (page_rect t) = false).
Proof.
  intros tiles. split; [vm_compute; reflexivity |].
  destruct (calculate_tiles_whole_page (Some (whole_engine 5 3)) page_A 5 3 2 2)
    with (options := default_options (F:=Q)) as (Hnd & _ & _ & Hsz);
    try (vm_compute; congruence).
  split; [exact Hnd |]. intros t Ht. now apply Hsz.
Qed.

(** C1, at a page with a fractional width.  The page is 512.5 x 842
    points and the tiles are 256 x 256.  Three columns are counted
    ([ceil (512.5 / 256)]), but the clamp uses the width truncated to
    512: the third tile of the first row, column 2, spans [[512, 512)]
    and is zero-sized although the page has width, and the point
    (512.25, 0) of the page lies in no tile. *)
Theorem calculate_tiles_fractional_page :
  let backend := Some fractional_engine in
  let tiles := calculate_tiles backend (Some page_A) 256 256 default_options in
  let page_box :=
    mkRect (B32.of_Z 0) (B32.of_Z 0)
      (Page_width backend page_A) (Page_height backend page_A) in
  let x := B32.of_scaled 2049 (-2) in
  let y := B32.of_Z 0 in
  (B32.to_Q (Page_width backend page_A) == 1025 # 2)%Q /\
  (B32.to_Q x == 2049 # 4)%Q /\
  length tiles = 12%nat /\
  (exists t, tiles !! 2%nat = Some t /\
             tile_x t = 2 /\ tile_y t = 0 /\
             (B32.to_Q (x0 (page_rect t)) == 512)%Q /\
             (B32.to_Q (x1 (page_rect t)) == 512)%Q /\
             zero_sized (page_rect t) = true) /\
  in_rect page_box x y = true /\
  tiles_at tiles x y = [].
Proof.
  intros backend tiles page_box x y.
  split; [vm_compute; reflexivity |].
  split; [vm_compute; reflexivity |].
  split; [vm_compute; reflexivity |].
  split.
  - exists (mkTileInfo 2 0 256 256
              (mkRect (B32.of_Z 512) (B32.of_Z 0) (B32.of_Z 512) (B32.of_Z 256))).
    repeat split; vm_compute; reflexivity.
  - split; vm_compute; reflexivity.
Qed.

(* ===================================================================== *)
(** * Further properties of the code *)
(* ===================================================================== *)

Section RenderPageMore.

Context {F : Type} `{FloatOps F}.
Variable backend : option (Engine F).


(** [render_page] reads four fields of the options: the resolution, the
    color mode, the transparency flag and the red component of the
    background.  Options that agree on them give the same call. *)
Theorem render_page_reads (page : option Page) (o o' : RenderOptions F) :
  same_render_inputs o o' ->
  render_page backend page o = render_page backend page o'.
Proof.
  intros (Hd & Hc & Ht & Hb). unfold render_page.
  now rewrite Hd, Hc, Ht, Hb.
Qed.

(** The clip rectangle never reaches the engine: [render_tile] renders
    the whole page, whatever the tile. *)
Theorem render_tile_whole_page (page : option Page) (tile tile' : @TileInfo F)
    (options : RenderOptions F) :
  render_tile backend page tile options = render_page backend page options /\
  render_tile backend page tile options = render_tile backend page tile' options.
Proof.
  unfold render_tile, render_page. split; reflexivity.
Qed.

(** The buffer of a successful render: dimensions and stride as the
    engine reports them, [stride * height] bytes, and a format of three or
    four bytes per pixel chosen by the transparency flag alone, so a
    grayscale or monochrome render is never labelled [Gray8] or [Mono1]. *)
Theorem render_page_buffer (page : option Page) (options : RenderOptions F) r img :
  value_ (outcome (render_page backend page options) r) = Some img ->
  color_format (render_transparent options) (ib_format img) = true /\
  bytes_per_pixel img = (if render_transparent options then 4 else 3) /\
  ImageBuffer_size img = Z.to_nat (Int32.mul (ib_stride img) (ib_height img)) /\
  (color_mode options = CM_Grayscale \/ color_mode options = CM_Monochrome ->
   ib_format img <> Gray8 /\ ib_format img <> Mono1).
Proof.
  unfold outcome, render_page.
  destruct page as [pg |]; [| discriminate].
  destruct backend as [e |]; [| discriminate].
  destruct (fz_new_context e); cbn [negb]; [| discriminate].
  destruct (page_ pg) as [h |]; [| discriminate].
  unfold bind, log_run. cbn [fst snd].
  destruct (fz_draw e h _ _ _ _) as [msg | pix]; simpl; [discriminate |].
  intros [= <-]. unfold buffer_of_pixmap, bytes_per_pixel, ImageBuffer_size.
  cbn [ib_format ib_data ib_stride ib_height].
  rewrite length_resize.
  destruct (render_transparent options);
    [destruct (pixmap_components pix =? 4) | destruct (pixmap_components pix =? 3)];
    repeat split; try reflexivity; discriminate.
Qed.

(** A thumbnail that keeps the aspect ratio is [render_page_to_size] at
    the default options; [calculate_scale_to_fit] is the scale of both. *)
Theorem render_thumbnail_to_size (page : option Page) (max_width max_height : Z) :
  render_thumbnail backend page max_width max_height true =
    render_page_to_size backend page max_width max_height default_options /\
  render_thumbnail backend page max_width max_height true =
    match page with
    | Some pg =>
        render_page backend page
          (set_dpi default_options
             (fmul (of_int 72)
                (calculate_scale_to_fit backend page max_width max_height)))
    | None => ret (render_error InvalidArgument "Invalid page")
    end.
Proof.
  unfold render_thumbnail, render_page_to_size, calculate_scale_to_fit.
  destruct page as [pg |]; split; reflexivity.
Qed.

End RenderPageMore.

Lemma get_page_out_of_range (doc : Document) (i : Z) :
  ~ (0 <= i < page_count doc) -> get_page doc i = None.
Proof.
  unfold get_page. intros Hi.
  destruct (i <? 0) eqn:E1; [reflexivity |].
  destruct (i >=? page_count doc) eqn:E2; [reflexivity |]. lia.
Qed.

(** After [cancel] nothing blocks: every wait returns [true] at once, and
    [get_result] returns, with the stored buffer if the job had completed
    before and with [RenderError] and no buffer otherwise. *)
Theorem cancel_never_blocks (job : RenderJob) (timeout_ms : Z) :
  wait timeout_ms (cancel job) = Some true /\
  exists r job',
    get_result (cancel job) = Some (r, job') /\
    status job' = status (cancel job) /\
    (status job = Completed -> is_ok r = true /\ value_ r = result job) /\
    (status job <> Completed ->
       error_ r = RenderError /\ value_ r = None /\ job' = cancel job).
Proof.
  pose proof (cancel_terminal job) as Ht.
  split; [now apply wait_terminal |].
  unfold get_result. rewrite (wait_terminal _ _ Ht).
  unfold cancel in *. destruct (status job) eqn:Hs; cbn [status] in *;
    rewrite ?Hs; do 2 eexists; (split; [reflexivity |]);
    cbn [status]; rewrite ?Hs; repeat split; congruence.
Qed.

(** [get_result] returns exactly on the jobs in a terminal state; it
    never changes status or progress, and only a completed job gives up
    its buffer. *)
Theorem get_result_returns_iff (job : RenderJob) :
  (get_result job = None <-> is_terminal (status job) = false) /\
  (forall r job',
     get_result job = Some (r, job') ->
     status job' = status job /\ get_progress job' = get_progress job /\
     (is_ok r = true <-> status job = Completed) /\
     (status job <> Completed -> job' = job)).
Proof.
  unfold get_result, wait, get_progress. split.
  - destruct (status job); simpl; split; congruence.
  - intros r job'. destruct (status job) eqn:Hs; simpl;
      try discriminate; intros [= <- <-]; simpl;
      rewrite ?Hs; repeat split; try congruence; try discriminate;
      intros; congruence.
Qed.

Section Async.

Context {F : Type}.

(** The loop of [queue_batch]: the jobs so far, then the next free places
    of the store, one for each index that names a page. *)
Lemma queue_batch_from_run (doc : Document) (options : RenderOptions F)
    (page_indices : list Z) :
  forall jobs store,
    queue_batch_from doc page_indices options jobs store =
      (jobs ++ seq (length store) (length (in_document doc page_indices)),
       store ++ replicate (length (in_document doc page_indices)) new_RenderJob).
Proof.
  induction page_indices as [| idx rest IH]; intros jobs store.
  - cbn. now rewrite !app_nil_r.
  - cbn [queue_batch_from]. unfold in_document in *. rewrite filter_cons.
    destruct (decide (0 <= idx < page_count doc)) as [Hin | Hout].
    + destruct (get_page_in_range doc idx Hin) as [page ->].
      unfold bind, queue_render. rewrite IH.
      rewrite length_app. cbn [length seq replicate].
      rewrite Nat.add_1_r, <- !app_assoc. reflexivity.
    + rewrite (get_page_out_of_range doc idx Hout). apply IH.
Qed.

(** [queue_batch] queues one new job for each requested index that names
    a page of the document, in request order, and skips every other index
    without a trace: the jobs are the next free places of the store, each
    a new [Pending] job, and the jobs queued before are untouched. *)
Theorem queue_batch_in_document (doc : Document) (page_indices : list Z)
    (options : RenderOptions F) (store : JobStore) :
  let k := length (in_document doc page_indices) in
  let '(jobs, store') := queue_batch doc page_indices options store in
  jobs = seq (length store) k /\
  store' = store ++ replicate k new_RenderJob /\
  (k <= length page_indices)%nat /\
  Forall (fun j => store' !! j = Some new_RenderJob) jobs.
Proof.
  intros k. unfold queue_batch. rewrite queue_batch_from_run. fold k.
  cbn [app]. split; [reflexivity |]. split; [reflexivity |]. split.
  - unfold k, in_document. apply length_filter.
  - apply Forall_forall. intros j Hj. apply elem_of_seq in Hj.
    rewrite lookup_app_r by lia. apply lookup_replicate_2. lia.
Qed.

(** No operation of an [AsyncRenderer] starts, completes or cancels a
    job: after any sequence of calls the store holds the jobs queued so
    far, every one of them still a new [Pending] job, [cancel_all]
    included. *)
Theorem async_jobs_stay_new (calls : list (AsyncCall F)) :
  let store := run_async_calls calls [] in
  store = replicate (sum_list (map queued calls)) new_RenderJob /\
  Forall (fun job => status job = Pending /\ get_result job = None) store.
Proof.
  intros store. subst store.
  assert (Hgen : forall n,
            run_async_calls calls (replicate n new_RenderJob) =
              replicate (n + sum_list (map queued calls)) new_RenderJob).
  { induction calls as [| c cs IH]; intros n.
    - cbn. now rewrite Nat.add_0_r.
    - unfold run_async_calls in *. cbn [foldl map sum_list_with].
      assert (Hc : run_async_call c (replicate n new_RenderJob) =
                   replicate (n + queued c) new_RenderJob).
      { destruct c; unfold run_async_call, after; cbn [queued].
        - unfold queue_render. cbn [snd]. now rewrite replicate_add.
        - unfold queue_batch. rewrite queue_batch_from_run. cbn [snd].
          now rewrite replicate_add.
        - cbn. now rewrite Nat.add_0_r.
        - cbn. now rewrite Nat.add_0_r.
        - cbn. now rewrite Nat.add_0_r. }
      rewrite Hc, IH. f_equal. symmetry. apply Nat.add_assoc. }
  specialize (Hgen 0%nat). cbn [replicate Nat.add] in Hgen.
  rewrite Hgen. split; [reflexivity |].
  apply Forall_replicate. split; reflexivity.
Qed.

End Async.

Section Settings.

Context {F : Type} `{FloatOps F}.
Variable backend : option (Engine F).

(** What one call does to the three settings. *)
Lemma run_call_settings (c : RendererCall F) r :
  let i := impl_ r in
  let i' := impl_ (run_call backend c r) in
  cache_size_mb_ i' =
    match c with CallSetCacheSize n => n | _ => cache_size_mb_ i end /\
  cache_enabled_ i' =
    match c with CallSetCacheEnabled b => b | _ => cache_enabled_ i end /\
  thread_count_ i' = thread_count_ i.
Proof.
  pose proof (render_page_run backend) as Hrun.
  pose proof (render_thumbnail_run backend) as Hthumb.
  destruct c; unfold run_call, after; cbv zeta.
  - now rewrite Hrun.
  - pose proof (render_page_to_buffer_impl backend page buffer buffer_size
                  options r) as Hb.
    unfold after in Hb. now rewrite Hb.
  - unfold render_page_scaled. now rewrite Hrun.
  - unfold render_page_to_size. destruct page; [now rewrite Hrun | easy].
  - unfold render_pages. now rewrite render_pages_from_run.
  - unfold render_all_pages, render_pages.
    destruct doc; [now rewrite render_pages_from_run | easy].
  - now rewrite Hthumb.
  - unfold render_all_thumbnails. destruct doc as [d |]; [| easy].
    now rewrite (render_all_thumbnails_from_run backend d max_width max_height
                   callback (seqZ 0 (page_count d)) 0 [] r (seqZ_in_range _)).
  - easy.
  - easy.
  - easy.
  - easy.
Qed.

(** The cache settings are plain stored values: after any sequence of
    calls [get_cache_size] and [is_cache_enabled] return what was set
    last (100 MB and enabled on a new renderer), whatever was rendered,
    cleared or invalidated in between, and reading them changes nothing. *)
Theorem cache_settings_read_back (calls : list (RendererCall F)) (r0 : Renderer) :
  let r := run_calls backend calls r0 in
  get_cache_size r = (cache_size_setting calls (cache_size_mb_ (impl_ r0)), r) /\
  is_cache_enabled r =
    (cache_enabled_setting calls (cache_enabled_ (impl_ r0)), r) /\
  cache_size_setting calls (cache_size_mb_ (impl_ new_Renderer)) =
    cache_size_setting calls 100%N /\
  cache_enabled_setting calls (cache_enabled_ (impl_ new_Renderer)) =
    cache_enabled_setting calls true.
Proof.
  intros r. subst r. unfold get_cache_size, is_cache_enabled.
  assert (Hgen : forall r0,
            cache_size_mb_ (impl_ (run_calls backend calls r0)) =
              cache_size_setting calls (cache_size_mb_ (impl_ r0)) /\
            cache_enabled_ (impl_ (run_calls backend calls r0)) =
              cache_enabled_setting calls (cache_enabled_ (impl_ r0))).
  { unfold run_calls, cache_size_setting, cache_enabled_setting.
    induction calls as [| c cs IH]; intros r1; [now split |].
    cbn [foldl]. destruct (run_call_settings c r1) as (Hs & He & _).
    cbv zeta in Hs, He. destruct (IH (run_call backend c r1)) as [IHs IHe].
    rewrite IHs, IHe, Hs, He. now split. }
  destruct (Hgen r0) as [-> ->]. now repeat split.
Qed.

(** The thread count is stored and read back: a count other than 0 as it
    is (a negative one too), 0 as the hardware's count; a new renderer
    reports the hardware's count.  Setting it leaves the cache settings,
    the cache and the result of every render as they were. *)
Theorem thread_count_read_back (hardware_concurrency count : Z)
    (page : option Page) (options : RenderOptions F) (r : Renderer) :
  let r' := after (set_thread_count hardware_concurrency count) r in
  outcome (get_thread_count hardware_concurrency) r' =
    (if count =? 0 then Int32.wrap hardware_concurrency else count) /\
  after (get_thread_count hardware_concurrency) r' = r' /\
  outcome (get_thread_count hardware_concurrency) new_Renderer =
    Int32.wrap hardware_concurrency /\
  cache_size_mb_ (impl_ r') = cache_size_mb_ (impl_ r) /\
  cache_enabled_ (impl_ r') = cache_enabled_ (impl_ r) /\
  cache_ (impl_ r') = cache_ (impl_ r) /\
  outcome (render_page backend page options) r' =
    outcome (render_page backend page options) r.
Proof.
  intros r'. subst r'.
  unfold outcome, after, get_thread_count, set_thread_count, set_impl, with_impl.
  cbn [fst snd impl_ thread_count_ cache_size_mb_ cache_enabled_ cache_].
  repeat split.
  - destruct (count =? 0) eqn:Hc.
    + now destruct (Int32.wrap hardware_concurrency =? 0).
    + now rewrite Hc.
  - pose proof (render_page_run backend) as Hrun. now rewrite !Hrun.
Qed.

End Settings.

(** ** Tiles: the layout of the list *)

Lemma lookup_bind_const {A B} (g : A -> list B) (c : nat) (l : list A) :
  (forall a, length (g a) = c) ->
  forall i j a, l !! i = Some a -> (j < c)%nat ->
    (l ≫= g) !! (i * c + j)%nat = g a !! j.
Proof.
  intros Hlen. induction l as [| a0 l IH]; intros i j a Hi Hj; [easy |].
  cbn [mbind list_bind]. change (list_bind _ _ g l) with (l ≫= g).
  destruct i as [| i].
  - injection Hi as ->. cbn [Nat.mul Nat.add].
    apply lookup_app_l. now rewrite Hlen.
  - cbn [lookup list_lookup] in Hi.
    rewrite lookup_app_r by (rewrite Hlen; lia).
    rewrite Hlen. replace (S i * c + j - c)%nat with (i * c + j)%nat by lia.
    now apply IH.
Qed.

Lemma length_bind_const {A B} (g : A -> list B) (c : nat) (l : list A) :
  (forall a, length (g a) = c) -> length (l ≫= g) = (length l * c)%nat.
Proof.
  intros Hlen. induction l as [| a0 l IH]; [reflexivity |].
  cbn [mbind list_bind]. change (list_bind _ _ g l) with (l ≫= g).
  rewrite length_app, Hlen, IH. reflexivity.
Qed.

Section TileLayout.

Context {F : Type} `{FloatOps F}.
Variable backend : option (Engine F).

Lemma tile_row (W Hh : F) (tw th row cols : Z) :
  (seqZ 0 cols ≫= fun col => [make_tile W Hh tw th row col]) =
  make_tile W Hh tw th row <$> seqZ 0 cols.
Proof. induction (seqZ 0 cols) as [| c l IH]; [reflexivity |]. cbn. now f_equal. Qed.

(** The tile list is laid out row by row: [rows * cols] tiles, the tile
    of row [row] and column [col] at position [row * cols + col].  Every
    tile reports the requested tile size, also in the last column and the
    last row, where its page rectangle is clamped; the options are not
    read; and without a page there is no tile. *)
Theorem calculate_tiles_layout (pg : Page) (tw th : Z) (options : RenderOptions F) :
  let W := Page_width backend pg in
  let Hh := Page_height backend pg in
  let cols := to_int (fceil (fdiv W (of_int tw))) in
  let rows := to_int (fceil (fdiv Hh (of_int th))) in
  let tiles := calculate_tiles backend (Some pg) tw th options in
  length tiles = (Z.to_nat rows * Z.to_nat cols)%nat /\
  (forall row col, 0 <= row < rows -> 0 <= col < cols ->
     tiles !! Z.to_nat (row * cols + col) = Some (make_tile W Hh tw th row col)) /\
  Forall (fun t => tile_width t = tw /\ tile_height t = th /\
                   0 <= tile_x t < cols /\ 0 <= tile_y t < rows) tiles /\
  (forall options', calculate_tiles backend (Some pg) tw th options' = tiles) /\
  calculate_tiles backend None tw th options = [].
Proof.
  intros W Hh cols rows tiles. subst tiles. unfold calculate_tiles.
  fold W Hh. fold cols rows.
  set (g := fun row => seqZ 0 cols ≫= fun col => [make_tile W Hh tw th row col]).
  assert (Hg : forall row, length (g row) = Z.to_nat cols).
  { intros row. unfold g. now rewrite tile_row, length_fmap, length_seqZ. }
  change (seqZ 0 rows ≫= _) with (seqZ 0 rows ≫= g).
  split; [| split; [| split; [| split]]].
  - now rewrite (length_bind_const g _ _ Hg), length_seqZ.
  - intros row col Hrow Hcol.
    replace (Z.to_nat (row * cols + col))
      with (Z.to_nat row * Z.to_nat cols + Z.to_nat col)%nat by nia.
    rewrite (lookup_bind_const g _ _ Hg _ _ row).
    + unfold g. rewrite tile_row, list_lookup_fmap.
      rewrite (proj2 (lookup_seqZ 0 cols (Z.to_nat col) col)) by lia.
      reflexivity.
    + apply lookup_seqZ. lia.
    + lia.
  - apply Forall_forall. intros t Ht.
    apply list_elem_of_bind in Ht as (row & Ht & Hrow).
    unfold g in Ht. rewrite tile_row in Ht.
    apply list_elem_of_fmap in Ht as (col & -> & Hcol).
    apply elem_of_seqZ in Hrow, Hcol. cbn. lia.
  - reflexivity.
  - reflexivity.
Qed.

End TileLayout.

Section DocumentPages.

Variable backend : option Doc.Engine.

Lemma Doc_get_page_spec (index : Z) (d : Doc.Impl) :
  0 <= index < Doc.page_count backend d ->
  let i := Z.to_nat index in
  let l := if index >=? Z.of_nat (length (Doc.pages_ d))
           then resize (Z.to_nat (Doc.page_count backend d)) None (Doc.pages_ d)
           else Doc.pages_ d in
  (i < length l)%nat /\
  Doc.get_page backend index d =
    (Some i,
     Doc.mkImpl (Doc.doc_ d)
       (match l !! i with
        | Some (Some _) => l
        | _ => <[i := Some new_Page]> l
        end)).
Proof.
  intros Hi i l. unfold Doc.get_page.
  destruct (index <? 0) eqn:E1; [lia |].
  destruct (index >=? Doc.page_count backend d) eqn:E2; [lia |].
  cbn [orb]. fold i. subst l.
  destruct (index >=? Z.of_nat (length (Doc.pages_ d))) eqn:E3; cbn [Doc.pages_ Doc.doc_].
  - split; [rewrite length_resize; lia |].
    destruct (resize _ _ _ !! i) as [[pg |] |]; reflexivity.
  - split; [lia |]. destruct d as [h l]. cbn [Doc.pages_ Doc.doc_].
    destruct (l !! i) as [[pg |] |]; reflexivity.
Qed.

Lemma Doc_get_page_none (index : Z) (d : Doc.Impl) :
  index < 0 \/ Doc.page_count backend d <= index ->
  Doc.get_page backend index d = (None, d).
Proof.
  intros Hout. unfold Doc.get_page.
  destruct (index <? 0) eqn:E1; [reflexivity |].
  destruct (index >=? Doc.page_count backend d) eqn:E2; [reflexivity | lia].
Qed.

Lemma Doc_get_page_some (index : Z) (d : Doc.Impl) :
  0 <= index < Doc.page_count backend d ->
  let d' := after (Doc.get_page backend index) d in
  outcome (Doc.get_page backend index) d = Some (Z.to_nat index) /\
  is_Some (Doc.page_at d' (Z.to_nat index)) /\
  (forall p pg, Doc.page_at d p = Some pg -> Doc.page_at d' p = Some pg) /\
  Doc.doc_ d' = Doc.doc_ d /\
  Doc.page_count backend d' = Doc.page_count backend d.
Proof.
  intros Hin d'. subst d'. unfold outcome, after.
  destruct (Doc_get_page_spec index d Hin) as [Hlt ->]. cbn [fst snd].
  set (i := Z.to_nat index) in *.
  set (l := if index >=? _ then _ else _) in *.
  assert (Hkeep : forall p pg, Doc.page_at d p = Some pg -> mjoin (l !! p) = Some pg).
  { intros p pg Hp. unfold Doc.page_at in Hp. subst l.
    destruct (index >=? _) eqn:E3; [| exact Hp].
    destruct (Doc.pages_ d !! p) as [slot |] eqn:Hs; [| discriminate].
    apply Z.geb_le in E3. pose proof (lookup_lt_Some _ _ _ Hs) as Hlen.
    rewrite lookup_resize by lia. now rewrite Hs. }
  split; [reflexivity |]. unfold Doc.page_at, Doc.page_count. cbn [Doc.pages_ Doc.doc_].
  destruct (l !! i) as [[pg |] |] eqn:Hl.
  - rewrite Hl. repeat split; eauto.
  - rewrite list_lookup_insert_eq by exact Hlt. repeat split; eauto.
    intros p pg Hp. specialize (Hkeep p pg Hp).
    destruct (decide (p = i)) as [-> | Hne].
    + rewrite Hl in Hkeep. discriminate.
    + now rewrite list_lookup_insert_ne.
  - apply lookup_ge_None in Hl. lia.
Qed.

(** [Document::get_page] returns null, and changes nothing, exactly for
    an index below 0 or from [page_count()] on.  For every other index it
    returns the page object of that place: the one created by an earlier
    call, or a new one; the objects handed out before stay what and where
    they were, and the engine document is untouched. *)
Theorem Doc_get_page_bounds (index : Z) (d : Doc.Impl) :
  (index < 0 \/ Doc.page_count backend d <= index ->
     Doc.get_page backend index d = (None, d)) /\
  (0 <= index < Doc.page_count backend d ->
     let d' := after (Doc.get_page backend index) d in
     outcome (Doc.get_page backend index) d = Some (Z.to_nat index) /\
     is_Some (Doc.page_at d' (Z.to_nat index)) /\
     (forall p pg, Doc.page_at d p = Some pg -> Doc.page_at d' p = Some pg) /\
     Doc.doc_ d' = Doc.doc_ d /\
     Doc.page_count backend d' = Doc.page_count backend d) /\
  (outcome (Doc.get_page backend index) d = None <->
     index < 0 \/ Doc.page_count backend d <= index).
Proof.
  split; [apply Doc_get_page_none |]. split; [apply Doc_get_page_some |].
  split.
  - intros Hnone.
    destruct (decide (0 <= index < Doc.page_count backend d)) as [Hin | Hout];
      [| lia].
    destruct (Doc_get_page_some index d Hin) as [Hp _]. congruence.
  - intros Hout. unfold outcome. now rewrite Doc_get_page_none.
Qed.


Lemma Doc_blank_get_page (index : Z) (d : Doc.Impl) :
  Doc.blank d -> Doc.blank (after (Doc.get_page backend index) d).
Proof.
  intros Hb. unfold after.
  destruct (decide (0 <= index < Doc.page_count backend d)) as [Hin | Hout].
  - destruct (Doc_get_page_spec index d Hin) as [Hlt ->]. cbn [snd].
    unfold Doc.blank in *. cbn [Doc.pages_].
    set (l := if index >=? _ then _ else _) in *.
    assert (Hl : Forall (fun slot => slot = None \/ slot = Some new_Page) l).
    { subst l. destruct (index >=? _); [| exact Hb].
      apply Forall_resize; [now left | exact Hb]. }
    destruct (l !! Z.to_nat index) as [[pg |] |]; try exact Hl;
      apply Forall_insert; auto.
  - assert (Hnone : Doc.get_page backend index d = (None, d))
      by (apply Doc_get_page_none; lia).
    now rewrite Hnone.
Qed.

Lemma Doc_blank_after_get_pages (indices : list Z) (d : Doc.Impl) :
  Doc.blank d -> Doc.blank (Doc.after_get_pages backend indices d).
Proof.
  unfold Doc.after_get_pages. revert d.
  induction indices as [| i rest IH]; intros d Hb; [exact Hb |].
  cbn [foldl]. apply IH. now apply Doc_blank_get_page.
Qed.

Lemma Doc_page_count_after_get_pages (indices : list Z) (d : Doc.Impl) :
  Doc.page_count backend (Doc.after_get_pages backend indices d) =
  Doc.page_count backend d.
Proof.
  unfold Doc.after_get_pages. revert d.
  induction indices as [| i rest IH]; intros d; [reflexivity |].
  cbn [foldl]. rewrite IH.
  destruct (decide (0 <= i < Doc.page_count backend d)) as [Hin | Hout].
  - now apply Doc_get_page_some.
  - assert (Hnone : Doc.get_page backend i d = (None, d))
      by (apply Doc_get_page_none; lia).
    unfold after. now rewrite Hnone.
Qed.

(** Every page a document hands out is a page as [Page::Page()] made it,
    whatever its place: it has no engine page, index 0 and number 1.  So
    it is for the document [h] just opened and after any number of
    [get_page] calls; [document_of] lists these objects. *)
Theorem Doc_pages_are_new (h : option Doc.DocHandle) (indices : list Z)
    (index : Z) :
  let d := Doc.after_get_pages backend indices (Doc.mkImpl h []) in
  0 <= index < Doc.page_count backend d ->
  exists p,
    outcome (Doc.get_page backend index) d = Some p /\
    Doc.page_at (after (Doc.get_page backend index) d) p = Some new_Page /\
    get_page (document_of backend d) index = Some new_Page /\
    Page_get_handle new_Page = None /\
    Page_index new_Page = 0 /\ Page_number new_Page = 1.
Proof.
  intros d Hin.
  assert (Hb : Doc.blank d).
  { apply Doc_blank_after_get_pages. constructor. }
  clearbody d.
  destruct (Doc_get_page_some index d Hin) as (Hp & [pg Hpg] & _).
  exists (Z.to_nat index). split; [exact Hp |]. split; [| split].
  - pose proof (Doc_blank_get_page index d Hb) as Hb'.
    rewrite Hpg. f_equal. unfold Doc.page_at in Hpg. unfold Doc.blank in Hb'.
    destruct (Doc.pages_ _ !! Z.to_nat index) as [slot |] eqn:Hs; [| discriminate].
    rewrite Forall_lookup in Hb'. specialize (Hb' _ _ Hs).
    destruct Hb' as [-> | ->]; [discriminate |]. cbn in Hpg. congruence.
  - unfold get_page, document_of, page_count. cbn [pages_].
    rewrite length_replicate.
    destruct (index <? 0) eqn:E1; [lia |].
    destruct (index >=? _) eqn:E2; [apply Z.geb_le in E2; lia |]. cbn [orb].
    apply lookup_replicate_2. lia.
  - now repeat split.
Qed.

End DocumentPages.

Section DocumentOpen.

Variable backend : option Doc.Engine.

(** [Document::open] throws [OutOfMemory] when the engine gives no
    context.  Otherwise it succeeds exactly when the engine opens the file
    and, for a password that is not empty on a document that needs one,
    accepts the password: with an empty password no authentication is
    attempted, so a document that needs a password opens all the same.
    The opened document has its engine handle and no page object yet;
    every failure is [InvalidPDF] with a null document, a missing file
    included. *)
Theorem Doc_open_cases (path password : string) :
  match backend with
  | Some e =>
      if Doc.fz_new_context e then
        match Doc.fz_open_document e path with
        | Some h =>
            if String.eqb password "" || negb (Doc.fz_needs_password e h)
               || Doc.fz_authenticate_password e h password
            then Doc.open backend path password =
                   inr (result_ok (Some (Doc.mkImpl (Some h) [])))
            else Doc.open backend path password =
                   inr (result_err None InvalidPDF "Failed to open PDF document")
        | None =>
            Doc.open backend path password =
              inr (result_err None InvalidPDF "Failed to open PDF document")
        end
      else Doc.open backend path password =
             inl (Exception OutOfMemory "Failed to create MuPDF context")
  | None =>
      Doc.open backend path password =
        inr (result_err None InvalidPDF "Failed to open PDF document")
  end.
Proof.
  unfold Doc.open, Doc.new_Impl, Doc.open_file, Doc.authenticate.
  destruct backend as [e |]; [| reflexivity].
  destruct (Doc.fz_new_context e); cbn [negb]; [| reflexivity].
  destruct (Doc.fz_open_document e path) as [h |]; [| reflexivity].
  destruct (String.eqb password ""); cbn [negb andb orb]; [reflexivity |].
  destruct (Doc.fz_needs_password e h); cbn [negb andb orb]; [| reflexivity].
  now destruct (Doc.fz_authenticate_password e h password).
Qed.

(** Built without the engine, no document opens, a created document has
    no page, and no index names one. *)
Theorem Doc_without_engine (path password : string) (data : list byte)
    (index : Z) (d : Doc.Impl) :
  exists r r',
    Doc.open None path password = inr r /\ error_ r = InvalidPDF /\
    value_ r = None /\
    Doc.open_from_memory None data password = inr r' /\
    error_ r' = InvalidPDF /\ value_ r' = None /\
    Doc.page_count None d = 0 /\
    Doc.get_page None index d = (None, d) /\
    Doc.get_pages None d = ([], d).
Proof.
  do 2 eexists. repeat split.
  unfold Doc.get_page. cbn [Doc.page_count].
  destruct (index <? 0) eqn:E1; [reflexivity |].
  destruct (index >=? 0) eqn:E2; [reflexivity | lia].
Qed.

Lemma Doc_get_pages_from_run (d : Doc.Impl) :
  forall nums pages d',
    Doc.page_count backend d' = Doc.page_count backend d ->
    Forall (fun i => 0 <= i < Doc.page_count backend d) nums ->
    let '(res, d'') := Doc.get_pages_from backend nums pages d' in
    res = pages ++ ((fun i => Some (Z.to_nat i)) <$> nums) /\
    d'' = Doc.after_get_pages backend nums d'.
Proof.
  induction nums as [| i rest IH]; intros pages d' Hc Hin.
  - cbn. now rewrite app_nil_r.
  - inversion Hin as [| ? ? Hi Hrest]; subst.
    cbn [Doc.get_pages_from]. unfold bind.
    rewrite <- Hc in Hi.
    destruct (Doc_get_page_some backend i d' Hi) as (Hp & _ & _ & _ & Hc').
    unfold outcome, after in Hp, Hc'.
    destruct (Doc.get_page backend i d') as [p d1] eqn:Hg.
    cbn [fst snd] in Hp, Hc'. subst p.
    specialize (IH (pages ++ [Some (Z.to_nat i)]) d1 ltac:(congruence) Hrest).
    destruct (Doc.get_pages_from backend rest _ d1) as [res d''].
    destruct IH as [-> ->]. split.
    + cbn [fmap list_fmap]. now rewrite <- app_assoc.
    + unfold Doc.after_get_pages. cbn [foldl]. unfold after. now rewrite Hg.
Qed.

(** [Document::get_pages] returns one page object for each of the
    [page_count()] places, in order and none of them null, and leaves the
    document as [get_page] on each place in turn does. *)
Theorem Doc_get_pages_all (d : Doc.Impl) :
  let n := Doc.page_count backend d in
  Doc.get_pages backend d =
    ((fun i => Some (Z.to_nat i)) <$> seqZ 0 n,
     Doc.after_get_pages backend (seqZ 0 n) d) /\
  length (outcome (Doc.get_pages backend) d) = Z.to_nat n /\
  Forall (fun p => exists i, p = Some i /\
                   is_Some (Doc.page_at (after (Doc.get_pages backend) d) i))
    (outcome (Doc.get_pages backend) d).
Proof.
  intros n.
  assert (Hall : Doc.get_pages backend d =
                 ((fun i => Some (Z.to_nat i)) <$> seqZ 0 n,
                  Doc.after_get_pages backend (seqZ 0 n) d)).
  { unfold Doc.get_pages. fold n.
    pose proof (Doc_get_pages_from_run d (seqZ 0 n) [] d eq_refl (seqZ_in_range n))
      as Hrun.
    destruct (Doc.get_pages_from backend (seqZ 0 n) [] d) as [res d''].
    now destruct Hrun as [-> ->]. }
  unfold outcome, after. rewrite Hall. cbn [fst snd].
  split; [reflexivity |].
  split; [now rewrite length_fmap, length_seqZ |].
  apply Forall_fmap, Forall_forall. intros i Hi. cbn.
  exists (Z.to_nat i). split; [reflexivity |].
  apply elem_of_seqZ in Hi.
  (* the place holds a page once visited, and later visits keep it *)
  assert (Hkeep : forall nums d1 p,
            is_Some (Doc.page_at d1 p) ->
            is_Some (Doc.page_at (Doc.after_get_pages backend nums d1) p)).
  { induction nums as [| j rest IH]; intros d1 p Hp; [exact Hp |].
    unfold Doc.after_get_pages. cbn [foldl]. apply IH.
    destruct Hp as [pg Hpg].
    destruct (decide (0 <= j < Doc.page_count backend d1)) as [Hj | Hj].
    - destruct (Doc_get_page_some backend j d1 Hj) as (_ & _ & Hk & _). eauto.
    - assert (Hnone : Doc.get_page backend j d1 = (None, d1))
        by (apply Doc_get_page_none; lia).
      unfold after. rewrite Hnone. eauto. }
  assert (Hvisit : forall nums d1,
            Doc.page_count backend d1 = n -> i ∈ nums ->
            is_Some (Doc.page_at (Doc.after_get_pages backend nums d1)
                       (Z.to_nat i))).
  { induction nums as [| j rest IH]; intros d1 Hc Hel; [inversion Hel |].
    unfold Doc.after_get_pages. cbn [foldl].
    apply elem_of_cons in Hel as [<- | Hel].
    - apply Hkeep.
      destruct (Doc_get_page_some backend i d1 ltac:(lia)) as (_ & Hs & _).
      exact Hs.
    - apply IH; [| exact Hel].
      destruct (decide (0 <= j < Doc.page_count backend d1)) as [Hj | Hj].
      + destruct (Doc_get_page_some backend j d1 Hj) as (_ & _ & _ & _ & Hc').
        congruence.
      + assert (Hnone : Doc.get_page backend j d1 = (None, d1))
          by (apply Doc_get_page_none; lia).
        unfold after. now rewrite Hnone. }
  apply Hvisit; [reflexivity |]. apply elem_of_seqZ. lia.
Qed.

End DocumentOpen.

Section RenderDocument.

Context {F : Type} `{FloatOps F}.
Variable backend : option (Engine F).
Variable doc_backend : option Doc.Engine.

(** No page of a document can be rendered: the page objects carry no
    engine handle, so [render_all_pages] returns [page_count()] errors,
    all the same, and hands nothing to the engine; likewise
    [render_pages], whose slots for indices outside the document are
    [InvalidArgument] errors. *)
Theorem render_document_fails (d : Doc.Impl) (page_indices : list Z)
    (options : RenderOptions F) (r : Renderer) :
  let doc := document_of doc_backend d in
  let n := Doc.page_count doc_backend d in
  render_all_pages backend (Some doc) options None r =
    (replicate (Z.to_nat n) (no_handle_error backend), r) /\
  is_ok (no_handle_error backend) = false /\
  render_pages backend doc page_indices options None r =
    ((fun idx => if bool_decide (0 <= idx < n) then (no_handle_error backend)
                 else render_error InvalidArgument "Invalid page index")
       <$> page_indices, r).
Proof.
  intros doc n.
  assert (Hcount : page_count doc = Z.of_nat (Z.to_nat n)).
  { unfold page_count, doc, document_of. cbn [pages_]. now rewrite length_replicate. }
  assert (Hpage : forall idx, 0 <= idx < n -> get_page doc idx = Some new_Page).
  { intros idx Hidx. unfold get_page. rewrite Hcount.
    destruct (idx <? 0) eqn:E1; [lia |].
    destruct (idx >=? _) eqn:E2; [apply Z.geb_le in E2; lia |]. cbn [orb].
    unfold doc, document_of. cbn [pages_]. apply lookup_replicate_2. lia. }
  assert (Hnone : forall idx, ~ (0 <= idx < n) -> get_page doc idx = None).
  { intros idx Hidx. apply get_page_out_of_range. rewrite Hcount. lia. }
  assert (Hslot : forall idx,
            page_slot backend doc options idx =
              if bool_decide (0 <= idx < n) then (no_handle_error backend)
              else render_error InvalidArgument "Invalid page index").
  { intros idx. unfold page_slot. case_bool_decide as Hidx.
    - rewrite (Hpage idx Hidx). unfold outcome, render_page, no_handle_error, new_Page.
      destruct backend as [e |]; [| reflexivity].
      now destruct (fz_new_context e).
    - now rewrite (Hnone idx Hidx). }
  assert (Hdrawn : forall idx, drawn backend (get_page doc idx) = []).
  { intros idx. destruct (decide (0 <= idx < n)) as [Hidx | Hidx].
    - rewrite (Hpage idx Hidx). unfold drawn, new_Page. cbn [page_].
      destruct backend as [e |]; [| reflexivity]. now destruct (fz_new_context e).
    - now rewrite (Hnone idx Hidx). }
  assert (Hpages : forall l,
            render_pages backend doc l options None r =
              (page_slot backend doc options <$> l, r)).
  { intros l. unfold render_pages. rewrite render_pages_from_run.
    rewrite visited_all by reflexivity. cbn [app]. f_equal.
    destruct r as [i runs]. cbn [impl_ fz_runs]. f_equal.
    induction l as [| a l IH]; cbn [flat_map]; [now rewrite app_nil_r |].
    now rewrite Hdrawn. }
  split; [| split].
  - unfold render_all_pages. rewrite Hpages. f_equal.
    rewrite Hcount.
    set (m := Z.of_nat (Z.to_nat n)).
    transitivity ((fun _ => no_handle_error backend) <$> seqZ 0 m).
    + apply Forall_fmap_ext, Forall_forall. intros idx Hidx.
      apply elem_of_seqZ in Hidx. rewrite Hslot.
      rewrite bool_decide_true; [reflexivity | unfold m in Hidx; lia].
    + rewrite (const_fmap _ (seqZ 0 m) (no_handle_error backend)) by reflexivity.
      rewrite length_seqZ. unfold m. now rewrite Nat2Z.id.
  - unfold no_handle_error. destruct backend as [e |]; [| reflexivity].
    now destruct (fz_new_context e).
  - rewrite Hpages. f_equal. apply list_fmap_ext. intros _ idx _. apply Hslot.
Qed.

End RenderDocument.

(** ** Binary32: the accuracy of the geometry functions *)

(** The product of two finite numbers of magnitude up to [2^k]. *)
Lemma SFmul_error_upto (k : Z) (x y : B32.t) :
  B32.is_finite x = true -> B32.is_finite y = true ->
  expo x + expo y <= 103 -> -125 <= k <= 126 ->
  (Qabs (B32.to_Q x * B32.to_Q y) <= bpow k)%Q ->
  let r := fmul x y in
  B32.is_finite r = true /\
  expo r <= Z.max (expo x + expo y) (k - 23) + 1 /\
  (Qabs (B32.to_Q r - B32.to_Q x * B32.to_Q y)
   <= eps (Qabs (B32.to_Q x * B32.to_Q y)))%Q.
Proof.
  intros Hx Hy He Hk Hv r. subst r.
  assert (Hzero : forall a b : Q, (a == 0)%Q \/ (b == 0)%Q ->
            (Qabs (0 - a * b) <= eps (Qabs (a * b)))%Q).
  { intros a b Hab.
    assert (Hp : (0 - a * b == 0)%Q) by (destruct Hab as [-> | ->]; ring).
    apply Qle_trans with 0%Q; [| apply eps_nonneg, Qabs_nonneg].
    rewrite (Qabs_wd _ _ Hp). discriminate. }
  destruct x as [sx | sx | | sx mx ex]; try discriminate;
  destruct y as [sy | sy | | sy my ey]; try discriminate;
    cbn [fmul binary32 SFmul B32.is_finite].
  - split; [reflexivity |]. split; [simpl; lia |]. apply Hzero. now left.
  - split; [reflexivity |]. split; [simpl; lia |]. apply Hzero. now left.
  - split; [reflexivity |]. split; [simpl; lia |]. apply Hzero. now right.
  - cbn [expo] in *.
    assert (Hprod : (B32.to_Q (S754_finite sx mx ex) * B32.to_Q (S754_finite sy my ey)
                     == sgnQ (xorb sx sy) * F2Q (Zpos mx * Zpos my) (ex + ey))%Q).
    { rewrite !to_Q_finite, sgnQ_xorb, F2Q_mult. ring. }
    assert (Hv0 : (0 <= F2Q (Zpos mx * Zpos my) (ex + ey))%Q)
      by (apply F2Q_nonneg; lia).
    rewrite Hprod in *. rewrite Qabs_sgnQ_mult in * by exact Hv0.
    assert (Hexp : exp1 (Zpos mx * Zpos my) (ex + ey) <= Z.max (ex + ey) (k - 23)).
    { apply (exp1_of_value _ _ k); [lia | exact Hv | lia]. }
    change (Zpos (mx * my)) with (Zpos mx * Zpos my).
    destruct (round_aux_error (xorb sx sy) (Zpos mx * Zpos my) (ex + ey) loc_Exact
                (F2Q (Zpos mx * Zpos my) (ex + ey)))
      as (Hfin & Hexpo & Herr); try lia.
    + apply Qle_refl.
    + apply F2Q_lt_succ.
    + reflexivity.
    + intros _ Hc. now contradiction Hc.
    + split; [exact Hfin |].
      split; [eapply Z.le_trans; [exact Hexpo | lia] | exact Herr].
Qed.

(** The two scales [dpi / 72] and [72 / dpi] of a resolution from 1 to
    2400, each within one rounding of its exact value. *)
Lemma dpi_scales_b32 (d : B32.t) :
  b32_between 1 2400 d = true ->
  let c := B32.to_Q d in
  let s1 := fdiv d (of_int 72) in
  let s2 := fdiv (of_int 72) d in
  (1 <= c)%Q /\ (c <= 2400)%Q /\
  B32.is_finite s1 = true /\ B32.is_finite s2 = true /\
  expo s1 <= -16 /\ expo s2 <= -16 /\
  (Qabs (B32.to_Q s1 - c * (1 # 72))
   <= (1 # 8388608) * (c * (1 # 72)) + (1 # 1267650600228229401496703205376))%Q /\
  (Qabs (B32.to_Q s2 - 72 / c)
   <= (1 # 8388608) * (72 / c) + (1 # 1267650600228229401496703205376))%Q.
Proof.
  intros Hd c s1 s2. subst c s1 s2.
  apply b32_between_spec in Hd as (Hv & _ & Hlo & Hhi).
  destruct (positive_float d Hlo) as (m & e & -> & Hq).
  rewrite Hq in *.
  destruct (valid_normal false m e Hv Hlo) as [Hdig He].
  assert (He2 : e <= -11).
  { pose proof (valid_expo (S754_finite false m e) 12 Hv) as Hx.
    cbn [expo] in Hx. rewrite Hq in Hx.
    rewrite Qabs_pos in Hx by lra.
    assert (H4096 : (bpow 12 == 4096)%Q) by reflexivity.
    rewrite H4096 in Hx. specialize (Hx ltac:(lra) ltac:(lia)). lia. }
  change (of_int 72) with (S754_finite false 9437184 (-17)).
  assert (H72 : (B32.to_Q (S754_finite false 9437184 (-17)) == 72)%Q)
    by reflexivity.
  destruct (SFdiv_error false false m 9437184 e (-17) Hdig eq_refl ltac:(lia))
    as (Hf1 & He1 & Hr1).
  destruct (SFdiv_error false false 9437184 m (-17) e eq_refl Hdig ltac:(lia))
    as (Hf2 & He2' & Hr2).
  rewrite H72, Hq in Hr1, Hr2.
  set (c := F2Q (Zpos m) e) in *.
  assert (Ha : (c / 72 == c * (1 # 72))%Q) by (field; discriminate).
  assert (Hb0 : (0 < 72 / c)%Q) by (apply Qlt_shift_div_l; lra).
  assert (Ha0 : (0 <= c * (1 # 72))%Q) by lra.
  assert (Hb0' : (0 <= 72 / c)%Q) by now apply Qlt_le_weak.
  rewrite Ha in Hr1.
  rewrite (Qabs_pos (c * (1 # 72))) in Hr1 by exact Ha0.
  rewrite (Qabs_pos (72 / c)) in Hr2 by exact Hb0'.
  pose proof (eps_le (c * (1 # 72)) Ha0) as E1.
  pose proof (eps_le (72 / c) Hb0') as E2.
  split; [exact Hlo |]. split; [exact Hhi |].
  split; [exact Hf1 |]. split; [exact Hf2 |].
  split; [eapply Z.le_trans; [exact He1 | lia] |].
  split; [eapply Z.le_trans; [exact He2' | lia] |].
  split; [exact (Qle_trans _ _ _ Hr1 E1) | exact (Qle_trans _ _ _ Hr2 E2)].
Qed.

Section ScaleBounds.

#[local] Open Scope Q_scope.

(** Scaling a length of up to 14400 points to pixels. *)
Lemma to_pixel_bound (W c S P : Q) :
  Qabs W <= 14400 -> 1 <= c -> c <= 2400 ->
  Qabs (S - c * (1 # 72))
    <= (1 # 8388608) * (c * (1 # 72)) + (1 # 1267650600228229401496703205376) ->
  (Qabs (W * S) <= 524288 ->
   Qabs (P - W * S)
     <= (1 # 8388608) * Qabs (W * S) + (1 # 1267650600228229401496703205376)) ->
  Qabs (W * S) <= 524288 /\ Qabs (P - W * (c * (1 # 72))) <= 1 # 8.
Proof.
  intros HW Hc1 Hc2 HS HP.
  pose proof (Qabs_le_of_diff _ _ _ HS) as HSa.
  rewrite (Qabs_pos (c * (1 # 72))) in HSa by lra.
  assert (HS34 : Qabs S <= 34) by abs_lra.
  pose proof (Qabs_le_mult _ _ _ _ HW HS34) as HWS.
  assert (HWS' : Qabs (W * S) <= 524288) by abs_lra.
  split; [exact HWS' |]. specialize (HP HWS').
  assert (HSd : Qabs (S - c * (1 # 72)) <= 4 # 1000000) by abs_lra.
  pose proof (Qabs_le_mult _ _ _ _ HW HSd) as HWd.
  assert (Heq : P - W * (c * (1 # 72)) == (P - W * S) + W * (S - c * (1 # 72)))
    by ring.
  rewrite Heq. eapply Qle_trans; [apply Qabs_triangle |]. abs_lra.
Qed.

(** Scaling a pixel position on a page of up to 14400 points back to
    points. *)
Lemma to_point_bound (X c S P : Q) :
  1 <= c -> c <= 2400 -> Qabs X * 72 <= 14400 * c ->
  Qabs (S - 72 / c)
    <= (1 # 8388608) * (72 / c) + (1 # 1267650600228229401496703205376) ->
  (Qabs (X * S) <= 16384 ->
   Qabs (P - X * S)
     <= (1 # 8388608) * Qabs (X * S) + (1 # 1267650600228229401496703205376)) ->
  Qabs (X * S) <= 16384 /\ Qabs (P - X * (72 / c)) <= 1 # 200 /\
  Qabs (X * (72 / c)) <= 14400.
Proof.
  intros Hc1 Hc2 HX HS HP.
  set (b := 72 / c) in *.
  assert (Hcb : c * b == 72) by (unfold b; field; lra).
  assert (Hb0 : 0 < b) by (unfold b; apply Qlt_shift_div_l; lra).
  assert (Hb72 : b <= 72) by nra.
  pose proof (Qabs_nonneg X) as HX0.
  (* |X| b <= 14400 *)
  assert (HXb : Qabs X * b <= 14400).
  { assert (H1 : Qabs X * 72 * b <= 14400 * c * b)
      by (apply Qmult_le_compat_r; lra).
    assert (H2 : 14400 * c * b == 14400 * 72) by (rewrite <- Hcb; ring).
    nra. }
  assert (HXn : Qabs X <= 480000) by nra.
  (* |X (S - b)| <= |X| (e b + n) *)
  assert (HXd : Qabs (X * (S - b))
                <= (1 # 8388608) * (Qabs X * b)
                   + (1 # 1267650600228229401496703205376) * Qabs X).
  { rewrite Qabs_Qmult, Qmult_comm.
    eapply Qle_trans; [apply Qmult_le_compat_r; [exact HS | exact HX0] |].
    apply Qle_lteq; right; ring. }
  assert (HXS : Qabs (X * S) <= Qabs X * b + Qabs (X * (S - b))).
  { assert (Heq : X * S == X * b + X * (S - b)) by ring.
    rewrite Heq at 1. eapply Qle_trans; [apply Qabs_triangle |].
    rewrite (Qabs_Qmult X b), (Qabs_pos b) by lra. apply Qle_refl. }
  assert (HXS' : Qabs (X * S) <= 16384).
  { clear - HXS HXd HXb HXn HX0. abs_lra. }
  split; [exact HXS' |]. specialize (HP HXS'). split.
  - assert (Heq : P - X * b == (P - X * S) + X * (S - b)) by ring.
    rewrite Heq. eapply Qle_trans; [apply Qabs_triangle |].
    clear - HP HXS HXd HXb HXn HX0. abs_lra.
  - rewrite Qabs_Qmult, (Qabs_pos b) by lra. exact HXb.
Qed.

End ScaleBounds.

(** Truncation toward zero of a value within 1/8 of a value that is not
    negative differs from that value's floor by one at most. *)
Lemma Qtrunc_near (P E : Q) :
  (0 <= E)%Q -> (Qabs (P - E) <= 1 # 8)%Q ->
  Z.abs (Qtrunc P - Qfloor E) <= 1.
Proof.
  intros HE HP. apply Qabs_Qle_condition in HP as [HP1 HP2].
  pose proof (Qfloor_le E) as HfE. pose proof (Qlt_floor E) as HlE.
  pose proof (Qfloor_nonneg E HE) as HfE0.
  rewrite inject_Z_plus in HlE. change (inject_Z 1) with 1%Q in HlE.
  destruct (Qlt_le_dec P 0) as [Hneg | Hpos].
  - assert (HE0 : Qfloor E = 0).
    { assert (Hlt : Qfloor E < 1) by (apply Qfloor_lt_iff; change (inject_Z 1) with 1%Q; lra). lia. }
    assert (HP0 : Qtrunc P = 0).
    { destruct P as [n d]. unfold Qtrunc, Qlt, Qle, Qminus, Qplus, Qopp in *.
      cbn [Qnum Qden] in *.
      assert (Hn : - Zpos d < n < 0) by nia.
      rewrite <- (Z.opp_involutive n), Z.quot_opp_l by lia.
      rewrite Z.quot_small by lia. reflexivity. }
    rewrite HE0, HP0. simpl. lia.
  - rewrite (Qtrunc_nonneg P Hpos).
    assert (Hlow : Qfloor E - 1 <= Qfloor P).
    { apply Zle_Qfloor. unfold Z.sub. rewrite inject_Z_plus, inject_Z_opp.
      change (inject_Z 1) with 1%Q. lra. }
    assert (Hup : Qfloor P < Qfloor E + 2).
    { apply Qfloor_lt_iff. rewrite inject_Z_plus. change (inject_Z 2) with 2%Q.
      lra. }
    lia.
Qed.

(** [static_cast<int>] of a finite binary32 number within 1/8 of an exact
    value [E] that is not negative and below [2^30]. *)
Lemma to_int_near (x : B32.t) (E : Q) :
  B32.is_finite x = true ->
  (0 <= E)%Q -> (E <= 1073741824)%Q -> (Qabs (B32.to_Q x - E) <= 1 # 8)%Q ->
  Z.abs (to_int x - Qfloor E) <= 1.
Proof.
  intros Hx HE Hmax Hnear.
  pose proof (Qtrunc_near _ _ HE Hnear) as Ht.
  rewrite (B32_trunc_to_Q x Hx).
  assert (HfE : Qfloor E <= 1073741824).
  { change 1073741824 with (Qfloor 1073741824). now apply Qfloor_resp_le. }
  pose proof (Qfloor_nonneg E HE).
  rewrite Int32_of_trunc_small; [exact Ht |].
  unfold Int32.INT_MIN, Int32.INT_MAX. lia.
Qed.

Section DimensionsB32.

Variable backend : option (Engine B32.t).

(** A length of the page and a resolution, scaled as
    [calculate_dimensions] and [page_to_pixel] do: within 1/8 of the
    exact product. *)
Lemma scaled_b32 (w d : B32.t) :
  b32_between (-14400) 14400 w = true ->
  b32_between 1 2400 d = true ->
  let p := fmul w (fdiv d (of_int 72)) in
  B32.is_finite p = true /\
  (Qabs (B32.to_Q p - B32.to_Q w * (B32.to_Q d * (1 # 72))) <= 1 # 8)%Q.
Proof.
  intros Hw Hd p. subst p.
  destruct (dpi_scales_b32 d Hd) as (Hc1 & Hc2 & Hf1 & _ & He1 & _ & HS & _).
  cbv zeta in Hf1, He1, HS.
  set (s := fdiv d (of_int 72)) in *.
  apply b32_between_spec in Hw as (Hv & Hfw & Hw1 & Hw2).
  assert (HW : (Qabs (B32.to_Q w) <= 14400)%Q) by (apply Qabs_Qle_condition; lra).
  assert (Hew : expo w <= -9).
  { pose proof (valid_expo w 14 Hv) as He.
    assert (H14 : (bpow 14 == 16384)%Q) by reflexivity. rewrite H14 in He.
    specialize (He ltac:(lra) ltac:(lia)). lia. }
  assert (H19 : (bpow 19 == 524288)%Q) by reflexivity.
  assert (Hmul : (Qabs (B32.to_Q w * B32.to_Q s) <= 524288)%Q ->
                 B32.is_finite (fmul w s) = true /\
                 (Qabs (B32.to_Q (fmul w s) - B32.to_Q w * B32.to_Q s)
                  <= (1 # 8388608) * Qabs (B32.to_Q w * B32.to_Q s)
                     + (1 # 1267650600228229401496703205376))%Q).
  { intros Hb. rewrite <- H19 in Hb.
    destruct (SFmul_error_upto 19 w s Hfw Hf1 ltac:(lia) ltac:(lia) Hb)
      as (Hf & _ & Hr).
    split; [exact Hf |].
    eapply Qle_trans; [exact Hr | apply eps_le, Qabs_nonneg]. }
  destruct (to_pixel_bound (B32.to_Q w) (B32.to_Q d) (B32.to_Q s)
              (B32.to_Q (fmul w s)) HW Hc1 Hc2 HS
              (fun Hb => proj2 (Hmul Hb))) as [Hb Hnear].
  split; [exact (proj1 (Hmul Hb)) | exact Hnear].
Qed.

(** In binary32, for a page of up to 14400 x 14400 points (200 inches)
    and a resolution from 1 to 2400 dpi, [calculate_dimensions] gives the
    floor of the exact product [size * dpi / 72] or a neighbour of it:
    each dimension is off by one pixel at most. *)
Theorem calculate_dimensions_b32_within_one (pg : Page) (d : B32.t) :
  b32_between 0 14400 (Page_width backend pg) = true ->
  b32_between 0 14400 (Page_height backend pg) = true ->
  b32_between 1 2400 d = true ->
  let W := B32.to_Q (Page_width backend pg) in
  let Hh := B32.to_Q (Page_height backend pg) in
  let dims := calculate_dimensions backend (Some pg) d in
  Z.abs (fst dims - Qfloor (W * (B32.to_Q d * (1 # 72)))) <= 1 /\
  Z.abs (snd dims - Qfloor (Hh * (B32.to_Q d * (1 # 72)))) <= 1.
Proof.
  intros HW HH Hd W Hh dims. subst W Hh dims.
  unfold calculate_dimensions. cbn [fst snd].
  assert (Hside : forall w, b32_between 0 14400 w = true ->
            Z.abs (to_int (fmul w (fdiv d (of_int 72)))
                   - Qfloor (B32.to_Q w * (B32.to_Q d * (1 # 72)))) <= 1).
  { intros w Hw.
    pose proof (b32_between_spec _ _ _ Hw) as (Hv & Hfw & Hw1 & Hw2).
    pose proof (b32_between_spec _ _ _ Hd) as (_ & _ & Hd1 & Hd2).
    assert (Hw' : b32_between (-14400) 14400 w = true).
    { unfold b32_between in *.
      apply andb_prop in Hw as [Hw Hhi]. apply andb_prop in Hw as [Hw Hlo].
      rewrite Hw, Hhi. cbn [andb]. rewrite andb_true_r.
      apply Qle_bool_iff. lra. }
    destruct (scaled_b32 w d Hw' Hd) as [Hf Hnear].
    apply to_int_near; [exact Hf | nra | nra | exact Hnear]. }
  split; apply Hside; assumption.
Qed.

End DimensionsB32.

(** In binary32 [page_to_pixel] is within a quarter of a pixel of the
    exact map [(x * dpi / 72, (h - y) * dpi / 72)], for points with
    coordinates up to 14400 points in magnitude, page heights up to
    14400 and resolutions from 1 to 2400 dpi. *)
Theorem page_to_pixel_b32_accurate (x y h d : B32.t) :
  b32_between (-14400) 14400 x = true ->
  b32_between 0 14400 h = true ->
  b32_between 0 (B32.to_Q h) y = true ->
  b32_between 1 2400 d = true ->
  let p := page_to_pixel (mkPoint x y) d h in
  let scale := (B32.to_Q d * (1 # 72))%Q in
  B32.is_finite (px p) = true /\ B32.is_finite (py p) = true /\
  (Qabs (B32.to_Q (px p) - B32.to_Q x * scale) <= 1 # 4)%Q /\
  (Qabs (B32.to_Q (py p) - (B32.to_Q h - B32.to_Q y) * scale) <= 1 # 4)%Q.
Proof.
  intros Hx Hh Hy Hd p scale. subst p scale.
  unfold page_to_pixel. cbn [px py].
  destruct (scaled_b32 x d Hx Hd) as [Hfx Hnx].
  split; [exact Hfx |].
  pose proof (b32_between_spec _ _ _ Hh) as (Hvh & Hfh & Hh1 & Hh2).
  pose proof (b32_between_spec _ _ _ Hy) as (Hvy & Hfy & Hy1 & Hy2).
  pose proof (b32_between_spec _ _ _ Hd) as (_ & _ & Hd1 & Hd2).
  (* the difference [h - y], rounded *)
  assert (H14 : (bpow 14 == 16384)%Q) by reflexivity.
  assert (HHY : (Qabs (B32.to_Q h - B32.to_Q y) <= bpow 14)%Q).
  { rewrite H14. apply Qabs_Qle_condition. lra. }
  destruct (SFsub_error h y 14 Hfh Hfy HHY ltac:(lia)) as (Hft & _ & Hrt).
  pose proof (eps_le _ (Qabs_nonneg (B32.to_Q h - B32.to_Q y))) as E1.
  assert (HT := Qle_trans _ _ _ Hrt E1).
  rewrite (Qabs_pos (B32.to_Q h - B32.to_Q y)) in HT by lra.
  clear Hrt E1 HHY.
  (* the scale *)
  destruct (dpi_scales_b32 d Hd) as (_ & _ & Hf1 & _ & He1 & _ & HS & _).
  cbv zeta in Hf1, He1, HS.
  set (H := B32.to_Q h) in *. set (Y := B32.to_Q y) in *.
  set (c := B32.to_Q d) in *.
  set (t := fsub h y) in *. set (s := fdiv d (of_int 72)) in *.
  assert (HTd : (Qabs (B32.to_Q t - (H - Y)) <= 2 # 1000)%Q) by abs_lra.
  assert (HTb : (Qabs (B32.to_Q t) <= 14400 + (2 # 1000))%Q).
  { apply Qabs_le_of_diff in HTd. rewrite (Qabs_pos (H - Y)) in HTd by lra. lra. }
  assert (HSa : (Qabs (B32.to_Q s) <= 35)%Q).
  { pose proof (Qabs_le_of_diff _ _ _ HS) as HS'.
    rewrite (Qabs_pos (c * (1 # 72))) in HS' by lra. lra. }
  pose proof (Qabs_le_mult _ _ _ _ HTb HSa) as HTS.
  assert (H19 : (bpow 19 == 524288)%Q) by reflexivity.
  assert (HTS' : (Qabs (B32.to_Q t * B32.to_Q s) <= bpow 19)%Q)
    by (rewrite H19; lra).
  assert (Het : expo t + expo s <= 103).
  { assert (Htv : expo t <= -8).
    { destruct (SFsub_error h y 14 Hfh Hfy) as (_ & Het & _); [| lia |].
      - rewrite H14. apply Qabs_Qle_condition. fold H Y. lra.
      - fold t in Het.
        pose proof (valid_expo h 14 Hvh) as Heh. rewrite H14 in Heh.
        pose proof (valid_expo y 14 Hvy) as Hey. rewrite H14 in Hey.
        fold H in Heh. fold Y in Hey.
        assert (Ha : (Qabs H <= 16384)%Q) by (apply Qabs_Qle_condition; lra).
        assert (Hb : (Qabs Y <= 16384)%Q) by (apply Qabs_Qle_condition; lra).
        specialize (Heh Ha ltac:(lia)). specialize (Hey Hb ltac:(lia)). lia. }
    lia. }
  destruct (SFmul_error_upto 19 t s Hft Hf1 Het ltac:(lia) HTS')
    as (Hfp & _ & Hrp).
  split; [exact Hfp |]. split.
  - eapply Qle_trans; [exact Hnx | lra].
  - pose proof (eps_le _ (Qabs_nonneg (B32.to_Q t * B32.to_Q s))) as E2.
    assert (HP := Qle_trans _ _ _ Hrp E2).
    rewrite H19 in HTS'.
    assert (HSd : (Qabs (B32.to_Q s - c * (1 # 72)) <= 5 # 1000000)%Q) by abs_lra.
    pose proof (Qabs_le_mult _ _ _ _ HTb HSd) as H1.
    pose proof (Qabs_le_mult _ _ _ _ HTd (Qle_refl (Qabs (c * (1 # 72))))) as H2.
    rewrite (Qabs_pos (c * (1 # 72))) in H2 by lra.
    assert (H2' : (Qabs ((B32.to_Q t - (H - Y)) * (c * (1 # 72))) <= 7 # 100)%Q).
    { eapply Qle_trans; [exact H2 |]. nra. }
    assert (Heq : (B32.to_Q (fmul t s) - (H - Y) * (c * (1 # 72)) ==
                   (B32.to_Q (fmul t s) - B32.to_Q t * B32.to_Q s)
                   + (B32.to_Q t * (B32.to_Q s - c * (1 # 72))
                      + (B32.to_Q t - (H - Y)) * (c * (1 # 72))))%Q) by ring.
    rewrite Heq. eapply Qle_trans; [apply Qabs_triangle |].
    eapply Qle_trans; [apply Qplus_le_r, Qabs_triangle |].
    clear - HP HTS' H1 H2'. abs_lra.
Qed.

(** A pixel coordinate of up to [200 * dpi] in magnitude, scaled back to
    points as [pixel_to_page] does: within 1/200 of the exact product. *)
Lemma unscaled_b32 (x d : B32.t) :
  b32_between 1 2400 d = true ->
  b32_between (- (200 * B32.to_Q d)) (200 * B32.to_Q d) x = true ->
  let p := fmul x (fdiv (of_int 72) d) in
  B32.is_finite p = true /\
  (Qabs (B32.to_Q p - B32.to_Q x * (72 / B32.to_Q d)) <= 1 # 200)%Q /\
  (Qabs (B32.to_Q x * (72 / B32.to_Q d)) <= 14400)%Q.
Proof.
  intros Hd Hx p. subst p.
  destruct (dpi_scales_b32 d Hd) as (Hc1 & Hc2 & _ & Hf2 & _ & He2 & _ & HS).
  cbv zeta in Hf2, He2, HS.
  set (s := fdiv (of_int 72) d) in *.
  apply b32_between_spec in Hx as (Hv & Hfx & Hx1 & Hx2).
  assert (HX : (Qabs (B32.to_Q x) <= 200 * B32.to_Q d)%Q)
    by (apply Qabs_Qle_condition; split; assumption).
  assert (HX72 : (Qabs (B32.to_Q x) * 72 <= 14400 * B32.to_Q d)%Q) by abs_lra.
  assert (Hex : expo x <= -4).
  { pose proof (valid_expo x 19 Hv) as He.
    assert (H19 : (bpow 19 == 524288)%Q) by reflexivity. rewrite H19 in He.
    assert (Ha : (Qabs (B32.to_Q x) <= 524288)%Q) by abs_lra.
    specialize (He Ha ltac:(lia)). lia. }
  assert (H14 : (bpow 14 == 16384)%Q) by reflexivity.
  assert (Hmul : (Qabs (B32.to_Q x * B32.to_Q s) <= 16384)%Q ->
                 B32.is_finite (fmul x s) = true /\
                 (Qabs (B32.to_Q (fmul x s) - B32.to_Q x * B32.to_Q s)
                  <= (1 # 8388608) * Qabs (B32.to_Q x * B32.to_Q s)
                     + (1 # 1267650600228229401496703205376))%Q).
  { intros Hb. rewrite <- H14 in Hb.
    destruct (SFmul_error_upto 14 x s Hfx Hf2 ltac:(lia) ltac:(lia) Hb)
      as (Hf & _ & Hr).
    split; [exact Hf |].
    eapply Qle_trans; [exact Hr | apply eps_le, Qabs_nonneg]. }
  destruct (to_point_bound (B32.to_Q x) (B32.to_Q d) (B32.to_Q s)
              (B32.to_Q (fmul x s)) Hc1 Hc2 HX72 HS
              (fun Hb => proj2 (Hmul Hb))) as (Hb & Hnear & Hmag).
  split; [exact (proj1 (Hmul Hb)) |]. split; [exact Hnear | exact Hmag].
Qed.

(** In binary32 [pixel_to_page] is within a hundredth of a point of the
    exact map [(x * 72 / dpi, h - y * 72 / dpi)], for pixel coordinates up
    to [200 * dpi] in magnitude (200 inches), page heights up to 14400
    points and resolutions from 1 to 2400 dpi. *)
Theorem pixel_to_page_b32_accurate (x y h d : B32.t) :
  b32_between 1 2400 d = true ->
  b32_between 0 14400 h = true ->
  b32_between (- (200 * B32.to_Q d)) (200 * B32.to_Q d) x = true ->
  b32_between (- (200 * B32.to_Q d)) (200 * B32.to_Q d) y = true ->
  let p := pixel_to_page (mkPoint x y) d h in
  let scale := (72 / B32.to_Q d)%Q in
  B32.is_finite (px p) = true /\ B32.is_finite (py p) = true /\
  (Qabs (B32.to_Q (px p) - B32.to_Q x * scale) <= 1 # 100)%Q /\
  (Qabs (B32.to_Q (py p) - (B32.to_Q h - B32.to_Q y * scale)) <= 1 # 100)%Q.
Proof.
  intros Hd Hh Hx Hy p scale. subst p scale.
  unfold pixel_to_page. cbn [px py].
  destruct (unscaled_b32 x d Hd Hx) as (Hfx & Hnx & _).
  destruct (unscaled_b32 y d Hd Hy) as (Hfq & Hnq & Hmq).
  cbv zeta in Hfx, Hnx, Hfq, Hnq.
  pose proof (b32_between_spec _ _ _ Hh) as (_ & Hfh & Hh1 & Hh2).
  split; [exact Hfx |].
  pose proof (Qabs_le_of_diff _ _ _ Hnq) as HQ.
  assert (H15 : (bpow 15 == 32768)%Q) by reflexivity.
  assert (HHQ : (Qabs (B32.to_Q h - B32.to_Q (fmul y (fdiv (of_int 72) d)))
                 <= 14400 + (14400 + (1 # 200)))%Q).
  { eapply Qle_trans; [apply Qabs_triangle |].
    rewrite Qabs_opp, (Qabs_pos (B32.to_Q h)) by lra.
    clear - HQ Hmq Hh2. abs_lra. }
  assert (HHQ' : (Qabs (B32.to_Q h - B32.to_Q (fmul y (fdiv (of_int 72) d)))
                  <= bpow 15)%Q) by (rewrite H15; clear - HHQ; abs_lra).
  destruct (SFsub_error h _ 15 Hfh Hfq HHQ' ltac:(lia)) as (Hfr & _ & Hrr).
  split; [exact Hfr |]. split.
  - eapply Qle_trans; [exact Hnx | lra].
  - pose proof (eps_le _ (Qabs_nonneg
        (B32.to_Q h - B32.to_Q (fmul y (fdiv (of_int 72) d))))) as E.
    assert (HR := Qle_trans _ _ _ Hrr E).
    set (r := fsub h (fmul y (fdiv (of_int 72) d))) in *.
    set (q := fmul y (fdiv (of_int 72) d)) in *.
    assert (Heq : (B32.to_Q r - (B32.to_Q h - B32.to_Q y * (72 / B32.to_Q d)) ==
                   (B32.to_Q r - (B32.to_Q h - B32.to_Q q))
                   + - (B32.to_Q q - B32.to_Q y * (72 / B32.to_Q d)))%Q) by ring.
    rewrite Heq. eapply Qle_trans; [apply Qabs_triangle |].
    rewrite Qabs_opp.
    clear - HR HHQ Hnq. abs_lra.
Qed.

(** ** The viewer *)

Lemma SFcompare_swap (x y : spec_float) :
  SFcompare y x = CompOpp <$> SFcompare x y.
Proof.
  destruct x as [sx | sx | | sx mx ex], y as [sy | sy | | sy my ey];
    cbn [SFcompare fmap option_fmap option_map];
    try destruct sx; try destruct sy; try reflexivity.
  - rewrite (Z.compare_antisym ex ey).
    destruct (ex ?= ey); cbn [CompOpp]; try reflexivity.
    now rewrite CompOpp_involutive, Pos.compare_cont_antisym.
  - rewrite (Z.compare_antisym ex ey).
    destruct (ex ?= ey); cbn [CompOpp]; try reflexivity.
    now rewrite Pos.compare_cont_antisym.
Qed.

(** [!(a < b)] for numbers that compare gives [b <= a]. *)
Lemma SFleb_of_not_ltb (a b : spec_float) :
  a <> S754_nan -> b <> S754_nan -> SFltb a b = false -> SFleb b a = true.
Proof.
  intros Ha Hb. unfold SFltb, SFleb. rewrite (SFcompare_swap a b).
  destruct a, b; try congruence;
    destruct (SFcompare _ _) as [[| |] |] eqn:E;
    cbn [fmap option_fmap option_map CompOpp]; try congruence;
    try (intros _; reflexivity); cbn [SFcompare] in E;
    repeat match type of E with
           | context [if ?s then _ else _] => destruct s
           | context [match ?s with true => _ | false => _ end] => destruct s
           end; discriminate.
Qed.

Section ViewerFacts.

Variable backend : option (Engine B32.t).
Variable doc_backend : option Doc.Engine.

Lemma same_view_refl (v : Viewer.PDFViewer) : Viewer.same_view v v.
Proof. unfold Viewer.same_view. tauto. Qed.

Lemma same_view_trans (v1 v2 v3 : Viewer.PDFViewer) :
  Viewer.same_view v1 v2 -> Viewer.same_view v2 v3 -> Viewer.same_view v1 v3.
Proof.
  unfold Viewer.same_view.
  intros (?&?&?&?&?&?&?&?&?) (?&?&?&?&?&?&?&?&?).
  repeat split; etrans; eassumption.
Qed.

Lemma Doc_get_page_doc (index : Z) (d : Doc.Impl) :
  Doc.doc_ (after (Doc.get_page doc_backend index) d) = Doc.doc_ d.
Proof.
  unfold after, Doc.get_page.
  destruct (_ || _); [reflexivity |]. cbn [snd].
  destruct (index >=? _); cbn [Doc.pages_ Doc.doc_];
    destruct (_ !! _) as [[?|]|]; reflexivity.
Qed.

Lemma page_object_doc (index : Z) (d : Doc.Impl) :
  Doc.doc_ (after (Viewer.page_object doc_backend index) d) = Doc.doc_ d.
Proof.
  unfold after, Viewer.page_object.
  pose proof (Doc_get_page_doc index d) as H. unfold after in H.
  destruct (Doc.get_page doc_backend index d) as [p d']. exact H.
Qed.

(** On a document whose page objects are all as [get_page] makes them,
    [get_page] hands out such an object or null. *)
Lemma page_object_blank (index : Z) (d : Doc.Impl) :
  Doc.blank d ->
  Doc.blank (after (Viewer.page_object doc_backend index) d) /\
  (outcome (Viewer.page_object doc_backend index) d = None \/
   outcome (Viewer.page_object doc_backend index) d = Some new_Page).
Proof.
  intros Hb. unfold after, outcome, Viewer.page_object.
  pose proof (Doc_blank_get_page doc_backend index d Hb) as Hb'.
  unfold after in Hb'.
  destruct (Doc.get_page doc_backend index d) as [p d']. cbn [fst snd] in *.
  split; [exact Hb' |].
  destruct p as [i |]; [| now left]. cbn [mbind option_bind].
  unfold Doc.page_at. destruct (Doc.pages_ d' !! i) as [slot |] eqn:E;
    [| now left].
  unfold Doc.blank in Hb'. rewrite Forall_lookup in Hb'.
  destruct (Hb' i slot E) as [-> | ->]; [now left | now right].
Qed.

Lemma show_same (index : Z) (image : Viewer.QImage) (v : Viewer.PDFViewer) :
  Viewer.same_view v (Viewer.show index image v).
Proof.
  unfold Viewer.show. destruct (_ <? _); [| apply same_view_refl].
  unfold Viewer.same_view. cbn. tauto.
Qed.

Lemma renderCurrentPage_same (v : Viewer.PDFViewer) :
  Viewer.same_view v (after (Viewer.renderCurrentPage backend doc_backend) v).
Proof.
  unfold after, Viewer.renderCurrentPage.
  destruct (Viewer.document_ v) as [d |] eqn:Hd; [| apply same_view_refl].
  destruct (_ || _); [apply same_view_refl |].
  destruct (Viewer.pageCache_ v !! Viewer.currentPage_ v); [apply show_same |].
  pose proof (page_object_doc (Viewer.currentPage_ v) d) as Hdoc.
  unfold after in Hdoc.
  destruct (Viewer.page_object doc_backend (Viewer.currentPage_ v) d)
    as [page d']. cbn [snd] in Hdoc.
  assert (H1 : Viewer.same_view v (Viewer.with_document v (Some d'))).
  { unfold Viewer.same_view. cbn. rewrite Hd. cbn. rewrite Hdoc. tauto. }
  destruct page as [pg |]; [| exact H1].
  destruct (render_page backend (Some pg) _ _) as [result r'].
  set (v2 := Viewer.with_renderer _ r').
  assert (H2 : Viewer.same_view v v2).
  { eapply same_view_trans; [exact H1 |]. unfold Viewer.same_view. cbn. tauto. }
  destruct (is_ok result); [| exact H2].
  destruct (value_ result) as [buffer |]; [| exact H2]. cbn [snd].
  eapply same_view_trans; [exact H2 |].
  eapply same_view_trans; [apply show_same |].
  unfold Viewer.same_view, Viewer.cache_page. cbn. tauto.
Qed.

Lemma updateLayout_same (v : Viewer.PDFViewer) :
  Viewer.same_view v (after (Viewer.updateLayout doc_backend) v).
Proof.
  unfold after, Viewer.updateLayout.
  destruct (Viewer.document_ v) as [d |]; [| apply same_view_refl].
  destruct (Viewer.viewMode_ v); try apply same_view_refl.
  - destruct (Viewer.pageWidgets_ v); [| apply same_view_refl].
    unfold Viewer.same_view. cbn. tauto.
  - unfold Viewer.same_view. cbn. tauto.
Qed.


Lemma after_bind {S A B} (m : ST S A) (k : A -> ST S B) (s : S) :
  after (bind m k) s = after (k (outcome m s)) (after m s).
Proof. unfold after, outcome, bind. now destruct (m s). Qed.

(** Rendering the current page and emitting a signal. *)
Lemma render_emit_same (sig : Viewer.Signal) (v : Viewer.PDFViewer) :
  let v' := after (let* _ := Viewer.renderCurrentPage backend doc_backend in
                   Viewer.emit sig) v in
  Viewer.currentPage_ v' = Viewer.currentPage_ v /\
  Viewer.zoom_ v' = Viewer.zoom_ v /\
  Viewer.rotation_ v' = Viewer.rotation_ v /\
  Viewer.viewMode_ v' = Viewer.viewMode_ v /\
  Viewer.emitted v' = Viewer.emitted v ++ [sig] /\
  Doc.doc_ <$> Viewer.document_ v' = Doc.doc_ <$> Viewer.document_ v.
Proof.
  intros v'. subst v'. rewrite after_bind.
  destruct (renderCurrentPage_same v) as (H1&H2&H3&H4&H5&H6&H7&H8&H9).
  set (w := after (Viewer.renderCurrentPage backend doc_backend) v) in *.
  unfold after, Viewer.emit. cbn. rewrite H8. tauto.
Qed.

(** Laying out, rendering the current page and emitting a signal. *)
Lemma layout_render_emit_same (sig : Viewer.Signal) (v : Viewer.PDFViewer) :
  let v' := after (let* _ := Viewer.updateLayout doc_backend in
                   let* _ := Viewer.renderCurrentPage backend doc_backend in
                   Viewer.emit sig) v in
  Viewer.currentPage_ v' = Viewer.currentPage_ v /\
  Viewer.zoom_ v' = Viewer.zoom_ v /\
  Viewer.rotation_ v' = Viewer.rotation_ v /\
  Viewer.viewMode_ v' = Viewer.viewMode_ v /\
  Viewer.emitted v' = Viewer.emitted v ++ [sig] /\
  Doc.doc_ <$> Viewer.document_ v' = Doc.doc_ <$> Viewer.document_ v.
Proof.
  intros v'. subst v'. rewrite after_bind.
  destruct (updateLayout_same v) as (H1&H2&H3&H4&H5&H6&H7&H8&H9).
  set (w := after (Viewer.updateLayout doc_backend) v) in *.
  destruct (render_emit_same sig w) as (G1&G2&G3&G4&G5&G6).
  cbv zeta in *. rewrite G1, G2, G3, G4, G5, G6, H1, H2, H3, H4, H8, H9. tauto.
Qed.

(** [Document::page_count] looks at the engine document only. *)
Lemma page_count_doc (d d' : Doc.Impl) :
  Doc.doc_ d' = Doc.doc_ d ->
  Doc.page_count doc_backend d' = Doc.page_count doc_backend d.
Proof. intros Hd. unfold Doc.page_count. now rewrite Hd. Qed.

Lemma pageCount_doc (v v' : Viewer.PDFViewer) :
  Doc.doc_ <$> Viewer.document_ v' = Doc.doc_ <$> Viewer.document_ v ->
  Viewer.pageCount doc_backend v' = Viewer.pageCount doc_backend v.
Proof.
  unfold Viewer.pageCount.
  destruct (Viewer.document_ v'), (Viewer.document_ v); cbn; try congruence.
  intros [= Hd]. now apply page_count_doc.
Qed.

(** [goToPage] moves to the nearest page of the document. *)
Lemma goToPage_after (v : Viewer.PDFViewer) (d : Doc.Impl) (pageIndex : Z) :
  Viewer.document_ v = Some d ->
  let n := Doc.page_count doc_backend d in
  let target :=
    if Z.max pageIndex 0 >=? n then Int32.add n (-1) else Z.max pageIndex 0 in
  let v' := after (Viewer.goToPage backend doc_backend pageIndex) v in
  Viewer.currentPage_ v' = target /\
  Viewer.emitted v' =
    Viewer.emitted v ++
    (if decide (target = Viewer.currentPage_ v) then []
     else [Viewer.pageChanged target]) /\
  Viewer.zoom_ v' = Viewer.zoom_ v /\
  Viewer.rotation_ v' = Viewer.rotation_ v /\
  Viewer.viewMode_ v' = Viewer.viewMode_ v /\
  Doc.doc_ <$> Viewer.document_ v' = Doc.doc_ <$> Viewer.document_ v.
Proof.
  intros Hd n target v'.
  assert (Hmax : (if pageIndex <? 0 then 0 else pageIndex) = Z.max pageIndex 0)
    by (destruct (Z.ltb_spec pageIndex 0); lia).
  assert (Hrun : Viewer.goToPage backend doc_backend pageIndex v =
            if bool_decide (Viewer.currentPage_ v <> target)
            then (let* _ := Viewer.renderCurrentPage backend doc_backend in
                  Viewer.emit (Viewer.pageChanged target))
                   (Viewer.with_currentPage v target)
            else (tt, v)).
  { unfold Viewer.goToPage. rewrite Hd. cbv zeta. rewrite !Hmax. reflexivity. }
  subst v'. unfold after at 1 2 3 4 5 6. rewrite Hrun. clear Hrun.
  destruct (decide (target = Viewer.currentPage_ v)) as [Heq | Hne].
  - rewrite bool_decide_eq_false_2 by (intros Hc; now apply Hc).
    cbn [snd]. rewrite app_nil_r. now rewrite Heq.
  - rewrite bool_decide_eq_true_2 by (intros Hc; now apply Hne).
    destruct (render_emit_same (Viewer.pageChanged target)
                (Viewer.with_currentPage v target)) as (H1&H2&H3&H4&H5&H6).
    cbv zeta in *. unfold after in H1, H2, H3, H4, H5, H6.
    rewrite H1, H2, H3, H4, H5, H6. cbn. tauto.
Qed.

(** [setZoom] changes nothing, or sets the clamped zoom, which then
    differs from the old one by more than 0.01. *)
Lemma setZoom_after (zoom : B64.t) (v : Viewer.PDFViewer) :
  let v' := after (Viewer.setZoom backend doc_backend zoom) v in
  (v' = v \/
   Viewer.zoom_ v' = Viewer.clamp_zoom zoom /\
   SFltb (B64.literal 1 100)
     (SFabs (B64.sub (Viewer.zoom_ v) (Viewer.clamp_zoom zoom))) = true /\
   Viewer.emitted v' =
     Viewer.emitted v ++ [Viewer.zoomChanged (Viewer.clamp_zoom zoom)]) /\
  Viewer.currentPage_ v' = Viewer.currentPage_ v /\
  Viewer.rotation_ v' = Viewer.rotation_ v /\
  Viewer.viewMode_ v' = Viewer.viewMode_ v /\
  Doc.doc_ <$> Viewer.document_ v' = Doc.doc_ <$> Viewer.document_ v.
Proof.
  intros v'. subst v'. unfold after at 1 2 3 4 5 6 7. unfold Viewer.setZoom.
  cbv zeta.
  destruct (SFltb _ (SFabs _)) eqn:E.
  - set (v2 := Viewer.with_pageWidgets _ _).
    destruct (layout_render_emit_same
                (Viewer.zoomChanged (Viewer.clamp_zoom zoom)) v2)
      as (H1&H2&H3&H4&H5&H6).
    cbv zeta in *. unfold after in H1, H2, H3, H4, H5, H6.
    rewrite H1, H2, H3, H4, H5, H6.
    split; [right |]; cbn; tauto.
  - cbn [snd]. split; [now left | tauto].
Qed.

(** [degrees % 360] with the negative remainders moved up is the
    residue of [degrees] modulo 360. *)
Lemma rem_360 (degrees : Z) :
  (if Z.rem degrees 360 <? 0 then Z.rem degrees 360 + 360
   else Z.rem degrees 360) = degrees mod 360.
Proof.
  pose proof (Z.quot_rem' degrees 360) as Hq.
  destruct (Z.le_gt_cases 0 degrees) as [Hpos | Hneg].
  - pose proof (Z.rem_bound_pos degrees 360 Hpos ltac:(lia)) as Hb.
    destruct (Z.ltb_spec (Z.rem degrees 360) 0); [lia |].
    apply (Z.mod_unique degrees 360 (degrees ÷ 360)); [lia | exact Hq].
  - pose proof (Z.rem_bound_pos (- degrees) 360 ltac:(lia) ltac:(lia)) as Hb.
    rewrite Z.rem_opp_l in Hb by lia.
    destruct (Z.ltb_spec (Z.rem degrees 360) 0).
    + apply (Z.mod_unique degrees 360 (degrees ÷ 360 - 1)); lia.
    + apply (Z.mod_unique degrees 360 (degrees ÷ 360)); [lia | exact Hq].
Qed.

Lemma setRotation_after (degrees : Z) (v : Viewer.PDFViewer) :
  let v' := after (Viewer.setRotation backend doc_backend degrees) v in
  Viewer.rotation_ v' = degrees mod 360 /\
  Viewer.emitted v' =
    Viewer.emitted v ++
    (if decide (degrees mod 360 = Viewer.rotation_ v) then []
     else [Viewer.rotationChanged (degrees mod 360)]) /\
  Viewer.currentPage_ v' = Viewer.currentPage_ v /\
  Viewer.zoom_ v' = Viewer.zoom_ v /\
  Viewer.viewMode_ v' = Viewer.viewMode_ v /\
  Doc.doc_ <$> Viewer.document_ v' = Doc.doc_ <$> Viewer.document_ v.
Proof.
  intros v'. subst v'. unfold after at 1 2 3 4 5 6. unfold Viewer.setRotation.
  cbv zeta. rewrite !rem_360.
  destruct (decide (degrees mod 360 = Viewer.rotation_ v)) as [Heq | Hne].
  - rewrite bool_decide_eq_false_2 by (intros Hc; now apply Hc).
    cbn [snd]. rewrite app_nil_r. now rewrite Heq.
  - rewrite bool_decide_eq_true_2 by (intros Hc; now apply Hne).
    set (v2 := Viewer.with_pageWidgets _ _).
    destruct (render_emit_same (Viewer.rotationChanged (degrees mod 360)) v2)
      as (H1&H2&H3&H4&H5&H6).
    cbv zeta in *. unfold after in H1, H2, H3, H4, H5, H6.
    rewrite H1, H2, H3, H4, H5, H6. cbn. tauto.
Qed.

Lemma setViewMode_same (mode : Viewer.ViewMode) (v : Viewer.PDFViewer) :
  let v' := after (Viewer.setViewMode backend doc_backend mode) v in
  Viewer.zoom_ v' = Viewer.zoom_ v /\ Viewer.rotation_ v' = Viewer.rotation_ v.
Proof.
  intros v'. subst v'. unfold after at 1 2. unfold Viewer.setViewMode.
  destruct (bool_decide _); [| now cbn].
  fold (after (let* _ := Viewer.updateLayout doc_backend in
               Viewer.renderCurrentPage backend doc_backend)
          (Viewer.with_viewMode v mode)).
  rewrite after_bind.
  set (w := after (Viewer.updateLayout doc_backend) (Viewer.with_viewMode v mode)).
  destruct (renderCurrentPage_same w) as (_&H2&H3&_).
  destruct (updateLayout_same (Viewer.with_viewMode v mode)) as (_&G2&G3&_).
  fold w in G2, G3. rewrite H2, H3, G2, G3. now cbn.
Qed.

Lemma setRenderQuality_same (quality : RenderQuality) (v : Viewer.PDFViewer) :
  let v' := after (Viewer.setRenderQuality backend doc_backend quality) v in
  Viewer.zoom_ v' = Viewer.zoom_ v /\ Viewer.rotation_ v' = Viewer.rotation_ v.
Proof.
  intros v'. subst v'. unfold after at 1 2. unfold Viewer.setRenderQuality.
  destruct (bool_decide _); [| now cbn].
  set (w := Viewer.with_pageCache _ _).
  destruct (renderCurrentPage_same w) as (_&H2&H3&_).
  unfold after in H2, H3. rewrite H2, H3. now cbn.
Qed.

Lemma setDocument_same (document : option Doc.Impl) (v : Viewer.PDFViewer) :
  let v' := after (Viewer.setDocument backend doc_backend document) v in
  Viewer.zoom_ v' = Viewer.zoom_ v /\ Viewer.rotation_ v' = Viewer.rotation_ v.
Proof.
  intros v'. subst v'. unfold after at 1 2. unfold Viewer.setDocument.
  cbv zeta. destruct document as [d |]; [| now cbn].
  set (w := Viewer.with_pageWidgets _ _).
  destruct (layout_render_emit_same Viewer.documentChanged w)
    as (_&H2&H3&_).
  cbv zeta in *. unfold after in H2, H3. rewrite H2, H3. now cbn.
Qed.

(** The three zoom-to-fit computations change nothing of the view. *)
Lemma calculateZoomToFit_same (v : Viewer.PDFViewer) :
  Viewer.same_view v (after (Viewer.calculateZoomToFit backend doc_backend) v) /\
  Viewer.same_view v
    (after (Viewer.calculateZoomToFitWidth backend doc_backend) v) /\
  Viewer.same_view v
    (after (Viewer.calculateZoomToFitHeight backend doc_backend) v).
Proof.
  unfold after, Viewer.calculateZoomToFit, Viewer.calculateZoomToFitWidth,
    Viewer.calculateZoomToFitHeight.
  destruct (Viewer.document_ v) as [d |] eqn:Hd;
    [| split; [| split]; apply same_view_refl].
  pose proof (page_object_doc (Viewer.currentPage_ v) d) as Hdoc.
  unfold after in Hdoc.
  destruct (Viewer.page_object doc_backend (Viewer.currentPage_ v) d)
    as [page d']. cbn [snd] in Hdoc.
  assert (H1 : Viewer.same_view v (Viewer.with_document v (Some d'))).
  { unfold Viewer.same_view. cbn. rewrite Hd. cbn. rewrite Hdoc. tauto. }
  destruct page; (split; [| split]); exact H1.
Qed.

(** What a call does to zoom and rotation. *)
Lemma run_viewer_call_zoom_rotation (v : Viewer.PDFViewer)
    (c : Viewer.ViewerCall) :
  let v' := Viewer.run_viewer_call backend doc_backend v c in
  (Viewer.zoom_ v' = Viewer.zoom_ v \/
   exists zoom,
     Viewer.zoom_ v' = Viewer.clamp_zoom zoom /\
     SFltb (B64.literal 1 100)
       (SFabs (B64.sub (Viewer.zoom_ v) (Viewer.clamp_zoom zoom))) = true) /\
  (Viewer.rotation_ v' = Viewer.rotation_ v \/
   exists degrees, Viewer.rotation_ v' = degrees mod 360).
Proof.
  assert (Hzoom : forall zoom w,
            Viewer.zoom_ w = Viewer.zoom_ v ->
            Viewer.rotation_ w = Viewer.rotation_ v ->
            let v' := after (Viewer.setZoom backend doc_backend zoom) w in
            (Viewer.zoom_ v' = Viewer.zoom_ v \/
             exists zoom,
               Viewer.zoom_ v' = Viewer.clamp_zoom zoom /\
               SFltb (B64.literal 1 100)
                 (SFabs (B64.sub (Viewer.zoom_ v) (Viewer.clamp_zoom zoom)))
               = true) /\
            (Viewer.rotation_ v' = Viewer.rotation_ v \/
             exists degrees, Viewer.rotation_ v' = degrees mod 360)).
  { intros zoom w Hz Hr v'. subst v'.
    destruct (setZoom_after zoom w) as (Hcase & _ & H3 & _). cbv zeta in *.
    split; [| left; now rewrite H3].
    destruct Hcase as [-> | (H1 & H2 & _)].
    - now left.
    - right. exists zoom. rewrite <- Hz. now split. }
  assert (Hgo : forall i,
            let v' := after (Viewer.goToPage backend doc_backend i) v in
            Viewer.zoom_ v' = Viewer.zoom_ v /\
            Viewer.rotation_ v' = Viewer.rotation_ v).
  { intros i v'. subst v'.
    destruct (Viewer.document_ v) as [d |] eqn:Hd.
    - destruct (goToPage_after v d i Hd) as (_ & _ & Hz & Hr & _). now split.
    - unfold after, Viewer.goToPage. rewrite Hd. now cbn. }
  assert (Hrot : forall degrees,
            let v' := after (Viewer.setRotation backend doc_backend degrees) v in
            Viewer.zoom_ v' = Viewer.zoom_ v /\
            exists degrees, Viewer.rotation_ v' = degrees mod 360).
  { intros degrees v'. subst v'.
    destruct (setRotation_after degrees v) as (Hr & _ & _ & Hz & _).
    split; [exact Hz | now exists degrees]. }
  intros v'; subst v'; destruct c; cbn [Viewer.run_viewer_call];
    try (destruct (Hgo pageIndex) as [Hz Hr]; split; left; assumption).
  - destruct (setDocument_same document v). split; left; assumption.
  - unfold Viewer.nextPage.
    destruct (Hgo (Int32.add (Viewer.currentPage_ v) 1)); split; left; assumption.
  - unfold Viewer.previousPage.
    destruct (Hgo (Int32.add (Viewer.currentPage_ v) (-1)));
      split; left; assumption.
  - destruct (Hgo 0); split; left; assumption.
  - unfold after, Viewer.lastPage.
    destruct (Viewer.document_ v) as [d |]; [| split; now left].
    destruct (Hgo (Int32.add (Doc.page_count doc_backend d) (-1)));
      split; left; assumption.
  - apply Hzoom; reflexivity.
  - apply Hzoom; reflexivity.
  - unfold Viewer.zoomFit. rewrite after_bind.
    destruct (calculateZoomToFit_same v) as ((_&H2&H3&_) & _).
    apply Hzoom; assumption.
  - unfold Viewer.zoomFitWidth. rewrite after_bind.
    destruct (calculateZoomToFit_same v) as (_ & (_&H2&H3&_) & _).
    apply Hzoom; assumption.
  - unfold Viewer.zoomFitHeight. rewrite after_bind.
    destruct (calculateZoomToFit_same v) as (_ & _ & (_&H2&H3&_)).
    apply Hzoom; assumption.
  - apply Hzoom; reflexivity.
  - apply Hzoom; reflexivity.
  - destruct (Hrot (Z.rem (Int32.add (Viewer.rotation_ v) 90) 360)) as [Hz Hr].
    split; [now left | now right].
  - destruct (Hrot (Z.rem (Int32.add (Viewer.rotation_ v) 270) 360)) as [Hz Hr].
    split; [now left | now right].
  - destruct (Hrot degrees) as [Hz Hr]. split; [now left | now right].
  - destruct (setViewMode_same mode v). split; left; assumption.
  - destruct (setRenderQuality_same quality v). split; left; assumption.
  - split; now left.
Qed.

End ViewerFacts.

Section ViewerNavigation.

Variable backend : option (Engine B32.t).
Variable doc_backend : option Doc.Engine.

(** [PDFViewer::goToPage] moves to the page of the document nearest to
    the one asked for: with at least one page the current page stays in
    [0, page_count()), but on an empty document it becomes -1.
    [pageChanged] is emitted exactly when the current page changes; zoom
    and rotation are kept. *)
Theorem Viewer_goToPage_clamps (v : Viewer.PDFViewer) (d : Doc.Impl)
    (pageIndex : Z) :
  Viewer.document_ v = Some d ->
  Int32.INT_MIN < Doc.page_count doc_backend d <= Int32.INT_MAX ->
  let n := Doc.page_count doc_backend d in
  let v' := after (Viewer.goToPage backend doc_backend pageIndex) v in
  Viewer.currentPage_ v' = Z.min (Z.max pageIndex 0) (n - 1) /\
  (1 <= n -> 0 <= Viewer.currentPage_ v' < n) /\
  (n = 0 -> Viewer.currentPage_ v' = -1) /\
  Viewer.emitted v' =
    Viewer.emitted v ++
    (if decide (Viewer.currentPage_ v' = Viewer.currentPage_ v) then []
     else [Viewer.pageChanged (Viewer.currentPage_ v')]) /\
  Viewer.zoom_ v' = Viewer.zoom_ v /\
  Viewer.rotation_ v' = Viewer.rotation_ v /\
  Viewer.pageCount doc_backend v' = n.
Proof.
  intros Hd Hn n v'.
  destruct (goToPage_after backend doc_backend v d pageIndex Hd)
    as (Hcur & Hem & Hz & Hr & _ & Hdoc).
  fold n v' in Hcur, Hem, Hz, Hr, Hdoc.
  assert (Ht : (if Z.max pageIndex 0 >=? n then Int32.add n (-1)
                else Z.max pageIndex 0) = Z.min (Z.max pageIndex 0) (n - 1)).
  { unfold Int32.add. rewrite Int32_wrap_small
      by (unfold Int32.INT_MIN, Int32.INT_MAX in *; lia).
    destruct (Z.max pageIndex 0 >=? n) eqn:E.
    - apply Z.geb_le in E. lia.
    - rewrite Z.geb_leb in E. apply Z.leb_gt in E. lia. }
  rewrite Ht in Hcur, Hem. rewrite Hcur.
  repeat split; try lia; try assumption.
  rewrite (pageCount_doc doc_backend v v' Hdoc).
  unfold Viewer.pageCount. now rewrite Hd.
Qed.

End ViewerNavigation.

Section ViewerInvariants.

Variable backend : option (Engine B32.t).
Variable doc_backend : option Doc.Engine.

(** A zoom that [setZoom] stores lies between 0.1 and 10. *)
Lemma clamp_zoom_in_range (zoom old : B64.t) :
  SFltb (B64.literal 1 100)
    (SFabs (B64.sub old (Viewer.clamp_zoom zoom))) = true ->
  Viewer.zoom_in_range (Viewer.clamp_zoom zoom).
Proof.
  intros Hfar.
  assert (Hnn : Viewer.clamp_zoom zoom <> S754_nan).
  { intros Hc. rewrite Hc in Hfar. destruct old; vm_compute in Hfar; discriminate. }
  clear Hfar. unfold Viewer.clamp_zoom, Viewer.zoom_in_range in *.
  destruct (SFltb zoom (B64.literal 1 10)) eqn:E1.
  - vm_compute. split; reflexivity.
  - destruct (SFltb (B64.of_Z 10) zoom) eqn:E2.
    + vm_compute. split; reflexivity.
    + split; apply SFleb_of_not_ltb; try assumption;
        vm_compute; discriminate.
Qed.

Lemma run_viewer_calls_zoom (calls : list Viewer.ViewerCall)
    (v : Viewer.PDFViewer) :
  Viewer.zoom_in_range (Viewer.zoom_ v) ->
  Viewer.zoom_in_range
    (Viewer.zoom_ (Viewer.run_viewer_calls backend doc_backend calls v)).
Proof.
  revert v. induction calls as [| c calls IH]; intros v Hv; [exact Hv |].
  cbn [Viewer.run_viewer_calls foldl]. apply IH.
  destruct (run_viewer_call_zoom_rotation backend doc_backend v c)
    as [[-> | (zoom & -> & Hfar)] _]; [exact Hv |].
  exact (clamp_zoom_in_range zoom _ Hfar).
Qed.

(** The zoom of a viewer always satisfies [0.1 <= zoom && zoom <= 10.0],
    whatever is asked of it (infinities and NaN included); [setZoom] with
    a NaN changes nothing. *)
Theorem Viewer_zoom_in_range (viewport : Z * Z)
    (calls : list Viewer.ViewerCall) :
  let v := Viewer.run_viewer_calls backend doc_backend calls
             (Viewer.new_PDFViewer viewport) in
  SFleb (B64.literal 1 10) (Viewer.zoom_ v) = true /\
  SFleb (Viewer.zoom_ v) (B64.of_Z 10) = true /\
  after (Viewer.setZoom backend doc_backend S754_nan) v = v.
Proof.
  intros v.
  destruct (run_viewer_calls_zoom calls (Viewer.new_PDFViewer viewport))
    as [Hlo Hhi]; [vm_compute; split; reflexivity |].
  fold v in Hlo, Hhi. split; [exact Hlo |]. split; [exact Hhi |].
  unfold after, Viewer.setZoom. cbv zeta.
  replace (Viewer.clamp_zoom S754_nan) with S754_nan by (vm_compute; reflexivity).
  destruct (Viewer.zoom_ v); reflexivity.
Qed.

Lemma run_viewer_calls_rotation (calls : list Viewer.ViewerCall)
    (v : Viewer.PDFViewer) :
  0 <= Viewer.rotation_ v < 360 ->
  0 <= Viewer.rotation_ (Viewer.run_viewer_calls backend doc_backend calls v)
    < 360.
Proof.
  revert v. induction calls as [| c calls IH]; intros v Hv; [exact Hv |].
  cbn [Viewer.run_viewer_calls foldl]. apply IH.
  destruct (run_viewer_call_zoom_rotation backend doc_backend v c)
    as [_ [-> | (degrees & ->)]]; [exact Hv |].
  apply Z.mod_pos_bound. lia.
Qed.

(** [setRotation] stores the residue of the angle modulo 360, for every
    [int], so the rotation of a viewer is always in [0, 360) (and need
    not be a multiple of 90).  [rotateClockwise] adds 90 and
    [rotateCounterclockwise] subtracts 90 modulo 360, and
    [rotationChanged] is emitted exactly when the rotation changes. *)
Theorem Viewer_rotation_normalised (viewport : Z * Z)
    (calls : list Viewer.ViewerCall) (degrees : Z) :
  let v := Viewer.run_viewer_calls backend doc_backend calls
             (Viewer.new_PDFViewer viewport) in
  let v' := after (Viewer.setRotation backend doc_backend degrees) v in
  0 <= Viewer.rotation_ v < 360 /\
  Viewer.rotation_ v' = degrees mod 360 /\
  Viewer.emitted v' =
    Viewer.emitted v ++
    (if decide (degrees mod 360 = Viewer.rotation_ v) then []
     else [Viewer.rotationChanged (degrees mod 360)]) /\
  Viewer.rotation_ (after (Viewer.rotateClockwise backend doc_backend) v) =
    (Viewer.rotation_ v + 90) mod 360 /\
  Viewer.rotation_ (after (Viewer.rotateCounterclockwise backend doc_backend) v) =
    (Viewer.rotation_ v - 90) mod 360.
Proof.
  intros v v'.
  assert (Hv : 0 <= Viewer.rotation_ v < 360).
  { apply run_viewer_calls_rotation. now cbn. }
  destruct (setRotation_after backend doc_backend degrees v)
    as (Hr & Hem & _).
  split; [exact Hv |]. split; [exact Hr |]. split; [exact Hem |].
  assert (Hturn : forall k, 0 <= k <= 360 ->
            Viewer.rotation_
              (after (Viewer.setRotation backend doc_backend
                        (Z.rem (Int32.add (Viewer.rotation_ v) k) 360)) v) =
            (Viewer.rotation_ v + k) mod 360).
  { intros k Hk.
    destruct (setRotation_after backend doc_backend
                (Z.rem (Int32.add (Viewer.rotation_ v) k) 360) v) as (Hr' & _).
    cbv zeta in Hr'. rewrite Hr'.
    unfold Int32.add. rewrite Int32_wrap_small
      by (unfold Int32.INT_MIN, Int32.INT_MAX; lia).
    rewrite Z.rem_mod_nonneg by lia. apply Z.mod_mod. lia. }
  split.
  - unfold Viewer.rotateClockwise. apply (Hturn 90). lia.
  - unfold Viewer.rotateCounterclockwise.
    change (after (fun v0 => Viewer.setRotation backend doc_backend
                     (Z.rem (Int32.add (Viewer.rotation_ v0) 270) 360) v0) v)
      with (after (Viewer.setRotation backend doc_backend
                     (Z.rem (Int32.add (Viewer.rotation_ v) 270) 360)) v).
    rewrite (Hturn 270) by lia.
    replace (Viewer.rotation_ v + 270) with (Viewer.rotation_ v - 90 + 1 * 360)
      by lia.
    apply Z.mod_add. lia.
Qed.

(** [render_page] on a page object as [Document::get_page] makes it. *)
Lemma render_page_new_Page (options : RenderOptions B32.t) (r : Renderer) :
  render_page backend (Some new_Page) options r = (no_handle_error backend, r) /\
  is_ok (no_handle_error backend) = false.
Proof.
  unfold render_page, no_handle_error. cbn [page_ new_Page].
  destruct backend as [e |]; [| split; reflexivity].
  destruct (fz_new_context e); split; reflexivity.
Qed.

Lemma quiet_renderCurrentPage (v : Viewer.PDFViewer) :
  Viewer.quiet v ->
  Viewer.quiet (after (Viewer.renderCurrentPage backend doc_backend) v).
Proof.
  intros Hq. pose proof Hq as (Hc & Hw & Hr & Hd).
  unfold after, Viewer.renderCurrentPage.
  destruct (Viewer.document_ v) as [d |] eqn:Ed; [| exact Hq].
  destruct (_ || _); [exact Hq |].
  rewrite Hc, lookup_empty.
  destruct (page_object_blank doc_backend (Viewer.currentPage_ v) d
              (Hd d eq_refl)) as [Hb Hp].
  unfold after, outcome in Hb, Hp.
  destruct (Viewer.page_object doc_backend (Viewer.currentPage_ v) d)
    as [page d']. cbn [fst snd] in Hb, Hp.
  assert (H1 : Viewer.quiet (Viewer.with_document v (Some d'))).
  { repeat split; try assumption. cbn. now intros ? [= <-]. }
  destruct Hp as [-> | ->]; [exact H1 |].
  cbn [Viewer.renderer_ Viewer.with_document Viewer.zoom_].
  destruct (render_page_new_Page
              (Viewer.viewer_options (Viewer.zoom_ v)) (Viewer.renderer_ v))
    as [Hrun Hok].
  rewrite Hrun, Hok. cbn [snd].
  destruct H1 as (G1 & G2 & G3 & G4). repeat split; assumption.
Qed.

Lemma quiet_updateLayout (v : Viewer.PDFViewer) :
  Viewer.quiet v -> Viewer.quiet (after (Viewer.updateLayout doc_backend) v).
Proof.
  intros Hq. pose proof Hq as (Hc & Hw & Hr & Hd).
  unfold after, Viewer.updateLayout.
  destruct (Viewer.document_ v) as [d |] eqn:Ed; [| exact Hq].
  assert (Hdoc : forall ws d0,
            Viewer.document_ (Viewer.with_pageWidgets v ws) = Some d0 ->
            Doc.blank d0).
  { intros ws d0. cbn. rewrite Ed. apply Hd. }
  destruct (Viewer.viewMode_ v); [| | exact Hq].
  - destruct (Viewer.pageWidgets_ v) eqn:Ew; [| exact Hq].
    split; [exact Hc |]. split; [| split; [exact Hr | apply Hdoc]].
    cbn. repeat constructor.
  - split; [exact Hc |]. split; [| split; [exact Hr | apply Hdoc]].
    cbn. apply Forall_app. split; [exact Hw |].
    apply Forall_forall. intros w Hin.
    apply list_elem_of_fmap in Hin as (i & -> & _). reflexivity.
Qed.

Lemma quiet_emit (sig : Viewer.Signal) (v : Viewer.PDFViewer) :
  Viewer.quiet v -> Viewer.quiet (after (Viewer.emit sig) v).
Proof. intros (Hc & Hw & Hr & Hd). repeat split; assumption. Qed.

Lemma quiet_render_emit (sig : Viewer.Signal) (v : Viewer.PDFViewer) :
  Viewer.quiet v ->
  Viewer.quiet (after (let* _ := Viewer.renderCurrentPage backend doc_backend in
                       Viewer.emit sig) v).
Proof.
  intros Hq. rewrite after_bind. now apply quiet_emit, quiet_renderCurrentPage.
Qed.

Lemma quiet_layout_render_emit (sig : Viewer.Signal) (v : Viewer.PDFViewer) :
  Viewer.quiet v ->
  Viewer.quiet (after (let* _ := Viewer.updateLayout doc_backend in
                       let* _ := Viewer.renderCurrentPage backend doc_backend in
                       Viewer.emit sig) v).
Proof.
  intros Hq. rewrite after_bind. now apply quiet_render_emit, quiet_updateLayout.
Qed.

Lemma quiet_goToPage (pageIndex : Z) (v : Viewer.PDFViewer) :
  Viewer.quiet v ->
  Viewer.quiet (after (Viewer.goToPage backend doc_backend pageIndex) v).
Proof.
  intros Hq. unfold after at 1. unfold Viewer.goToPage.
  destruct (Viewer.document_ v) as [d |] eqn:Ed; [| exact Hq]. cbv zeta.
  destruct (bool_decide _); [| exact Hq].
  apply quiet_render_emit. destruct Hq as (Hc & Hw & Hr & Hd).
  repeat split; assumption.
Qed.

Lemma quiet_setZoom (zoom : B64.t) (v : Viewer.PDFViewer) :
  Viewer.quiet v ->
  Viewer.quiet (after (Viewer.setZoom backend doc_backend zoom) v).
Proof.
  intros Hq. unfold after at 1. unfold Viewer.setZoom. cbv zeta.
  destruct (SFltb _ (SFabs _)); [| exact Hq].
  apply quiet_layout_render_emit. destruct Hq as (Hc & Hw & Hr & Hd).
  repeat split; try assumption. cbn.
  apply Forall_fmap. eapply Forall_impl; [exact Hw |]. now intros w.
Qed.

Lemma quiet_calculate (v : Viewer.PDFViewer) :
  Viewer.quiet v ->
  Viewer.quiet (after (Viewer.calculateZoomToFit backend doc_backend) v) /\
  Viewer.quiet (after (Viewer.calculateZoomToFitWidth backend doc_backend) v) /\
  Viewer.quiet (after (Viewer.calculateZoomToFitHeight backend doc_backend) v).
Proof.
  intros Hq. pose proof Hq as (Hc & Hw & Hr & Hd).
  unfold after, Viewer.calculateZoomToFit, Viewer.calculateZoomToFitWidth,
    Viewer.calculateZoomToFitHeight.
  destruct (Viewer.document_ v) as [d |] eqn:Ed;
    [| split; [| split]; exact Hq].
  destruct (page_object_blank doc_backend (Viewer.currentPage_ v) d
              (Hd d eq_refl)) as [Hb _].
  unfold after in Hb.
  destruct (Viewer.page_object doc_backend (Viewer.currentPage_ v) d)
    as [page d']. cbn [snd] in Hb.
  assert (H1 : Viewer.quiet (Viewer.with_document v (Some d'))).
  { repeat split; try assumption. cbn. now intros ? [= <-]. }
  destruct page; (split; [| split]); exact H1.
Qed.

Lemma quiet_run_viewer_call (c : Viewer.ViewerCall) (v : Viewer.PDFViewer) :
  match c with
  | Viewer.CallSetDocument (Some d) => Doc.blank d
  | _ => True
  end ->
  Viewer.quiet v ->
  Viewer.quiet (Viewer.run_viewer_call backend doc_backend v c).
Proof.
  intros Hc Hq. pose proof Hq as (Q1 & Q2 & Q3 & Q4).
  destruct c; cbn [Viewer.run_viewer_call].
  - unfold after, Viewer.setDocument. cbv zeta.
    destruct document as [d |].
    + apply quiet_layout_render_emit. repeat split; try assumption.
      * constructor.
      * cbn. now intros ? [= <-].
    + repeat split; try assumption; [constructor | discriminate].
  - now apply quiet_goToPage.
  - now apply quiet_goToPage.
  - now apply quiet_goToPage.
  - now apply quiet_goToPage.
  - unfold after, Viewer.lastPage.
    destruct (Viewer.document_ v) as [d |]; [| exact Hq].
    now apply quiet_goToPage.
  - now apply quiet_setZoom.
  - now apply quiet_setZoom.
  - unfold Viewer.zoomFit. rewrite after_bind.
    apply quiet_setZoom. now apply quiet_calculate.
  - unfold Viewer.zoomFitWidth. rewrite after_bind.
    apply quiet_setZoom. now apply quiet_calculate.
  - unfold Viewer.zoomFitHeight. rewrite after_bind.
    apply quiet_setZoom. now apply quiet_calculate.
  - now apply quiet_setZoom.
  - now apply quiet_setZoom.
  - unfold after at 1. unfold Viewer.rotateClockwise, Viewer.setRotation.
    cbv zeta. destruct (bool_decide _); [| exact Hq].
    apply quiet_render_emit. repeat split; try assumption. cbn.
    apply Forall_fmap. eapply Forall_impl; [exact Q2 |]. now intros w.
  - unfold after at 1. unfold Viewer.rotateCounterclockwise, Viewer.setRotation.
    cbv zeta. destruct (bool_decide _); [| exact Hq].
    apply quiet_render_emit. repeat split; try assumption. cbn.
    apply Forall_fmap. eapply Forall_impl; [exact Q2 |]. now intros w.
  - unfold after at 1. unfold Viewer.setRotation.
    cbv zeta. destruct (bool_decide _); [| exact Hq].
    apply quiet_render_emit. repeat split; try assumption. cbn.
    apply Forall_fmap. eapply Forall_impl; [exact Q2 |]. now intros w.
  - unfold after at 1. unfold Viewer.setViewMode.
    destruct (bool_decide _); [| exact Hq].
    fold (after (let* _ := Viewer.updateLayout doc_backend in
                 Viewer.renderCurrentPage backend doc_backend)
            (Viewer.with_viewMode v mode)).
    rewrite after_bind. apply quiet_renderCurrentPage, quiet_updateLayout.
    repeat split; assumption.
  - unfold after at 1. unfold Viewer.setRenderQuality.
    destruct (bool_decide _); [| exact Hq].
    apply quiet_renderCurrentPage. repeat split; assumption.
  - repeat split; assumption.
Qed.

(** The viewer never shows a rendered page of a document: the page
    objects [Document::get_page] hands out have no engine page, so every
    [render_page] of the viewer fails.  After any sequence of calls no
    page is cached, no page widget has an image, and the renderer is as
    new (the engine was never asked to draw). *)
Theorem Viewer_never_shows_a_page (viewport : Z * Z)
    (calls : list Viewer.ViewerCall) :
  Viewer.documents_blank calls ->
  let v := Viewer.run_viewer_calls backend doc_backend calls
             (Viewer.new_PDFViewer viewport) in
  Viewer.pageCache_ v = ∅ /\
  Forall (fun w => Viewer.image_ w = None) (Viewer.pageWidgets_ v) /\
  Viewer.renderer_ v = new_Renderer /\
  fz_runs (Viewer.renderer_ v) = [].
Proof.
  intros Hcalls v.
  assert (Hq : Viewer.quiet v).
  { subst v.
    assert (H0 : Viewer.quiet (Viewer.new_PDFViewer viewport)).
    { repeat split; try reflexivity; [constructor | discriminate]. }
    revert H0. generalize (Viewer.new_PDFViewer viewport).
    induction Hcalls as [| c calls Hc Hcalls IH]; intros v0 H0; [exact H0 |].
    cbn [Viewer.run_viewer_calls foldl]. apply IH.
    now apply quiet_run_viewer_call. }
  destruct Hq as (Q1 & Q2 & Q3 & _).
  repeat split; try assumption. now rewrite Q3.
Qed.

(** A positive [int] converts to a positive finite [float]. *)
Lemma of_int_positive (w : Z) :
  0 < w <= Int32.INT_MAX ->
  exists m e, B32.of_Z w = S754_finite false m e.
Proof.
  intros Hw. unfold B32.of_Z, B32.of_scaled.
  change B32.prec with 24. change B32.emax with 128.
  assert (HF : (F2Q w 0 == inject_Z w)%Q) by (unfold F2Q, bpow; simpl; ring).
  assert (Hw1 : (1 <= inject_Z w)%Q)
    by (change 1%Q with (inject_Z 1); rewrite <- Zle_Qle; lia).
  assert (Hw2 : (inject_Z w <= bpow 31)%Q).
  { change (bpow 31) with (inject_Z 2147483648) || 
      (assert (H31 : (bpow 31 == inject_Z 2147483648)%Q) by reflexivity;
       rewrite H31).
    rewrite <- Zle_Qle. unfold Int32.INT_MAX in Hw. lia. }
  destruct (binary_normalize_error w 0 31) as (Hfin & _ & Herr); [| lia |].
  { rewrite HF, (Qabs_pos (inject_Z w)) by lra. exact Hw2. }
  cbv zeta in Herr. rewrite HF in Herr.
  rewrite (Qabs_pos (inject_Z w)) in Herr by lra.
  pose proof (eps_le (inject_Z w) ltac:(lra)) as He.
  assert (Hpos : (0 < B32.to_Q (binary_normalize 24 128 w 0 false))%Q).
  { apply Qabs_Qle_condition in Herr as [Hlo _]. lra. }
  destruct (binary_normalize 24 128 w 0 false) as [s | s | | s m e];
    try discriminate; try (cbn [B32.to_Q] in Hpos; lra).
  destruct s; [| now exists m, e].
  exfalso. pose proof (to_Q_finite true m e) as Hq.
  pose proof (F2Q_nonneg (Zpos m) e ltac:(lia)) as H0.
  unfold sgnQ in Hq. lra.
Qed.

(** Where the build has the engine, "fit" means the largest zoom: a page
    object of a document has no engine page, so [Page::width] and
    [Page::height] are 0, the quotients are infinite, and [zoomFit],
    [zoomFitWidth] and [zoomFitHeight] ask [setZoom] for an infinite
    zoom, which it clamps to 10.  The zoom becomes 10.0, unless it is
    within 0.01 of it already and stays. *)
Theorem Viewer_zoomFit_is_maximum (e : Engine B32.t) (v : Viewer.PDFViewer)
    (d : Doc.Impl) :
  Viewer.document_ v = Some d -> Doc.blank d ->
  0 <= Viewer.currentPage_ v < Doc.page_count doc_backend d ->
  0 < fst (Viewer.viewport_ v) <= Int32.INT_MAX ->
  0 < snd (Viewer.viewport_ v) <= Int32.INT_MAX ->
  let fits v' :=
    Viewer.zoom_ v' = B64.of_Z 10 \/
    Viewer.zoom_ v' = Viewer.zoom_ v /\
    SFltb (B64.literal 1 100)
      (SFabs (B64.sub (Viewer.zoom_ v) (B64.of_Z 10))) = false in
  outcome (Viewer.calculateZoomToFit (Some e) doc_backend) v
    = S754_infinity false /\
  fits (after (Viewer.zoomFit (Some e) doc_backend) v) /\
  fits (after (Viewer.zoomFitWidth (Some e) doc_backend) v) /\
  fits (after (Viewer.zoomFitHeight (Some e) doc_backend) v).
Proof.
  intros Hd Hb Hcur Hvw Hvh fits.
  destruct (of_int_positive _ Hvw) as (mw & ew & Hw).
  destruct (of_int_positive _ Hvh) as (mh & eh & Hh).
  (* the page object *)
  destruct (page_object_blank doc_backend (Viewer.currentPage_ v) d Hb)
    as [_ Hp].
  assert (Hsome : outcome (Viewer.page_object doc_backend
                             (Viewer.currentPage_ v)) d = Some new_Page).
  { destruct Hp as [Hp | Hp]; [| exact Hp]. exfalso.
    unfold outcome, Viewer.page_object in Hp.
    destruct (Doc_get_page_some doc_backend (Viewer.currentPage_ v) d Hcur)
      as (Ho & [pg Hpg] & _).
    unfold outcome, after in Ho, Hpg.
    destruct (Doc.get_page doc_backend (Viewer.currentPage_ v) d) as [p d'].
    cbn [fst snd] in *. subst p. cbn [mbind option_bind] in Hp. congruence. }
  unfold outcome in Hsome.
  (* the three quotients *)
  assert (Hcalc :
    Viewer.calculateZoomToFit (Some e) doc_backend v
      = (S754_infinity false,
         Viewer.with_document v
           (Some (after (Viewer.page_object doc_backend
                           (Viewer.currentPage_ v)) d))) /\
    Viewer.calculateZoomToFitWidth (Some e) doc_backend v
      = (S754_infinity false,
         Viewer.with_document v
           (Some (after (Viewer.page_object doc_backend
                           (Viewer.currentPage_ v)) d))) /\
    Viewer.calculateZoomToFitHeight (Some e) doc_backend v
      = (S754_infinity false,
         Viewer.with_document v
           (Some (after (Viewer.page_object doc_backend
                           (Viewer.currentPage_ v)) d)))).
  { unfold Viewer.calculateZoomToFit, Viewer.calculateZoomToFitWidth,
      Viewer.calculateZoomToFitHeight, after. rewrite Hd.
    destruct (Viewer.page_object doc_backend (Viewer.currentPage_ v) d)
      as [page d']. cbn [fst snd] in *. subst page.
    cbn [Page_width Page_height page_ new_Page Viewer.viewport_
         Viewer.with_document].
    change (@of_int B32.t binary32) with B32.of_Z.
    rewrite Hw, Hh.
    repeat split; f_equal; vm_compute; reflexivity. }
  destruct Hcalc as (Hc1 & Hc2 & Hc3).
  set (v1 := Viewer.with_document v _) in *.
  assert (Hset : fits (after (Viewer.setZoom (Some e) doc_backend
                                (S754_infinity false)) v1)).
  { unfold fits, after, Viewer.setZoom. cbv zeta.
    replace (Viewer.clamp_zoom (S754_infinity false)) with (B64.of_Z 10)
      by (vm_compute; reflexivity).
    change (Viewer.zoom_ v1) with (Viewer.zoom_ v).
    destruct (SFltb _ (SFabs _)) eqn:E.
    - left.
      set (v2 := Viewer.with_pageWidgets _ _).
      destruct (layout_render_emit_same (Some e) doc_backend
                  (Viewer.zoomChanged (B64.of_Z 10)) v2) as (_ & H2 & _).
      cbv zeta in H2. unfold after in H2. rewrite H2. reflexivity.
    - right. split; reflexivity. }
  split; [unfold outcome; now rewrite Hc1 |].
  unfold Viewer.zoomFit, Viewer.zoomFitWidth, Viewer.zoomFitHeight.
  rewrite !after_bind. unfold outcome, after at 2 4 6.
  rewrite Hc1, Hc2, Hc3. cbn [fst snd]. repeat split; exact Hset.
Qed.

End ViewerInvariants.

Lemma render_page_reads_witness :
  let clipped :=
    set_clip (F:=B32.t) default_options
      (mkRect (of_int 0) (of_int 0) (of_int 1) (of_int 1)) in
  render_page (Some tiny_engine) (Some page_A) clipped =
  render_page (Some tiny_engine) (Some page_A) default_options.
Proof.
  intros clipped.
  apply (render_page_reads (Some tiny_engine) (Some page_A) clipped default_options).
  vm_compute. repeat split.
Defined.

Lemma render_page_buffer_witness :
  let o72 := set_dpi (F:=B32.t) default_options (of_int 72) in
  let img := mkImageBuffer (replicate 12 "255"%byte) 2 2 6 RGB24 in
  color_format (render_transparent o72) (ib_format img) = true /\
  bytes_per_pixel img = (if render_transparent o72 then 4 else 3) /\
  ImageBuffer_size img = Z.to_nat (Int32.mul (ib_stride img) (ib_height img)) /\
  (color_mode o72 = CM_Grayscale \/ color_mode o72 = CM_Monochrome ->
   ib_format img <> Gray8 /\ ib_format img <> Mono1).
Proof.
  intros o72 img.
  apply (render_page_buffer (Some tiny_engine) (Some page_A) o72 new_Renderer img).
  vm_compute. reflexivity.
Defined.

Lemma Doc_pages_are_new_witness :
  let backend := Some three_page_engine in
  let d := Doc.after_get_pages backend [2; 0]
             (Doc.mkImpl (Some 1%positive) []) in
  exists p,
    outcome (Doc.get_page backend 2) d = Some p /\
    Doc.page_at (after (Doc.get_page backend 2) d) p = Some new_Page /\
    get_page (document_of backend d) 2 = Some new_Page /\
    Page_get_handle new_Page = None /\
    Page_index new_Page = 0 /\ Page_number new_Page = 1.
Proof.
  intros backend d.
  apply (Doc_pages_are_new backend (Some 1%positive) [2; 0] 2).
  vm_compute. split; [discriminate | reflexivity].
Defined.

Lemma calculate_dimensions_b32_within_one_witness :
  let backend := Some fractional_engine in
  let d := B32.of_Z 150 in
  let W := B32.to_Q (Page_width backend page_A) in
  let Hh := B32.to_Q (Page_height backend page_A) in
  let dims := calculate_dimensions backend (Some page_A) d in
  Z.abs (fst dims - Qfloor (W * (B32.to_Q d * (1 # 72)))) <= 1 /\
  Z.abs (snd dims - Qfloor (Hh * (B32.to_Q d * (1 # 72)))) <= 1.
Proof.
  intros backend d.
  apply (calculate_dimensions_b32_within_one backend page_A d);
    vm_compute; reflexivity.
Defined.

Lemma page_to_pixel_b32_accurate_witness :
  let x := B32.of_scaled 1223 (-1) in
  let y := B32.of_scaled 1 (-2) in
  let h := B32.of_Z 792 in
  let d := B32.of_Z 150 in
  let p := page_to_pixel (mkPoint x y) d h in
  let scale := (B32.to_Q d * (1 # 72))%Q in
  B32.is_finite (px p) = true /\ B32.is_finite (py p) = true /\
  (Qabs (B32.to_Q (px p) - B32.to_Q x * scale) <= 1 # 4)%Q /\
  (Qabs (B32.to_Q (py p) - (B32.to_Q h - B32.to_Q y) * scale) <= 1 # 4)%Q.
Proof.
  intros x y h d.
  apply (page_to_pixel_b32_accurate x y h d); vm_compute; reflexivity.
Defined.

Lemma pixel_to_page_b32_accurate_witness :
  let x := B32.of_Z 1274 in
  let y := B32.of_Z 3 in
  let h := B32.of_Z 792 in
  let d := B32.of_Z 150 in
  let p := pixel_to_page (mkPoint x y) d h in
  let scale := (72 / B32.to_Q d)%Q in
  B32.is_finite (px p) = true /\ B32.is_finite (py p) = true /\
  (Qabs (B32.to_Q (px p) - B32.to_Q x * scale) <= 1 # 100)%Q /\
  (Qabs (B32.to_Q (py p) - (B32.to_Q h - B32.to_Q y * scale)) <= 1 # 100)%Q.
Proof.
  intros x y h d.
  apply (pixel_to_page_b32_accurate x y h d); vm_compute; reflexivity.
Defined.

Lemma Viewer_goToPage_clamps_witness :
  let backend := Some (tiny_engine (F:=B32.t)) in
  let doc_backend := Some three_page_engine in
  let d := Doc.mkImpl (Some 1%positive) [Some new_Page; None; None] in
  let v := after (Viewer.setDocument backend doc_backend
                    (Some (Doc.mkImpl (Some 1%positive) [])))
             (Viewer.new_PDFViewer (800, 600)) in
  let n := Doc.page_count doc_backend d in
  let v' := after (Viewer.goToPage backend doc_backend 7) v in
  Viewer.currentPage_ v' = Z.min (Z.max 7 0) (n - 1) /\
  (1 <= n -> 0 <= Viewer.currentPage_ v' < n) /\
  (n = 0 -> Viewer.currentPage_ v' = -1) /\
  Viewer.emitted v' =
    Viewer.emitted v ++
    (if decide (Viewer.currentPage_ v' = Viewer.currentPage_ v) then []
     else [Viewer.pageChanged (Viewer.currentPage_ v')]) /\
  Viewer.zoom_ v' = Viewer.zoom_ v /\
  Viewer.rotation_ v' = Viewer.rotation_ v /\
  Viewer.pageCount doc_backend v' = n.
Proof.
  intros backend doc_backend d v.
  apply (Viewer_goToPage_clamps backend doc_backend v d 7).
  - vm_compute. reflexivity.
  - vm_compute. split; [reflexivity | discriminate].
Defined.

Lemma Viewer_never_shows_a_page_witness :
  let backend := Some (tiny_engine (F:=B32.t)) in
  let doc_backend := Some three_page_engine in
  let calls :=
    [Viewer.CallSetDocument (Some (Doc.mkImpl (Some 1%positive) []));
     Viewer.CallNextPage; Viewer.CallZoomIn;
     Viewer.CallSetViewMode Viewer.Continuous; Viewer.CallRotateClockwise] in
  let v := Viewer.run_viewer_calls backend doc_backend calls
             (Viewer.new_PDFViewer (800, 600)) in
  Viewer.pageCache_ v = ∅ /\
  Forall (fun w => Viewer.image_ w = None) (Viewer.pageWidgets_ v) /\
  Viewer.renderer_ v = new_Renderer /\
  fz_runs (Viewer.renderer_ v) = [].
Proof.
  intros backend doc_backend calls.
  apply (Viewer_never_shows_a_page backend doc_backend (800, 600) calls).
  repeat constructor.
Defined.

Lemma Viewer_zoomFit_is_maximum_witness :
  let doc_backend := Some three_page_engine in
  let d := Doc.mkImpl (Some 1%positive) [Some new_Page; None; None] in
  let v := after (Viewer.setDocument (Some tiny_engine) doc_backend
                    (Some (Doc.mkImpl (Some 1%positive) [])))
             (Viewer.new_PDFViewer (800, 600)) in
  let fits v' :=
    Viewer.zoom_ v' = B64.of_Z 10 \/
    Viewer.zoom_ v' = Viewer.zoom_ v /\
    SFltb (B64.literal 1 100)
      (SFabs (B64.sub (Viewer.zoom_ v) (B64.of_Z 10))) = false in
  outcome (Viewer.calculateZoomToFit (Some tiny_engine) doc_backend) v
    = S754_infinity false /\
  fits (after (Viewer.zoomFit (Some tiny_engine) doc_backend) v) /\
  fits (after (Viewer.zoomFitWidth (Some tiny_engine) doc_backend) v) /\
  fits (after (Viewer.zoomFitHeight (Some tiny_engine) doc_backend) v).
Proof.
  intros doc_backend d v.
  apply (Viewer_zoomFit_is_maximum doc_backend tiny_engine v d).
  - vm_compute. reflexivity.
  - constructor; [now right |]. constructor; [now left |].
    constructor; [now left | constructor].
  - vm_compute. split; [discriminate | reflexivity].
  - vm_compute. split; [reflexivity | discriminate].
  - vm_compute. split; [reflexivity | discriminate].
Defined.
